(** * Verification of the signal-processing core of signal-analyzer

    Shallow embedding of [src/unnamed/part_000] (the CSV processor):
    parsing, the Savitzky-Golay kernel with its Gauss-Jordan inversion,
    root de-duplication, the intersection finder and the jump-edge detector.

    Modelling choices:
    - JavaScript numbers used by the numerical kernel are modelled as exact
      rationals [Qc] (canonical rationals, so equality is Leibniz equality);
      the rounding of IEEE doubles is not modelled.
    - Uncaught exceptions are modelled by the result type [res]: [Throw e].
    - Arrays are lists; [a[i]] is [nth i a 0].  Every matrix built by the code
      is rectangular, so no row is read beyond its end.
    - The CSV text is an ASCII [string]; the values [parseFloat] yields are
      [jsnum] (a finite exact decimal, an infinity or [NaN]).
    - Loops are folds or structural recursions over the index range; a
      loop with [break] returns its state at the break. *)

From Stdlib Require Import String Ascii.
From Stdlib Require Import ZArith QArith Qcanon Qcabs Qround List Lia Bool Lqa.
Import ListNotations.
Open Scope nat_scope.

(* ------------------------------------------------------------------ *)
(** ** Results with exceptions *)

Inductive exn : Type :=
| MatrixDegenerate   (* new Error("Matrix degenerate") *)
| TypeError.         (* property read on undefined *)

Inductive res (A : Type) : Type :=
| Ok (a : A)
| Throw (e : exn).
Arguments Ok {A} a.
Arguments Throw {A} e.

Definition bind {A B} (m : res A) (f : A -> res B) : res B :=
  match m with Ok a => f a | Throw e => Throw e end.

Notation "x <- m ;; k" := (bind m (fun x => k))
  (at level 61, m at next level, right associativity).

(* ------------------------------------------------------------------ *)
(** ** Numbers *)

(** [x < y] on canonical rationals, as a boolean. *)
Definition Qcltb (x y : Qc) : bool := negb (Qle_bool (this y) (this x)).
Definition Qcleb (x y : Qc) : bool := Qle_bool (this x) (this y).

(** Decimal literals of the source. *)
Definition eps15 : Qc := Q2Qc (1 # 1000000000000000).   (* 1e-15 *)

(** [sum n f] is [f 0 + f 1 + ... + f (n-1)], accumulated from 0 left to
    right, as the [+=] loops of the source do. *)
Definition sum (n : nat) (f : nat -> Qc) : Qc :=
  fold_left (fun acc k => (acc + f k)%Qc) (seq 0 n) 0%Qc.

(** [M[r][c]] *)
Definition getM (M : list (list Qc)) (r c : nat) : Qc := nth c (nth r M []) 0%Qc.

(** [A[i] = x] for an index within the array. *)
Fixpoint set_nth {T} (l : list T) (i : nat) (x : T) : list T :=
  match l, i with
  | [], _ => []
  | _ :: l', O => x :: l'
  | y :: l', S i' => y :: set_nth l' i' x
  end.

(* ------------------------------------------------------------------ *)
(** ** Matrix utilities *)

(** [transpose = (M) => M[0].map((_, i) => M.map(row => row[i]))];
    [M[0].map] throws on an empty [M]. *)
Definition transpose (M : list (list Qc)) : res (list (list Qc)) :=
  match M with
  | [] => Throw TypeError
  | row0 :: _ => Ok (map (fun i => map (fun row => nth i row 0%Qc) M) (seq 0 (length row0)))
  end.

(** [multiplyMatrices]: [A[0].length] and [B[0].length] throw on an empty
    operand; [B[k][j]] throws when [B] has fewer than [aCols] rows and the
    inner loop runs.  [C[i][j]] accumulates [A[i][k] * B[k][j]] for
    increasing [k]. *)
Definition multiplyMatrices (A B : list (list Qc)) : res (list (list Qc)) :=
  match A, B with
  | a0 :: _, b0 :: _ =>
      let aRows := length A in
      let aCols := length a0 in
      let bCols := length b0 in
      if (length B <? aCols) && (0 <? bCols) then Throw TypeError else
      Ok (map (fun i => map (fun j => sum aCols (fun k => (getM A i k * getM B k j)%Qc))
                            (seq 0 bCols))
              (seq 0 aRows))
  | _, _ => Throw TypeError
  end.

(** Row [i] of the identity block appended by [invertMatrix]. *)
Definition unit_row (n i : nat) : list Qc :=
  map (fun j => if Nat.eqb i j then 1%Qc else 0%Qc) (seq 0 n).

(** [m.map((row, i) => row.concat(unit_row n i))] *)
Fixpoint augment_from (n i : nat) (m : list (list Qc)) : list (list Qc) :=
  match m with
  | [] => []
  | row :: m' => (row ++ unit_row n i) :: augment_from n (S i) m'
  end.

(** [for (k = i + 1; k < n; k++) if (|A[k][i]| > |A[maxRow][i]|) maxRow = k] *)
Definition find_max_row (A : list (list Qc)) (n i : nat) : nat :=
  fold_left (fun maxRow k =>
               if Qcltb (Qcabs (getM A maxRow i)) (Qcabs (getM A k i)) then k else maxRow)
            (seq (S i) (n - S i)) i.

(** [[A[i], A[maxRow]] = [A[maxRow], A[i]]] *)
Definition swap_rows (A : list (list Qc)) (i j : nat) : list (list Qc) :=
  let ri := nth i A [] in
  let rj := nth j A [] in
  set_nth (set_nth A i rj) j ri.

(** [for (k = 0; k < n; k++) { if (k === i) continue;
       const factor = A[k][i];
       for (j = 0; j < 2 * n; j++) A[k][j] -= factor * A[i][j]; }] *)
Definition eliminate (n i : nat) (A : list (list Qc)) : list (list Qc) :=
  fold_left (fun A k =>
               if Nat.eqb k i then A else
               let factor := getM A k i in
               set_nth A k (map (fun j => (getM A k j - factor * getM A i j)%Qc) (seq 0 (2 * n))))
            (seq 0 n) A.

(** One iteration [i] of the outer loop of [invertMatrix]. *)
Definition gj_step (n i : nat) (A : list (list Qc)) : res (list (list Qc)) :=
  let maxRow := find_max_row A n i in
  if Qcltb (Qcabs (getM A maxRow i)) eps15 then Throw MatrixDegenerate else
  let A1 := if Nat.eqb maxRow i then A else swap_rows A i maxRow in
  let diag := getM A1 i i in
  let A2 := set_nth A1 i (map (fun j => (getM A1 i j / diag)%Qc) (seq 0 (2 * n))) in
  Ok (eliminate n i A2).

(** Outer loop, iterations [i .. i + fuel - 1]. *)
Fixpoint gj_from (n i fuel : nat) (A : list (list Qc)) : res (list (list Qc)) :=
  match fuel with
  | O => Ok A
  | S f => A' <- gj_step n i A ;; gj_from n (S i) f A'
  end.

(** [invertMatrix]: Gauss-Jordan elimination with partial pivoting on
    [[m | I]], returning the right half ([row.slice(n)]). *)
Definition invertMatrix (m : list (list Qc)) : res (list (list Qc)) :=
  let n := length m in
  A <- gj_from n 0 n (augment_from n 0 m) ;;
  Ok (map (fun row => skipn n row) A).

(* ------------------------------------------------------------------ *)
(** ** Savitzky-Golay smoothing and derivative *)

(** The integers [i] of [for (let i = -half; i <= half; i++)]. *)
Definition offsets (half : Z) : list Z :=
  map (fun m => (- half + Z.of_nat m)%Z) (seq 0 (Z.to_nat (2 * half + 1))).

(** Design matrix: [row.push(i ** p)] for [p = 0 .. polyOrder]
    ([0 ** 0 = 1] in JavaScript as in [Qcpower]). *)
Definition design_matrix (half polyOrder : Z) : list (list Qc) :=
  map (fun i => map (fun p => Qcpower (Q2Qc (inject_Z i)) p)
                    (seq 0 (Z.to_nat (polyOrder + 1))))
      (offsets half).

(** Edge clamping of the sliding window:
    [if (idx < 0) idx = 0; if (idx >= n) idx = n - 1]. *)
Definition clamp_idx (n : nat) (idx : Z) : nat :=
  let idx := if (idx <? 0)%Z then 0%Z else idx in
  let idx := if (Z.of_nat n <=? idx)%Z then (Z.of_nat n - 1)%Z else idx in
  Z.to_nat idx.

(** The sliding dot product of both filters:
    [acc += data[idx] * coeffs[j + half]] for [j = -half .. half]. *)
Definition convolve (data coeffs : list Qc) (half : Z) : list Qc :=
  let n := length data in
  map (fun i =>
         sum (Z.to_nat (2 * half + 1))
             (fun m => (nth (clamp_idx n (Z.of_nat i + (Z.of_nat m - half))) data 0
                        * nth m coeffs 0)%Qc))
      (seq 0 n).

(** Parameter normalisation of [savitzkyGolay]:
    [windowSize = Math.max(3, Math.floor(windowSize));
     if (windowSize % 2 === 0) windowSize += 1;
     polyOrder = Math.max(1, Math.floor(polyOrder));
     if (polyOrder >= windowSize) polyOrder = windowSize - 1;] *)
Definition sg_normalize (windowSize polyOrder : Q) : Z * Z :=
  let w := Z.max 3 (Qfloor windowSize) in
  let w := if (Z.rem w 2 =? 0)%Z then (w + 1)%Z else w in
  let p := Z.max 1 (Qfloor polyOrder) in
  let p := if (w <=? p)%Z then (w - 1)%Z else p in
  (w, p).

(** [savitzkyGolay(data, windowSize, polyOrder)]; the [catch] around
    [invertMatrix] returns [data.slice()]. *)
Definition savitzkyGolay (data : list Qc) (windowSize polyOrder : Q) : res (list Qc) :=
  match data with
  | [] => Ok []
  | _ =>
    let '(w, p) := sg_normalize windowSize polyOrder in
    let half := (w / 2)%Z in
    let A := design_matrix half p in
    AT <- transpose A ;;
    ATA <- multiplyMatrices AT A ;;
    match invertMatrix ATA with
    | Throw _ => Ok data
    | Ok invATA =>
        ATAinvAT <- multiplyMatrices invATA AT ;;
        let coeffs := nth 0 ATAinvAT [] in
        Ok (convolve data coeffs half)
    end
  end.

(** The smoothing coefficient vector derived by the kernel of
    [savitzkyGolay] (row 0 of [(A^T A)^-1 A^T]), when inversion succeeds. *)
Definition sg_coeffs (windowSize polyOrder : Q) : res (list Qc) :=
  let '(w, p) := sg_normalize windowSize polyOrder in
  let half := (w / 2)%Z in
  let A := design_matrix half p in
  AT <- transpose A ;;
  ATA <- multiplyMatrices AT A ;;
  invATA <- invertMatrix ATA ;;
  ATAinvAT <- multiplyMatrices invATA AT ;;
  Ok (nth 0 ATAinvAT []).

(** [calculateDerivativeSG(t, signal, windowSize, polyOrder)]: no parameter
    normalisation; [ATAinvAT[1]] is [undefined] when the product has a
    single row, and reading [coeffsDeriv[j + half]] then throws.  The
    division by a zero [dtConst] (which yields an infinity in JavaScript) is
    not used by any property below. *)
Definition calculateDerivativeSG (t signal : list Qc) (windowSize polyOrder : Q)
  : res (list Qc) :=
  let n := length signal in
  if n <? 3 then Ok (repeat 0%Qc n) else
  let half := Qfloor (windowSize / 2) in
  let A := design_matrix half (Qfloor polyOrder) in
  AT <- transpose A ;;
  ATA <- multiplyMatrices AT A ;;
  match invertMatrix ATA with
  | Throw _ => Ok (repeat 0%Qc n)
  | Ok invATA =>
      ATAinvAT <- multiplyMatrices invATA AT ;;
      match nth_error ATAinvAT 1 with
      | None => Throw TypeError
      | Some coeffsDeriv =>
          let dtConst := (nth 1 t 0 - nth 0 t 0)%Qc in
          Ok (map (fun acc => (acc / dtConst)%Qc) (convolve signal coeffsDeriv half))
      end
  end.

(* ------------------------------------------------------------------ *)
(** ** Invariant of the Gauss-Jordan loop *)

(** Row [r] of the augmented matrix [[L | R]] satisfies [R * M = L]
    (row [r] of [R] combines the rows of [M] into row [r] of [L]). *)
Definition row_inv (n : nat) (M : list (list Qc)) (r : list Qc) : Prop :=
  forall c, c < n -> sum n (fun k => (nth (n + k) r 0 * getM M k c)%Qc) = nth c r 0%Qc.

(** After [i] iterations: [n] rows of length [2n], each satisfying
    [row_inv], and the first [i] columns of [L] are those of the identity. *)
Definition gj_inv (n i : nat) (M A : list (list Qc)) : Prop :=
  length A = n /\
  (forall r, r < n -> length (nth r A []) = 2 * n) /\
  (forall r, r < n -> row_inv n M (nth r A [])) /\
  (forall r c, r < n -> c < i -> getM A r c = if Nat.eqb r c then 1%Qc else 0%Qc).

(** The body of the elimination loop, iteration [k]. *)
Definition elim_row (n i : nat) (A : list (list Qc)) (k : nat) : list Qc :=
  map (fun j => (getM A k j - getM A k i * getM A i j)%Qc) (seq 0 (2 * n)).

(** A square matrix: [n] rows of length [n]. *)
Definition square (n : nat) (M : list (list Qc)) : Prop :=
  length M = n /\ forall r, (r < n)%nat -> length (nth r M []) = n.

(** The sum of a vector, [v.reduce((s, x) => s + x, 0)]. *)
Definition list_sum (l : list Qc) : Qc := fold_left Qcplus l 0%Qc.

(** The normal-equations matrix [A^T A] of [savitzkyGolay] (after the
    parameter normalisation) and of [calculateDerivativeSG] (without it). *)
Definition sg_ATA (windowSize polyOrder : Q) : res (list (list Qc)) :=
  let '(w, p) := sg_normalize windowSize polyOrder in
  let A := design_matrix (w / 2)%Z p in
  AT <- transpose A ;;
  multiplyMatrices AT A.

Definition deriv_ATA (windowSize polyOrder : Q) : res (list (list Qc)) :=
  let A := design_matrix (Qfloor (windowSize / 2)) (Qfloor polyOrder) in
  AT <- transpose A ;;
  multiplyMatrices AT A.

(** The values of a result list, as plain rationals (for stating computed
    results). *)
Definition res_vals (r : res (list Qc)) : res (list Q) :=
  match r with Ok l => Ok (map this l) | Throw e => Throw e end.

(** Inputs of the concrete scenarios. *)
Definition qlist (l : list Q) : list Qc := map Q2Qc l.

(* ------------------------------------------------------------------ *)
(** ** Root de-duplication ([filterClosePoints]) *)

Section FilterClosePoints.

(** The values of [y0] are arbitrary JavaScript values; [undef] stands for
    [undefined], read past the end of [y0]. *)
Context {Y : Type} (undef : Y).

(** One step of the sweep at index [i]: [outT[i]] is kept when
    [outT[i] - newT[newT.length - 1] >= minDistance]. *)
Definition fcp_step (outT : list Qc) (outY : list Y) (minDistance : Qc)
    (acc : list Qc * list Y) (i : nat) : list Qc * list Y :=
  let '(newT, newY) := acc in
  if Qcleb minDistance (nth i outT 0 - last newT 0)%Qc
  then (newT ++ [nth i outT 0%Qc], newY ++ [nth i outY undef])
  else (newT, newY).

(** One sweep: [newT = [outT[0]]], then [i] from [1] to [outT.length - 1]. *)
Definition fcp_pass (outT : list Qc) (outY : list Y) (minDistance : Qc) : list Qc * list Y :=
  fold_left (fcp_step outT outY minDistance)
            (seq 1 (length outT - 1)) ([nth 0 outT 0%Qc], [nth 0 outY undef]).

(** [for (let k = 0; k < 10; k++) { ...; if (newT.length === outT.length) break;
      outT = newT; outY = newY; }] with [k] iterations left. *)
Fixpoint fcp_loop (k : nat) (outT : list Qc) (outY : list Y) (minDistance : Qc)
  : list Qc * list Y :=
  match k with
  | O => (outT, outY)
  | S k' =>
      let '(newT, newY) := fcp_pass outT outY minDistance in
      if Nat.eqb (length newT) (length outT) then (outT, outY)
      else fcp_loop k' newT newY minDistance
  end.

Definition filterClosePoints (t0 : list Qc) (y0 : list Y) (minDistance : Qc)
  : list Qc * list Y :=
  if length t0 <=? 1 then (t0, y0) else fcp_loop 10 t0 y0 minDistance.

End FilterClosePoints.

(** Consecutive points at least [d] apart: [d <= b - a] for neighbours [a, b]. *)
Fixpoint separated (d : Qc) (l : list Qc) : Prop :=
  match l with
  | a :: ((b :: _) as l') => (d <= b - a)%Qc /\ separated d l'
  | _ => True
  end.

(* ------------------------------------------------------------------ *)
(** ** Jump-edge detection ([findJumpByDerivative], [findLargestJumpStart]) *)

Definition eps12 : Qc := Q2Qc (1 # 1000000000000).   (* 1e-12 *)
Definition eps6 : Qc := Q2Qc (1 # 1000000).          (* 1e-6 *)

Definition Qc_of_nat (k : nat) : Qc := Q2Qc (inject_Z (Z.of_nat k)).

(** [Math.max] and [Math.min] on two numbers. *)
Definition Qcmax (x y : Qc) : Qc := if Qcltb x y then y else x.
Definition Qcmin (x y : Qc) : Qc := if Qcltb y x then y else x.

(** [Math.sign] ([-0] and [+0] both give a falsy result). *)
Definition js_sign (x : Qc) : Z :=
  if Qcltb 0%Qc x then 1%Z else if Qcltb x 0%Qc then (-1)%Z else 0%Z.

(** The backward walk [while (startIdx > 0) { ... startIdx -= 1; }]. *)
Fixpoint fjd_walk (slopes : list Qc) (slopeSign : Z) (startThreshold : Qc) (startIdx : nat)
  : nat :=
  match startIdx with
  | O => O
  | S k =>
      let prevSlope := nth k slopes 0%Qc in
      if negb (Z.eqb (js_sign prevSlope) slopeSign)
         || Qcltb (Qcabs prevSlope) startThreshold
      then S k
      else fjd_walk slopes slopeSign startThreshold k
  end.

Definition findJumpByDerivative (t signal : list Qc) : option nat :=
  let slopes :=
    map (fun i => let dt := Qcmax (nth i t 0 - nth (i - 1) t 0)%Qc eps12 in
                  ((nth i signal 0 - nth (i - 1) signal 0) / dt)%Qc)
        (seq 1 (length signal - 1)) in
  match slopes with
  | [] => None
  | s0 :: _ =>
      let '(maxIdx, maxSlope) :=
        fold_left (fun '(mi, ms) i =>
                     if Qcltb (Qcabs ms) (Qcabs (nth i slopes 0%Qc))
                     then (i, nth i slopes 0%Qc) else (mi, ms))
                  (seq 1 (length slopes - 1)) (0%nat, s0) in
      let slopeSign := match js_sign maxSlope with 0%Z => 1%Z | s => s end in
      let startThreshold := (Qcabs maxSlope * Q2Qc (35 # 100))%Qc in
      Some (fjd_walk slopes slopeSign startThreshold maxIdx)
  end.

(** [for (let i = i0; i < n; i++) if (smoothSignal[i] <= threshold) { startIdx = i; break; }] *)
Fixpoint first_at_or_below (l : list Qc) (threshold : Qc) (i : nat) : option nat :=
  match l with
  | [] => None
  | v :: l' => if Qcleb v threshold then Some i else first_at_or_below l' threshold (S i)
  end.

(** The amplitude search of [findLargestJumpStart]: baseline over the first
    [headCount] smoothed samples ([slice] stops at the end of the array, the
    division is by [headCount]), the running minimum from [baseline], and
    the first sample at or below [baseline - amplitude * 0.15].
    [Math.floor(n * 0.05)] is [n / 20] for array lengths: the double nearest
    to [0.05] is slightly above it, so [20 * k * 0.05] rounds to no less than
    [k], and any other product stays well inside its unit interval. *)
Definition amplitude_start_index (smoothSignal : list Qc) : option nat :=
  let n := length smoothSignal in
  let headCount := Nat.max 20 (n / 20) in
  let baseline := (list_sum (firstn headCount smoothSignal) / Qc_of_nat headCount)%Qc in
  let minVal := fold_left Qcmin smoothSignal baseline in
  let amplitude := (baseline - minVal)%Qc in
  if Qcltb 0%Qc amplitude
  then first_at_or_below smoothSignal (baseline - amplitude * Q2Qc (15 # 100))%Qc 0
  else None.

(** [t] and [signal] are arrays in the model, so the [Array.isArray] tests
    hold; [savitzkyGolay]'s exceptions (none occur, [savitzkyGolay_total])
    would propagate. [Math.floor(signal.length * 0.02)] is
    [length signal / 50], as above. *)
Definition findLargestJumpStart (t signal : list Qc) : res (option (Qc * Qc)) :=
  if (length t <? 3) || negb (Nat.eqb (length t) (length signal)) then Ok None else
  smoothSignal <- savitzkyGolay signal 11%Q 2%Q ;;
  let startIdx :=
    match amplitude_start_index smoothSignal with
    | Some i => Some i
    | None => findJumpByDerivative t smoothSignal
    end in
  match startIdx with
  | None => Ok None
  | Some s =>
      let windowSamples := Nat.max 20 (length signal / 50) in
      let leftIdx := (s - windowSamples)%nat in
      let rightIdx := Nat.min (length signal - 1) (s + windowSamples) in
      let d := (nth rightIdx t 0 - nth leftIdx t 0)%Qc in
      let window := if Qcltb 0%Qc d then d else eps6 in
      Ok (Some (nth s t 0%Qc, window))
  end.

(** The synthetic trace of the end-to-end scenario: [0] below index [5000],
    a 20-sample linear ramp [-(i - 5000) / 20] from index [5000], and [-1]
    from index [5020] on, over [10000] samples. *)
Definition step_valueZ (i : Z) : Qc :=
  if (i <? 5000)%Z then 0%Qc
  else if (i <? 5020)%Z then Q2Qc (- (i - 5000) # 20)
  else Q2Qc (-1).

Definition step_value (i : nat) : Qc := step_valueZ (Z.of_nat i).

Definition step_signal : list Qc := map step_value (seq 0 10000).

(** [convolve] of the tabulated sequence [map f (seq 0 n)], reading [f]
    instead of the list. *)
Definition convolve_fn (f : nat -> Qc) (n : nat) (coeffs : list Qc) (half : Z) : list Qc :=
  map (fun i =>
         sum (Z.to_nat (2 * half + 1))
             (fun m => (f (clamp_idx n (Z.of_nat i + (Z.of_nat m - half))) * nth m coeffs 0)%Qc))
      (seq 0 n).

(** [clamp_idx] before the conversion to [nat], and [seq] over [Z]. *)
Definition clampZ (n idx : Z) : Z :=
  let idx := if (idx <? 0)%Z then 0%Z else idx in
  if (n <=? idx)%Z then (n - 1)%Z else idx.

Fixpoint Zseq (start : Z) (len : nat) : list Z :=
  match len with O => [] | S l => start :: Zseq (Z.succ start) l end.

(** [convolve_fn] with its indices computed in [Z]. *)
Definition convolve_fnZ (g : Z -> Qc) (n : nat) (nZ : Z) (coeffs : list Qc) (half : Z)
  : list Qc :=
  map (fun iz =>
         sum (Z.to_nat (2 * half + 1))
             (fun m => (g (clampZ nZ (iz + (Z.of_nat m - half))) * nth m coeffs 0)%Qc))
      (Zseq 0 n).

(** The smoothing coefficients for window [11], order [2], in lowest terms. *)
Definition sg11_2 : list Qc :=
  qlist [-12 # 143; 3 # 143; 4 # 39; 23 # 143; 28 # 143; 89 # 429;
         28 # 143; 23 # 143; 4 # 39; 3 # 143; -12 # 143]%Q.

(** Uniform sampling [t_i = i]. *)
Definition uniform_t : list Qc := map Qc_of_nat (seq 0 10000).

(* ------------------------------------------------------------------ *)
(** ** CSV parsing ([parseCSV], the row loop) *)

(** The values [parseFloat] produces.  A finite result is the exact decimal
    value of the parsed prefix (the rounding to a double, and the overflow of
    exponents past 308 to an infinity, are not modelled). *)
Inductive jsnum : Type :=
| JNum (q : Qc)
| JPosInf
| JNegInf
| JNaN.

Definition js_isNaN (x : jsnum) : bool := match x with JNaN => true | _ => false end.

(** [x * c] and [x + c] for a positive finite constant [c]. *)
Definition js_mul_const (x : jsnum) (c : Qc) : jsnum :=
  match x with JNum q => JNum (q * c)%Qc | _ => x end.
Definition js_add_const (x : jsnum) (c : Qc) : jsnum :=
  match x with JNum q => JNum (q + c)%Qc | _ => x end.

(** [options.k || d] for a numeric option: [undefined] ([None]) and [0]
    are falsy. *)
Definition js_or_num (o : option Qc) (d : Qc) : Qc :=
  match o with
  | Some x => if Qc_eq_dec x 0%Qc then d else x
  | None => d
  end.

(** Strings are ASCII; the JavaScript white space in that range is
    tab, line feed, vertical tab, form feed, carriage return and space. *)
Definition js_ws (c : ascii) : bool :=
  let k := nat_of_ascii c in Nat.eqb k 32 || ((9 <=? k) && (k <=? 13)).

Fixpoint skip_ws (l : list ascii) : list ascii :=
  match l with
  | c :: r => if js_ws c then skip_ws r else l
  | [] => []
  end.

(** [s.trim()] *)
Definition trim (s : string) : string :=
  string_of_list_ascii (rev (skip_ws (rev (skip_ws (list_ascii_of_string s))))).

Fixpoint split_chars (sep : ascii) (l cur : list ascii) : list string :=
  match l with
  | [] => [string_of_list_ascii (rev cur)]
  | c :: r =>
      if Ascii.eqb c sep then string_of_list_ascii (rev cur) :: split_chars sep r []
      else split_chars sep r (c :: cur)
  end.

(** [s.split(sep)] for a one-character separator. *)
Definition split_char (sep : ascii) (s : string) : list string :=
  split_chars sep (list_ascii_of_string s) [].

Definition is_digit (c : ascii) : bool :=
  let k := nat_of_ascii c in (48 <=? k) && (k <=? 57).

Fixpoint take_digits (l : list ascii) : list nat * list ascii :=
  match l with
  | c :: r =>
      if is_digit c then let '(ds, rest) := take_digits r in ((nat_of_ascii c - 48) :: ds, rest)
      else ([], l)
  | [] => ([], [])
  end.

Definition digits_Z (ds : list nat) : Z :=
  fold_left (fun acc d => (acc * 10 + Z.of_nat d)%Z) ds 0%Z.

Definition pow10 (k : Z) : Qc :=
  if (0 <=? k)%Z then Q2Qc (inject_Z (10 ^ k)) else Q2Qc (1 # Z.to_pos (10 ^ (- k))).

(** The optional exponent [e] / [E], sign, digits; a marker without digits
    is not part of the parsed prefix. *)
Definition exponent_part (l : list ascii) : Z :=
  match l with
  | c :: r =>
      if Ascii.eqb c "e"%char || Ascii.eqb c "E"%char then
        let '(eneg, r1) :=
          match r with
          | d :: r' => if Ascii.eqb d "-"%char then (true, r')
                       else if Ascii.eqb d "+"%char then (false, r') else (false, r)
          | [] => (false, [])
          end in
        match take_digits r1 with
        | ([], _) => 0%Z
        | (eds, _) => if eneg then (- digits_Z eds)%Z else digits_Z eds
        end
      else 0%Z
  | [] => 0%Z
  end.

(** [parseFloat(s)]: leading white space, an optional sign, then
    [Infinity] or the longest prefix of the form [digits [. digits]
    [exponent]] with at least one digit; [NaN] when there is none. *)
Definition parseFloat (s : string) : jsnum :=
  let l := skip_ws (list_ascii_of_string s) in
  let '(neg, l1) :=
    match l with
    | c :: r => if Ascii.eqb c "-"%char then (true, r)
                else if Ascii.eqb c "+"%char then (false, r) else (false, l)
    | [] => (false, [])
    end in
  if String.prefix "Infinity" (string_of_list_ascii l1) then (if neg then JNegInf else JPosInf)
  else
    let '(ip, l2) := take_digits l1 in
    let '(fp, l3) :=
      match l2 with
      | c :: r => if Ascii.eqb c "."%char then take_digits r else ([], l2)
      | [] => ([], [])
      end in
    match ip, fp with
    | [], [] => JNaN
    | _, _ =>
        let m := digits_Z (ip ++ fp) in
        JNum (Q2Qc (inject_Z (if neg then - m else m)%Z)
              * pow10 (exponent_part l3 - Z.of_nat (length fp)))%Qc
    end.

(** The loop state of [parseCSV]: [dataStarted], [lineCount] and the three
    output arrays [t], [tenz], [interf]. *)
Record pstate : Type := mkPstate {
  dataStarted : bool;
  lineCount : nat;
  ps_t : list jsnum;
  ps_tenz : list jsnum;
  ps_interf : list jsnum
}.

Inductive loop_ctl : Type :=
| Continue (s : pstate)
| Break (s : pstate).

(** The body for an accepted count: split on [","], test the fields,
    push. *)
Definition push_fields (fields : list string) (s : pstate) : pstate :=
  if 5 <=? length fields then
    let t0 := parseFloat (nth 0 fields ""%string) in
    let ch1 := parseFloat (nth 1 fields ""%string) in
    let ch3 := parseFloat (nth 3 fields ""%string) in
    if negb (js_isNaN t0) && negb (js_isNaN ch1) && negb (js_isNaN ch3) then
      mkPstate (dataStarted s) (lineCount s)
        (ps_t s ++ [t0])
        (ps_tenz s ++ [js_mul_const (js_mul_const ch1 (Q2Qc (132 # 100000))) (Q2Qc (125 # 100))])
        (ps_interf s ++ [js_add_const ch3 (Q2Qc (4 # 100))])
    else s
  else s.

(** One iteration of [for (let i = 0; i < lines.length; i++)]. *)
Definition parse_step (skipStart skipEnd : Qc) (s : pstate) (raw : string) : loop_ctl :=
  let line := trim raw in
  if String.eqb line "" then Continue s
  else if String.prefix "TIME,CH1," line then
    Continue (mkPstate true (lineCount s) (ps_t s) (ps_tenz s) (ps_interf s))
  else if negb (dataStarted s) then Continue s
  else
    let s1 := mkPstate (dataStarted s) (S (lineCount s)) (ps_t s) (ps_tenz s) (ps_interf s) in
    if Qcltb (Qc_of_nat (lineCount s1)) skipStart then Continue s1
    else if Qcltb skipEnd (Qc_of_nat (lineCount s1)) then Break s1
    else Continue (push_fields (split_char ","%char line) s1).

Fixpoint parse_loop (skipStart skipEnd : Qc) (lines : list string) (s : pstate) : pstate :=
  match lines with
  | [] => s
  | raw :: rest =>
      match parse_step skipStart skipEnd s raw with
      | Continue s' => parse_loop skipStart skipEnd rest s'
      | Break s' => s'
      end
  end.

(** The arrays [t], [tenz], [interf] that [parseCSV(csvText, options)]
    builds from [options.skipStart] and [options.skipEnd] (the other
    options do not reach the loop). *)
Definition parseCSV_rows (csvText : string) (skipStartOpt skipEndOpt : option Qc)
  : list jsnum * list jsnum * list jsnum :=
  let skipStart := js_or_num skipStartOpt (Q2Qc 6650) in
  let skipEnd := js_or_num skipEndOpt (Q2Qc 27000) in
  let lines := split_char (ascii_of_nat 10) csvText in
  let s := parse_loop skipStart skipEnd lines (mkPstate false 0 [] [] []) in
  (ps_t s, ps_tenz s, ps_interf s).

(** What a counted data row contributes, as a list of [(t, tenz, interf)]
    entries: one when it has at least 5 fields and [parseFloat] of fields
    0, 1 and 3 is not [NaN], none otherwise. *)
Definition row_contribution (line : string) : list (jsnum * jsnum * jsnum) :=
  let fields := split_char ","%char line in
  let p0 := parseFloat (nth 0 fields ""%string) in
  let p1 := parseFloat (nth 1 fields ""%string) in
  let p3 := parseFloat (nth 3 fields ""%string) in
  if (5 <=? length fields) && negb (js_isNaN p0) && negb (js_isNaN p1) && negb (js_isNaN p3)
  then [(p0, js_mul_const (js_mul_const p1 (Q2Qc (132 # 100000))) (Q2Qc (125 # 100)),
         js_add_const p3 (Q2Qc (4 # 100)))]
  else [].

(** The line separator of [csvText.split("\n")]. *)
Definition nl : string := String (ascii_of_nat 10) EmptyString.

(** A line that the loop counts as a data row: not blank, not the header. *)
Definition data_line (raw : string) : Prop :=
  String.eqb (trim raw) "" = false /\ String.prefix "TIME,CH1," (trim raw) = false.

(* ------------------------------------------------------------------ *)
(** ** Intersections of the two channels ([findSignalIntersectionsAtZero]) *)

(** The sign-change test of the loop. *)
Definition sign_change (diffPrev diffCurr : Qc) : bool :=
  (Qcleb diffPrev 0 && Qcltb 0 diffCurr) || (Qcleb 0 diffPrev && Qcltb diffCurr 0).

(** [for (let i = 1; i < t.length; i++)] pushing [{time, value}]. *)
Definition findSignalIntersectionsAtZero (t tenz interf : list Qc) (yThreshold : Qc)
  : list (Qc * Qc) :=
  fold_left
    (fun intersections i =>
       let diffPrev := (nth (i - 1) tenz 0 - nth (i - 1) interf 0)%Qc in
       let diffCurr := (nth i tenz 0 - nth i interf 0)%Qc in
       if sign_change diffPrev diffCurr then
         let t1 := nth (i - 1) t 0%Qc in
         let t2 := nth i t 0%Qc in
         let ratio := (- diffPrev / (diffCurr - diffPrev))%Qc in
         let time := (t1 + ratio * (t2 - t1))%Qc in
         let value := ((nth (i - 1) tenz 0 + ratio * (nth i tenz 0 - nth (i - 1) tenz 0)
                        + nth (i - 1) interf 0 + ratio * (nth i interf 0 - nth (i - 1) interf 0))
                       / Q2Qc 2)%Qc in
         if Qcleb (Qcabs value) yThreshold then intersections ++ [(time, value)]
         else intersections
       else intersections)
    (seq 1 (length t - 1)) [].

(** Linear interpolation from [a] to [b] at the fraction [r]. *)
Definition lerp (a b r : Qc) : Qc := (a + r * (b - a))%Qc.

(** The intersections as the property describes them: at each adjacent pair
    [(i - 1, i)] whose difference [tenz - interf] changes sign, the fraction
    [r] where the interpolated difference vanishes, the interpolated time,
    and the mean of the two interpolated channels, kept when its magnitude
    is at most [yThreshold]. *)
Definition crossings_spec (t tenz interf : list Qc) (yThreshold : Qc) : list (Qc * Qc) :=
  flat_map
    (fun i =>
       let dPrev := (nth (i - 1) tenz 0 - nth (i - 1) interf 0)%Qc in
       let dCurr := (nth i tenz 0 - nth i interf 0)%Qc in
       if sign_change dPrev dCurr then
         let r := (- dPrev / (dCurr - dPrev))%Qc in
         let value := ((lerp (nth (i - 1) tenz 0) (nth i tenz 0) r
                        + lerp (nth (i - 1) interf 0) (nth i interf 0) r) / Q2Qc 2)%Qc in
         if Qcleb (Qcabs value) yThreshold
         then [(lerp (nth (i - 1) t 0%Qc) (nth i t 0%Qc) r, value)] else []
       else [])
    (seq 1 (length t - 1)).

(* ------------------------------------------------------------------ *)
(** ** Further definitions: matrices, polynomials, sequences *)

(** An [r x c] matrix: [r] rows of length [c]. *)
Definition shaped (r c : nat) (M : list (list Qc)) : Prop :=
  length M = r /\ forall i, (i < r)%nat -> length (nth i M []) = c.

(** The [n x n] identity, as rows [unit_row n i]. *)
Definition identity (n : nat) : list (list Qc) := map (unit_row n) (seq 0 n).

(** The linear combination [a * x + b * y] of two sequences, index by index. *)
Definition lincomb (a b : Qc) (l1 l2 : list Qc) : list Qc :=
  map (fun '(x, y) => (a * x + b * y)%Qc) (combine l1 l2).

(** [a_0 + a_1 j + ... + a_deg j^deg] at the integer [j]. *)
Definition poly_at (a : nat -> Qc) (deg : nat) (j : Z) : Qc :=
  sum (S deg) (fun q => (a q * Qcpower (Q2Qc (inject_Z j)) q)%Qc).

(** Strictly increasing sequences. *)
Fixpoint increasing (l : list Qc) : Prop :=
  match l with
  | a :: ((b :: _) as l') => (a < b)%Qc /\ increasing l'
  | _ => True
  end.

(** [l] is obtained from [l'] by deleting elements (order kept). *)
Inductive subseq {A : Type} : list A -> list A -> Prop :=
| subseq_nil : subseq [] []
| subseq_skip x l l' : subseq l l' -> subseq l (x :: l')
| subseq_keep x l l' : subseq l l' -> subseq (x :: l) (x :: l').

(** The [slopes] array of [findJumpByDerivative]. *)
Definition jump_slopes (t signal : list Qc) : list Qc :=
  map (fun i => let dt := Qcmax (nth i t 0 - nth (i - 1) t 0)%Qc eps12 in
                ((nth i signal 0 - nth (i - 1) signal 0) / dt)%Qc)
      (seq 1 (length signal - 1)).

(* ------------------------------------------------------------------ *)
(** ** Baseline removal and zero crossings *)

(** [removeBaseline(arr, N)] for a count [N] that is a non-negative
    integer: [count = Math.min(arr.length, N)], the mean of
    [arr.slice(0, count)] summed from [0], and every sample minus it.  With
    a zero count the mean is [0 / 0], [NaN], and so is every sample. *)
Definition removeBaseline (arr : list Qc) (N : nat) : list jsnum :=
  let count := Nat.min (length arr) N in
  if Nat.eqb count 0 then map (fun _ => JNaN) arr
  else
    let avg := (list_sum (firstn count arr) / Qc_of_nat count)%Qc in
    map (fun v => JNum (v - avg)%Qc) arr.

(** [findZeroCrossings(t, interf)]: for [i] from [1], when
    [interf[i - 1] * interf[i] < 0], push the zero of the chord,
    [x1 - y1 * (x2 - x1) / (y2 - y1)], to [t0] and [0] to [y0].  (The
    parameter [eps] is not used by the body.) *)
Definition findZeroCrossings (t interf : list Qc) : list Qc * list Qc :=
  fold_left
    (fun '(t0, y0) i =>
       let y1 := nth (i - 1) interf 0%Qc in
       let y2 := nth i interf 0%Qc in
       if Qcltb (y1 * y2) 0 then
         let x1 := nth (i - 1) t 0%Qc in
         let x2 := nth i t 0%Qc in
         (t0 ++ [(x1 - y1 * (x2 - x1) / (y2 - y1))%Qc], y0 ++ [0%Qc])
       else (t0, y0))
    (seq 1 (length interf - 1)) ([], []).

(* ------------------------------------------------------------------ *)
(** ** The local derivative of [parseCSV] *)

(** The test [t[i] >= tMin && t[i] <= tMax] for the window around [center]. *)
Definition in_deriv_window (derivWindowSec center ti : Qc) : bool :=
  Qcleb (center - derivWindowSec) ti && Qcleb ti (center + derivWindowSec).

(** [mask = new Array(t.length).fill(false)], then for every [k] and [i],
    [mask[i] = true] when [t[i]] is in the window around [filteredT0[k]]. *)
Definition deriv_mask (t filteredT0 : list Qc) (derivWindowSec : Qc) : list bool :=
  fold_left
    (fun mask k =>
       let center := nth k filteredT0 0%Qc in
       fold_left
         (fun mask i =>
            if in_deriv_window derivWindowSec center (nth i t 0%Qc)
            then set_nth mask i true else mask)
         (seq 0 (length t)) mask)
    (seq 0 (length filteredT0)) (repeat false (length t)).

(** The rest of the block, from the mask to [dudt_interf]
    ([derivWindowSec = derivativeWindowNs * 1e-9]): [idxMap] lists the
    masked indices in order, [tForDeriv] and [interfForDeriv] the samples
    there; [dudt_local] is [calculateDerivativeSG] of them when there are
    more than three, [[]] otherwise; [dudt_interf] starts as zeros and
    [dudt_interf[idxMap[k]] = dudt_local[k]].  [None] is [undefined], read
    past the end of [dudt_local]; an exception of [calculateDerivativeSG]
    escapes [parseCSV]. *)
Definition local_derivative (t interfCorrected filteredT0 : list Qc) (derivWindowSec : Qc)
    (sgWindow sgPoly : Q) : res (list (option Qc)) :=
  let mask := deriv_mask t filteredT0 derivWindowSec in
  let idxMap :=
    fold_left (fun idxMap i => if nth i mask false then idxMap ++ [i] else idxMap)
              (seq 0 (length t)) [] in
  let tForDeriv := map (fun i => nth i t 0%Qc) idxMap in
  let interfForDeriv := map (fun i => nth i interfCorrected 0%Qc) idxMap in
  dudt_local <- (if 3 <? length tForDeriv
                 then calculateDerivativeSG tForDeriv interfForDeriv sgWindow sgPoly
                 else Ok []) ;;
  Ok (fold_left (fun dudt k => set_nth dudt (nth k idxMap 0) (nth_error dudt_local k))
                (seq 0 (length idxMap)) (repeat (Some 0%Qc) (length t))).

(* ------------------------------------------------------------------ *)
(** ** Chart data ([generateChartData]) *)

(** [options.maxPoints || 2000] for a count. *)
Definition chart_maxPoints (o : option nat) : nat :=
  match o with Some (S k) => S k | _ => 2000 end.

(** The indices of [for (let i = 0; i < len; i += step)]; [step >= 1], so
    [len] iterations suffice ([fuel]). *)
Fixpoint stride_from (fuel i step len : nat) : list nat :=
  match fuel with
  | O => []
  | S f => if i <? len then i :: stride_from f (i + step) step len else []
  end.

(** The sample indices of the plotted series [lt], [lten], [lint], [lsm],
    [lder]: [step = Math.max(1, Math.floor(t.length / maxPoints))]. *)
Definition chart_indices (len : nat) (maxPointsOpt : option nat) : list nat :=
  let maxPoints := chart_maxPoints maxPointsOpt in
  let step := Nat.max 1 (len / maxPoints) in
  stride_from len 0 step len.

(** [while (idx < t.length - 1 && t[idx] < ptTime) idx++]; each step
    increases [idx] towards [t.length - 1], so [length t] steps suffice. *)
Fixpoint advance_idx (fuel : nat) (t : list Qc) (ptTime : Qc) (idx : nat) : nat :=
  match fuel with
  | O => idx
  | S f =>
      if (idx <? length t - 1) && Qcltb (nth idx t 0%Qc) ptTime
      then advance_idx f t ptTime (S idx) else idx
  end.

(** [dudt_interf[idx] ?? 0]: [undefined] entries ([None]) and reads past
    the end give [0]. *)
Definition read_dudt (dudt : list (option Qc)) (idx : nat) : Qc :=
  match nth_error dudt idx with Some (Some v) => v | _ => 0%Qc end.

(** The state of the loop over the intersection points. *)
Record vstate : Type := mkVstate {
  vs_idx : nat;
  vs_lastTime : Qc;
  vs_lastVel : Qc;
  vs_disp : Qc;
  vs_velocity : list (Qc * Qc);
  vs_displacement : list (Qc * Qc)
}.

(** Iteration [k]; an intersection point is [(time, value)]. *)
Definition velocity_step (t : list Qc) (dudt : list (option Qc)) (pts : list (Qc * Qc))
    (s : vstate) (k : nat) : vstate :=
  let ptTime := fst (nth k pts (0%Qc, 0%Qc)) in
  let idx := advance_idx (length t) t ptTime (vs_idx s) in
  let v := read_dudt dudt idx in
  let disp :=
    if 0 <? k then (vs_disp s + Q2Qc (1 # 2) * (v + vs_lastVel s) * (ptTime - vs_lastTime s))%Qc
    else vs_disp s in
  mkVstate idx ptTime v disp (vs_velocity s ++ [(ptTime, v)])
           (vs_displacement s ++ [(ptTime, disp)]).

(** [velocitySeries] and [displacementSeries] of [generateChartData]. *)
Definition velocity_displacement (t : list Qc) (dudt : list (option Qc))
    (pts : list (Qc * Qc)) : list (Qc * Qc) * list (Qc * Qc) :=
  match pts with
  | [] => ([], [])
  | p0 :: _ =>
      let s := fold_left (velocity_step t dudt pts) (seq 0 (length pts))
                         (mkVstate 0 (fst p0) 0%Qc 0%Qc [] []) in
      (vs_velocity s, vs_displacement s)
  end.

(** The first index [i < t.length - 1] with [ptTime <= t[i]], and
    [t.length - 1] when there is none. *)
Definition sample_at_or_after (t : list Qc) (ptTime : Qc) : nat :=
  match find (fun i => Qcleb ptTime (nth i t 0%Qc)) (seq 0 (length t - 1)) with
  | Some i => i
  | None => length t - 1
  end.

(** The cumulative trapezoid rule over [(time, v)] points, from [0]. *)
Fixpoint trapezoid_from (prev : Qc * Qc) (acc : Qc) (l : list (Qc * Qc)) : list (Qc * Qc) :=
  match l with
  | [] => []
  | (tm, v) :: l' =>
      let acc' := (acc + Q2Qc (1 # 2) * (v + snd prev) * (tm - fst prev))%Qc in
      (tm, acc') :: trapezoid_from (tm, v) acc' l'
  end.

Definition trapezoid (l : list (Qc * Qc)) : list (Qc * Qc) :=
  match l with
  | [] => []
  | (tm, v) :: l' => (tm, 0%Qc) :: trapezoid_from (tm, v) 0%Qc l'
  end.

(* ================================================================== *)
(** * Lemmas *)

Open Scope Qc_scope.

Lemma sum_S n f : sum (S n) f = sum n f + f n.
Proof. unfold sum. rewrite seq_S, fold_left_app. reflexivity. Qed.

Lemma sum_O f : sum 0 f = 0.
Proof. reflexivity. Qed.

Lemma sum_ext n f g : (forall k, (k < n)%nat -> f k = g k) -> sum n f = sum n g.
Proof.
  induction n as [|n IH]; intros H; [reflexivity|].
  rewrite !sum_S, IH by (intros; apply H; lia). rewrite H by lia. reflexivity.
Qed.

Lemma sum_add n f g : sum n (fun k => f k + g k) = sum n f + sum n g.
Proof. induction n as [|n IH]; [reflexivity|]. rewrite !sum_S, IH. ring. Qed.

Lemma sum_sub n f g : sum n (fun k => f k - g k) = sum n f - sum n g.
Proof. induction n as [|n IH]; [reflexivity|]. rewrite !sum_S, IH. ring. Qed.

Lemma sum_scale n c f : sum n (fun k => c * f k) = c * sum n f.
Proof.
  induction n as [|n IH].
  - rewrite !sum_O. ring.
  - rewrite !sum_S, IH. ring.
Qed.

Lemma sum_swap n m f :
  sum n (fun i => sum m (fun j => f i j)) = sum m (fun j => sum n (fun i => f i j)).
Proof.
  induction n as [|n IH].
  - rewrite sum_O. symmetry. induction m as [|m IHm]; [reflexivity|].
    rewrite sum_S, IHm, sum_O. ring.
  - rewrite sum_S, IH, <- sum_add. apply sum_ext. intros. rewrite sum_S. reflexivity.
Qed.

Lemma sum_zero n : sum n (fun _ => 0) = 0.
Proof. induction n as [|n IH]; [reflexivity|]. rewrite sum_S, IH. ring. Qed.

Lemma sum_unit n i g : (i < n)%nat ->
  sum n (fun k => (if Nat.eqb i k then 1 else 0) * g k) = g i.
Proof.
  induction n as [|n IH]; intros Hi; [lia|].
  rewrite sum_S. destruct (Nat.eq_dec i n) as [->|Hne].
  - rewrite Nat.eqb_refl.
    rewrite (sum_ext n _ (fun _ => 0)).
    + rewrite sum_zero. ring.
    + intros k Hk. destruct (Nat.eqb_spec n k); [lia|]. ring.
  - rewrite IH by lia. apply Nat.eqb_neq in Hne. rewrite Hne. ring.
Qed.

Lemma nth_map_seq {T} (f : nat -> T) len j d : (j < len)%nat ->
  nth j (map f (seq 0 len)) d = f j.
Proof.
  intros Hj. rewrite nth_indep with (d' := f 0%nat) by (rewrite length_map, length_seq; lia).
  rewrite map_nth, seq_nth by lia. reflexivity.
Qed.

Lemma length_set_nth {T} (l : list T) i x : length (set_nth l i x) = length l.
Proof.
  revert i. induction l as [|y l IH]; intros [|i]; simpl; auto.
Qed.

Lemma nth_set_nth_eq {T} (l : list T) i x d : (i < length l)%nat ->
  nth i (set_nth l i x) d = x.
Proof.
  revert i. induction l as [|y l IH]; intros [|i] Hi; simpl in *; try lia; auto.
  apply IH. lia.
Qed.

Lemma nth_set_nth_neq {T} (l : list T) i j x d : i <> j ->
  nth j (set_nth l i x) d = nth j l d.
Proof.
  revert i j. induction l as [|y l IH]; intros [|i] [|j] Hij; simpl; auto; try lia.
  all: apply IH; lia.
Qed.

Lemma nth_skipn_add {T} (l : list T) n k d : nth k (skipn n l) d = nth (n + k) l d.
Proof.
  revert l. induction n as [|n IH]; intros l; [reflexivity|].
  destruct l as [|y l]; simpl.
  - destruct k; reflexivity.
  - apply IH.
Qed.

(** *** Row operations preserve [row_inv] *)

Lemma row_inv_scale n M r d :
  row_inv n M r ->
  row_inv n M (map (fun j => nth j r 0 / d) (seq 0 (2 * n))).
Proof.
  unfold row_inv. intros H c Hc.
  rewrite (nth_map_seq _ _ c) by lia.
  rewrite (sum_ext n _ (fun k => / d * (nth (n + k) r 0 * getM M k c))).
  - rewrite sum_scale, H by assumption. unfold Qcdiv. ring.
  - intros k Hk. rewrite nth_map_seq by lia. unfold Qcdiv. ring.
Qed.

Lemma row_inv_sub n M rk ri f :
  row_inv n M rk -> row_inv n M ri ->
  row_inv n M (map (fun j => nth j rk 0 - f * nth j ri 0) (seq 0 (2 * n))).
Proof.
  unfold row_inv. intros Hk Hi c Hc.
  rewrite (nth_map_seq _ _ c) by lia.
  rewrite (sum_ext n _ (fun k => nth (n + k) rk 0 * getM M k c
                               - f * (nth (n + k) ri 0 * getM M k c))).
  - rewrite sum_sub, sum_scale, Hk, Hi by assumption. reflexivity.
  - intros k Hk'. rewrite nth_map_seq by lia. ring.
Qed.

(** *** The elimination loop *)

Lemma eliminate_prefix n i A m :
  (m <= n)%nat -> length A = n ->
  let B := fold_left (fun A k =>
               if Nat.eqb k i then A else
               let factor := getM A k i in
               set_nth A k (map (fun j => (getM A k j - factor * getM A i j)%Qc) (seq 0 (2 * n))))
            (seq 0 m) A in
  length B = n /\
  forall k, nth k B [] = if (k <? m) && negb (Nat.eqb k i) then elim_row n i A k else nth k A [].
Proof.
  intros Hm HA. induction m as [|m IH]; cbv zeta.
  - split; [exact HA|]. intros k. reflexivity.
  - rewrite seq_S, fold_left_app. cbn [fold_left].
    specialize (IH ltac:(lia)). cbv zeta in IH. destruct IH as [HlenB HB].
    set (B := fold_left _ (seq 0 m) A) in *.
    change (0 + m)%nat with m.
    destruct (Nat.eqb_spec m i) as [->|Hmi].
    + split; [assumption|]. intros k. rewrite HB.
      destruct (Nat.eqb_spec k i) as [->|Hki]; simpl.
      * rewrite !andb_false_r. reflexivity.
      * rewrite !andb_true_r. destruct (Nat.ltb_spec k i), (Nat.ltb_spec k (S i)); auto; lia.
    + split; [rewrite length_set_nth; assumption|]. intros k.
      destruct (Nat.eq_dec k m) as [->|Hkm].
      * rewrite nth_set_nth_eq by lia.
        apply Nat.eqb_neq in Hmi. rewrite Hmi. simpl.
        rewrite (proj2 (Nat.ltb_lt m (S m))) by lia. simpl.
        unfold elim_row, getM. rewrite !HB.
        rewrite Nat.ltb_irrefl, Hmi. simpl.
        destruct (i <? m) eqn:E; simpl; [rewrite Nat.eqb_refl; simpl|]; reflexivity.
      * rewrite nth_set_nth_neq by lia. rewrite HB.
        destruct (Nat.ltb_spec k m), (Nat.ltb_spec k (S m)); auto; lia.
Qed.

Lemma eliminate_spec n i A :
  length A = n ->
  length (eliminate n i A) = n /\
  forall k, nth k (eliminate n i A) [] =
            if (k <? n) && negb (Nat.eqb k i) then elim_row n i A k else nth k A [].
Proof. intros HA. apply (eliminate_prefix n i A n); [lia|assumption]. Qed.

(** *** The pivot search *)

Lemma fold_max_row_range A n i l acc :
  (i <= acc < n)%nat -> (forall k, In k l -> (i <= k < n)%nat) ->
  (i <= fold_left (fun maxRow k =>
          if Qcltb (Qcabs (getM A maxRow i)) (Qcabs (getM A k i)) then k else maxRow)
        l acc < n)%nat.
Proof.
  revert acc. induction l as [|k l IH]; intros acc Hacc Hl; simpl; [assumption|].
  apply IH.
  - destruct (Qcltb _ _); [apply Hl; left; reflexivity|assumption].
  - intros k' Hk'. apply Hl. right. assumption.
Qed.

Lemma find_max_row_range A n i : (i < n)%nat -> (i <= find_max_row A n i < n)%nat.
Proof.
  intros Hi. apply fold_max_row_range; [lia|].
  intros k Hk. apply in_seq in Hk. lia.
Qed.

Lemma pivot_nonzero x : Qcltb (Qcabs x) eps15 = false -> x <> 0.
Proof. intros H E. subst x. vm_compute in H. discriminate. Qed.

(** *** One iteration of the outer loop *)

Lemma swap_rows_inv n i mr M A :
  (i <= mr < n)%nat -> gj_inv n i M A ->
  gj_inv n i M (if Nat.eqb mr i then A else swap_rows A i mr) /\
  nth i (if Nat.eqb mr i then A else swap_rows A i mr) [] = nth mr A [].
Proof.
  intros Hmr HI. destruct (Nat.eqb_spec mr i) as [->|Hne]; [split; auto|].
  destruct HI as [HlenA [Hrows [Hrinv Hcol]]].
  unfold swap_rows.
  set (A1 := set_nth (set_nth A i (nth mr A [])) mr (nth i A [])).
  assert (Hlen1 : length A1 = n) by (unfold A1; rewrite !length_set_nth; assumption).
  assert (Hi1 : nth i A1 [] = nth mr A []).
  { unfold A1. rewrite nth_set_nth_neq by lia. apply nth_set_nth_eq. lia. }
  assert (Hr1 : forall r, (r < n)%nat -> exists r0, (r0 < n)%nat /\ nth r A1 [] = nth r0 A [] /\
                  ((r < i)%nat -> r0 = r) /\ ((i <= r)%nat -> (i <= r0)%nat)).
  { intros r Hr. unfold A1.
    destruct (Nat.eq_dec r mr) as [->|Hrm].
    - exists i. rewrite nth_set_nth_eq by (rewrite length_set_nth; lia).
      repeat split; try lia.
    - rewrite nth_set_nth_neq by lia.
      destruct (Nat.eq_dec r i) as [->|Hri].
      + exists mr. rewrite nth_set_nth_eq by lia. repeat split; lia.
      + exists r. rewrite nth_set_nth_neq by lia. repeat split; lia. }
  split; [|exact Hi1].
  split; [exact Hlen1|]. split; [|split].
  - intros r Hr. destruct (Hr1 r Hr) as [r0 [Hr0 [-> _]]]. apply Hrows. assumption.
  - intros r Hr. destruct (Hr1 r Hr) as [r0 [Hr0 [-> _]]]. apply Hrinv. assumption.
  - intros r c Hr Hc. destruct (Hr1 r Hr) as [r0 [Hr0 [Heq [Hlt Hge]]]].
    unfold getM. rewrite Heq. fold (getM A r0 c). rewrite Hcol by assumption.
    destruct (Nat.lt_ge_cases r i) as [Hri|Hri].
    + rewrite Hlt by assumption. reflexivity.
    + specialize (Hge Hri).
      destruct (Nat.eqb_spec r0 c), (Nat.eqb_spec r c); try reflexivity; lia.
Qed.

Lemma gj_step_inv n i M A A' :
  (i < n)%nat -> gj_inv n i M A -> gj_step n i A = Ok A' -> gj_inv n (S i) M A'.
Proof.
  intros Hi HI Hstep. unfold gj_step in Hstep.
  pose proof (find_max_row_range A n i Hi) as Hmr.
  set (mr := find_max_row A n i) in *.
  destruct (Qcltb (Qcabs (getM A mr i)) eps15) eqn:Hpiv; [discriminate|].
  apply pivot_nonzero in Hpiv.
  injection Hstep as <-.
  destruct (swap_rows_inv n i mr M A Hmr HI) as [HI1 Hi1].
  set (A1 := if Nat.eqb mr i then A else swap_rows A i mr) in *.
  destruct HI1 as [Hlen1 [Hrows1 [Hrinv1 Hcol1]]].
  set (diag := getM A1 i i).
  assert (Hdiag : diag <> 0) by (unfold diag, getM; rewrite Hi1; exact Hpiv).
  set (A2 := set_nth A1 i (map (fun j => getM A1 i j / diag) (seq 0 (2 * n)))).
  assert (Hlen2 : length A2 = n) by (unfold A2; rewrite length_set_nth; assumption).
  assert (HA2 : forall r, nth r A2 [] =
             if Nat.eqb r i then map (fun j => getM A1 i j / diag) (seq 0 (2 * n))
             else nth r A1 []).
  { intros r. unfold A2. destruct (Nat.eqb_spec r i) as [->|Hri].
    - apply nth_set_nth_eq. lia.
    - apply nth_set_nth_neq. lia. }
  assert (Hrinv2 : forall r, (r < n)%nat -> row_inv n M (nth r A2 [])).
  { intros r Hr. rewrite HA2. destruct (Nat.eqb r i).
    - apply row_inv_scale. apply Hrinv1. assumption.
    - apply Hrinv1. assumption. }
  assert (Hget2i : forall c, (c < 2 * n)%nat -> getM A2 i c = getM A1 i c / diag).
  { intros c Hc. unfold getM at 1. rewrite HA2, Nat.eqb_refl, nth_map_seq by assumption.
    reflexivity. }
  assert (Hget2r : forall r c, r <> i -> getM A2 r c = getM A1 r c).
  { intros r c Hri. unfold getM at 1. rewrite HA2. apply Nat.eqb_neq in Hri.
    rewrite Hri. reflexivity. }
  destruct (eliminate_spec n i A2 Hlen2) as [Hlen3 HA3].
  split; [exact Hlen3|]. split; [|split].
  - intros r Hr. rewrite HA3. destruct ((r <? n) && negb (Nat.eqb r i)).
    + unfold elim_row. rewrite length_map, length_seq. reflexivity.
    + rewrite HA2. destruct (Nat.eqb r i).
      * rewrite length_map, length_seq. reflexivity.
      * apply Hrows1. assumption.
  - intros r Hr. rewrite HA3. destruct ((r <? n) && negb (Nat.eqb r i)).
    + unfold elim_row. apply row_inv_sub; apply Hrinv2; assumption.
    + apply Hrinv2. assumption.
  - intros r c Hr Hc. unfold getM at 1. rewrite HA3.
    apply Nat.ltb_lt in Hr as Hrb. rewrite Hrb. simpl.
    destruct (Nat.eqb_spec r i) as [->|Hri]; simpl.
    + fold (getM A2 i c). rewrite Hget2i by lia.
      destruct (Nat.eq_dec c i) as [->|Hci].
      * rewrite Nat.eqb_refl. unfold diag. field. exact Hdiag.
      * rewrite Hcol1 by lia. destruct (Nat.eqb_spec i c); [lia|].
        unfold Qcdiv. ring.
    + unfold elim_row. rewrite nth_map_seq by lia.
      rewrite Hget2i by lia. rewrite !Hget2r by assumption.
      destruct (Nat.eq_dec c i) as [->|Hci].
      * apply Nat.eqb_neq in Hri. rewrite Hri. unfold diag. field. exact Hdiag.
      * rewrite (Hcol1 i c) by lia. rewrite (Hcol1 r c) by lia.
        destruct (Nat.eqb_spec i c); [lia|]. unfold Qcdiv. ring.
Qed.

Lemma gj_from_inv n i fuel M A A' :
  (i + fuel = n)%nat -> gj_inv n i M A -> gj_from n i fuel A = Ok A' -> gj_inv n n M A'.
Proof.
  revert i A. induction fuel as [|fuel IH]; intros i A Hif HI Hrun; simpl in Hrun.
  - injection Hrun as <-. rewrite Nat.add_0_r in Hif. subst i. assumption.
  - destruct (gj_step n i A) as [A1|e] eqn:Hs; simpl in Hrun; [|discriminate].
    apply (IH (S i) A1); [lia| |assumption].
    apply (gj_step_inv n i M A); [lia|assumption|assumption].
Qed.

Lemma length_augment_from n i m : length (augment_from n i m) = length m.
Proof. revert i. induction m as [|row m IH]; intros i; simpl; auto. Qed.

Lemma nth_augment_from n i m r : (r < length m)%nat ->
  nth r (augment_from n i m) [] = nth r m [] ++ unit_row n (i + r).
Proof.
  revert i r. induction m as [|row m IH]; intros i r Hr; simpl in *; [lia|].
  destruct r as [|r]; [rewrite Nat.add_0_r; reflexivity|].
  rewrite IH by lia. f_equal. f_equal. lia.
Qed.

Lemma gj_inv_init n M : square n M -> gj_inv n 0 M (augment_from n 0 M).
Proof.
  intros [HlenM HrowM].
  split; [rewrite length_augment_from; assumption|]. split; [|split].
  - intros r Hr. rewrite nth_augment_from by lia. rewrite length_app, HrowM by assumption.
    unfold unit_row. rewrite length_map, length_seq. lia.
  - intros r Hr c Hc. rewrite nth_augment_from by lia. simpl.
    rewrite app_nth1 by (rewrite HrowM; lia).
    rewrite (sum_ext n _ (fun k => (if Nat.eqb r k then 1 else 0) * getM M k c)).
    + rewrite sum_unit by assumption. reflexivity.
    + intros k Hk. rewrite app_nth2 by (rewrite HrowM; lia).
      rewrite HrowM by assumption. replace (n + k - n)%nat with k by lia.
      unfold unit_row. rewrite nth_map_seq by assumption. reflexivity.
  - intros r c _ Hc. lia.
Qed.

(** [invertMatrix] returns a left inverse whenever it does not throw:
    [sum_k R[r][k] * M[k][c]] is [1] on the diagonal and [0] elsewhere. *)
Lemma invertMatrix_left_inverse n M R :
  square n M -> invertMatrix M = Ok R ->
  length R = n /\
  (forall r, (r < n)%nat -> length (nth r R []) = n) /\
  (forall r c, (r < n)%nat -> (c < n)%nat ->
     sum n (fun k => getM R r k * getM M k c) = if Nat.eqb r c then 1 else 0).
Proof.
  intros Hsq Hinv. unfold invertMatrix in Hinv.
  destruct Hsq as [HlenM HrowM] eqn:Hsq'. rewrite HlenM in Hinv.
  destruct (gj_from n 0 n (augment_from n 0 M)) as [A|e] eqn:Hrun; simpl in Hinv;
    [|discriminate].
  injection Hinv as <-.
  destruct (gj_from_inv n 0 n M _ A eq_refl (gj_inv_init n M Hsq) Hrun)
    as [HlenA [HrowsA [HrinvA HcolA]]].
  assert (HR : forall r, nth r (map (fun row => skipn n row) A) [] = skipn n (nth r A [])).
  { intros r. rewrite <- (map_nth (fun row => skipn n row) A [] r).
    destruct n; reflexivity. }
  split; [rewrite length_map; assumption|]. split.
  - intros r Hr. rewrite HR, length_skipn, HrowsA by assumption. lia.
  - intros r c Hr Hc. transitivity (nth c (nth r A []) 0); [|apply HcolA; assumption].
    rewrite <- (HrinvA r Hr c Hc). apply sum_ext. intros k Hk.
    unfold getM at 1. rewrite HR, nth_skipn_add. reflexivity.
Qed.

(** *** Shapes of the matrices built by the kernel *)

Lemma nth_map' {A B} (f : A -> B) l m d d' : f d = d' -> nth m (map f l) d' = f (nth m l d).
Proof. intros <-. apply map_nth. Qed.

Lemma transpose_ok A :
  A <> [] ->
  transpose A = Ok (map (fun i => map (fun row => nth i row 0) A) (seq 0 (length (nth 0 A [])))).
Proof. destruct A; [contradiction|reflexivity]. Qed.

Lemma getM_transpose A k m :
  (k < length (nth 0 A []))%nat ->
  getM (map (fun i => map (fun row => nth i row 0) A) (seq 0 (length (nth 0 A [])))) k m
  = getM A m k.
Proof.
  intros Hk. unfold getM. rewrite nth_map_seq by assumption.
  rewrite (nth_map' _ _ _ []) by (destruct k; reflexivity). reflexivity.
Qed.

Lemma multiplyMatrices_ok A B ra ca cb :
  length A = ra -> (0 < ra)%nat -> length (nth 0 A []) = ca ->
  length B = ca -> (0 < ca)%nat -> length (nth 0 B []) = cb ->
  multiplyMatrices A B =
  Ok (map (fun i => map (fun j => sum ca (fun k => getM A i k * getM B k j)) (seq 0 cb))
          (seq 0 ra)).
Proof.
  intros HA Hra HA0 HB Hca HB0.
  destruct A as [|a0 A']; [simpl in HA; lia|].
  destruct B as [|b0 B']; [simpl in HB; lia|].
  simpl in HA0, HB0. unfold multiplyMatrices.
  rewrite HA0, HB0, HB, HA, Nat.ltb_irrefl. reflexivity.
Qed.

Lemma getM_product (A B : list (list Qc)) ra ca cb i j :
  (i < ra)%nat -> (j < cb)%nat ->
  getM (map (fun i => map (fun j => sum ca (fun k => getM A i k * getM B k j)) (seq 0 cb))
            (seq 0 ra)) i j = sum ca (fun k => getM A i k * getM B k j).
Proof. intros Hi Hj. unfold getM at 1. rewrite !nth_map_seq by assumption. reflexivity. Qed.

Lemma length_product (A B : list (list Qc)) ra ca cb :
  length (map (fun i => map (fun j => sum ca (fun k => getM A i k * getM B k j)) (seq 0 cb))
              (seq 0 ra)) = ra /\
  forall i, (i < ra)%nat ->
    length (nth i (map (fun i => map (fun j => sum ca (fun k => getM A i k * getM B k j))
                                     (seq 0 cb)) (seq 0 ra)) []) = cb.
Proof.
  split; [rewrite length_map, length_seq; reflexivity|].
  intros i Hi. rewrite nth_map_seq by assumption. rewrite length_map, length_seq. reflexivity.
Qed.

Lemma length_design_matrix half p :
  length (design_matrix half p) = Z.to_nat (2 * half + 1).
Proof. unfold design_matrix, offsets. rewrite !length_map, length_seq. reflexivity. Qed.

Lemma nth_design_matrix half p m :
  (m < Z.to_nat (2 * half + 1))%nat ->
  nth m (design_matrix half p) [] =
  map (fun k => Qcpower (Q2Qc (inject_Z (- half + Z.of_nat m))) k) (seq 0 (Z.to_nat (p + 1))).
Proof.
  intros Hm. unfold design_matrix, offsets. rewrite map_map.
  rewrite nth_map_seq by assumption. reflexivity.
Qed.

Lemma getM_design_matrix_col0 half p m :
  (m < Z.to_nat (2 * half + 1))%nat -> (0 <= p)%Z ->
  getM (design_matrix half p) m 0 = 1.
Proof.
  intros Hm Hp. unfold getM. rewrite nth_design_matrix by assumption.
  rewrite nth_map_seq by lia. reflexivity.
Qed.

Lemma length_design_row half p m :
  (m < Z.to_nat (2 * half + 1))%nat ->
  length (nth m (design_matrix half p) []) = Z.to_nat (p + 1).
Proof.
  intros Hm. rewrite nth_design_matrix by assumption. rewrite length_map, length_seq. reflexivity.
Qed.

Lemma sg_normalize_spec ws po :
  let '(w, p) := sg_normalize ws po in
  (3 <= w)%Z /\ (2 * (w / 2) + 1 = w)%Z /\ (1 <= p < w)%Z.
Proof.
  unfold sg_normalize.
  assert (Hw0 : (3 <= Z.max 3 (Qfloor ws))%Z) by lia.
  assert (Hp0 : (1 <= Z.max 1 (Qfloor po))%Z) by lia.
  revert Hw0 Hp0. generalize (Z.max 3 (Qfloor ws)) (Z.max 1 (Qfloor po)).
  intros w0 p0 Hw0 Hp0.
  rewrite Z.rem_mod_nonneg by lia.
  pose proof (Z.div_mod w0 2 ltac:(lia)). pose proof (Z.mod_pos_bound w0 2 ltac:(lia)).
  pose proof (Z.div_mod (w0 + 1) 2 ltac:(lia)).
  pose proof (Z.mod_pos_bound (w0 + 1) 2 ltac:(lia)).
  destruct (Z.eqb_spec (w0 mod 2) 0) as [Hev|Hodd].
  - destruct (Z.leb_spec (w0 + 1) p0); (split; [lia|split; [|lia]]); lia.
  - destruct (Z.leb_spec w0 p0); (split; [lia|split; [|lia]]); lia.
Qed.

Lemma sg_kernel_shape ws po w p :
  sg_normalize ws po = (w, p) ->
  let A := design_matrix (w / 2) p in
  exists AT ATA,
    transpose A = Ok AT /\ multiplyMatrices AT A = Ok ATA /\
    Z.to_nat (2 * (w / 2) + 1) = Z.to_nat w /\ (3 <= Z.to_nat w)%nat /\
    (2 <= Z.to_nat (p + 1))%nat /\
    length AT = Z.to_nat (p + 1) /\
    (forall k, (k < Z.to_nat (p + 1))%nat -> length (nth k AT []) = Z.to_nat w) /\
    (forall k m, (k < Z.to_nat (p + 1))%nat -> getM AT k m = getM A m k) /\
    (forall m, (m < Z.to_nat w)%nat -> getM A m 0 = 1) /\
    square (Z.to_nat (p + 1)) ATA /\
    (forall k c, (k < Z.to_nat (p + 1))%nat -> (c < Z.to_nat (p + 1))%nat ->
       getM ATA k c = sum (Z.to_nat w) (fun m => getM AT k m * getM A m c)).
Proof.
  intros Hn A. pose proof (sg_normalize_spec ws po) as Hs. rewrite Hn in Hs.
  destruct Hs as [Hw3 [Hodd Hp]].
  set (W := Z.to_nat w). set (q := Z.to_nat (p + 1)).
  assert (HW : Z.to_nat (2 * (w / 2) + 1) = W) by (unfold W; rewrite Hodd; reflexivity).
  assert (HlenA : length A = W) by (unfold A; rewrite length_design_matrix; exact HW).
  assert (HA0 : length (nth 0 A []) = q).
  { unfold A, q. apply length_design_row. rewrite HW. unfold W. lia. }
  assert (HAne : A <> []) by (intros E; rewrite E in HlenA; simpl in HlenA; unfold W in HlenA; lia).
  set (AT := map (fun i => map (fun row => nth i row 0) A) (seq 0 (length (nth 0 A [])))).
  assert (HlenAT : length AT = q) by (unfold AT; rewrite length_map, length_seq; exact HA0).
  assert (HrowAT : forall k, (k < q)%nat -> length (nth k AT []) = W).
  { intros k Hk. unfold AT. rewrite nth_map_seq by lia. rewrite length_map. exact HlenA. }
  assert (HgetAT : forall k m, (k < q)%nat -> getM AT k m = getM A m k).
  { intros k m Hk. unfold AT. apply getM_transpose. lia. }
  assert (Hq : (2 <= q)%nat) by (unfold q; lia).
  exists AT.
  exists (map (fun i => map (fun j => sum W (fun k => getM AT i k * getM A k j)) (seq 0 q))
              (seq 0 q)).
  split; [apply transpose_ok; exact HAne|].
  split.
  { apply multiplyMatrices_ok; try assumption; try lia.
    rewrite HrowAT by lia. reflexivity. }
  split; [exact HW|]. split; [unfold W; lia|]. split; [exact Hq|].
  split; [exact HlenAT|]. split; [exact HrowAT|]. split; [exact HgetAT|].
  split.
  { intros m Hm. unfold A. apply getM_design_matrix_col0; [rewrite HW; exact Hm|lia]. }
  split.
  - destruct (length_product AT A q W q) as [H1 H2]. split; assumption.
  - intros k c Hk Hc. apply getM_product; assumption.
Qed.

Lemma kernel_coeffs_sum_one q W (A AT ATA R : list (list Qc)) :
  (0 < q)%nat -> length AT = q ->
  (forall k, (k < q)%nat -> length (nth k AT []) = W) ->
  (forall k m, (k < q)%nat -> getM AT k m = getM A m k) ->
  (forall m, (m < W)%nat -> getM A m 0 = 1) ->
  square q ATA ->
  (forall k c, (k < q)%nat -> (c < q)%nat ->
     getM ATA k c = sum W (fun m => getM AT k m * getM A m c)) ->
  invertMatrix ATA = Ok R ->
  exists P, multiplyMatrices R AT = Ok P /\ length (nth 0 P []) = W /\
            sum W (fun m => nth m (nth 0 P []) 0) = 1.
Proof.
  intros Hq HlenAT HrowAT HgetAT Hcol0 Hsq HATA Hinv.
  destruct (invertMatrix_left_inverse q ATA R Hsq Hinv) as [HlenR [HrowR HRM]].
  eexists. split.
  { apply (multiplyMatrices_ok R AT q q W); try assumption.
    - apply HrowR. assumption.
    - apply HrowAT. assumption. }
  rewrite nth_map_seq by assumption. split; [rewrite length_map, length_seq; reflexivity|].
  rewrite (sum_ext W _ (fun m => sum q (fun k => getM R 0 k * getM AT k m)))
    by (intros m Hm; rewrite nth_map_seq by assumption; reflexivity).
  rewrite sum_swap.
  rewrite (sum_ext q _ (fun k => getM R 0 k * getM ATA k 0)).
  - rewrite HRM by assumption. reflexivity.
  - intros k Hk. rewrite HATA by assumption. rewrite <- sum_scale. apply sum_ext.
    intros m Hm. rewrite Hcol0 by assumption. ring.
Qed.

Lemma clamp_idx_lt n idx : (0 < n)%nat -> (clamp_idx n idx < n)%nat.
Proof.
  intros Hn. unfold clamp_idx.
  destruct (Z.ltb_spec idx 0);
    [destruct (Z.leb_spec (Z.of_nat n) 0)|destruct (Z.leb_spec (Z.of_nat n) idx)]; lia.
Qed.

Lemma nth_repeat_lt {T} (x d : T) n k : (k < n)%nat -> nth k (repeat x n) d = x.
Proof.
  revert k. induction n as [|n IH]; intros [|k] Hk; simpl; try lia; auto.
  apply IH. lia.
Qed.

Lemma map_const_seq {T} (x : T) n : map (fun _ => x) (seq 0 n) = repeat x n.
Proof.
  generalize 0%nat. induction n as [|n IH]; intros s; simpl; [reflexivity|].
  rewrite IH. reflexivity.
Qed.

Lemma convolve_const c n coeffs half W :
  (0 < n)%nat -> Z.to_nat (2 * half + 1) = W ->
  sum W (fun m => nth m coeffs 0) = 1 ->
  convolve (repeat c n) coeffs half = repeat c n.
Proof.
  intros Hn HW Hsum. unfold convolve. rewrite repeat_length, HW.
  transitivity (map (fun _ : nat => c) (seq 0 n)); [|apply map_const_seq].
  apply map_ext. intros i.
  rewrite (sum_ext W _ (fun m => c * nth m coeffs 0)).
  - rewrite sum_scale, Hsum. ring.
  - intros m Hm. cbv beta. rewrite nth_repeat_lt by (apply clamp_idx_lt; assumption).
    reflexivity.
Qed.

Lemma sum_shift n f : sum (S n) f = f 0%nat + sum n (fun m => f (S m)).
Proof.
  induction n as [|n IH].
  - rewrite sum_S, !sum_O. ring.
  - rewrite sum_S, IH, sum_S. ring.
Qed.

Lemma fold_left_plus_nth l a :
  fold_left Qcplus l a = a + sum (length l) (fun m => nth m l 0).
Proof.
  revert a. induction l as [|x l IH]; intros a; simpl.
  - rewrite sum_O. ring.
  - rewrite IH, sum_shift. simpl. ring.
Qed.

(** ** Claim C1 *)

(** C1: for every [windowSize] and [polyOrder] (normalised so that
    [polyOrder < windowSize]), the smoothing coefficient vector derived by
    the kernel sums to 1, and [savitzkyGolay] maps a constant sequence of
    any length and any value to the same constant sequence (also at the
    clamped edges, and also when the kernel falls back). *)
Theorem sg_reproduces_constants (windowSize polyOrder : Q) :
  (forall coeffs, sg_coeffs windowSize polyOrder = Ok coeffs -> list_sum coeffs = 1) /\
  (forall (c : Qc) (n : nat),
     savitzkyGolay (repeat c n) windowSize polyOrder = Ok (repeat c n)).
Proof.
  destruct (sg_normalize windowSize polyOrder) as [w p] eqn:Hn.
  destruct (sg_kernel_shape windowSize polyOrder w p Hn)
    as [AT [ATA [HT [HM [HW [HW3 [Hq [HlenAT [HrowAT [HgetAT [Hcol0 [Hsq HATA]]]]]]]]]]]].
  split.
  - intros coeffs Hc. unfold sg_coeffs in Hc. rewrite Hn in Hc.
    rewrite HT in Hc. simpl in Hc. rewrite HM in Hc. simpl in Hc.
    destruct (invertMatrix ATA) as [R|e] eqn:Hinv; simpl in Hc; [|discriminate].
    destruct (kernel_coeffs_sum_one (Z.to_nat (p + 1)) (Z.to_nat w) (design_matrix (w / 2) p) AT ATA R ltac:(lia) HlenAT HrowAT HgetAT Hcol0 Hsq HATA Hinv)
      as [P [HP [HlenP HsumP]]].
    rewrite HP in Hc. simpl in Hc. injection Hc as <-.
    unfold list_sum. rewrite fold_left_plus_nth, HlenP, HsumP. ring.
  - intros c n. destruct n as [|n']; [reflexivity|].
    set (n := S n'). unfold savitzkyGolay.
    change (match repeat c n with [] => Ok [] | _ :: _ => ?X end) with X.
    rewrite Hn. cbv zeta. rewrite HT. simpl bind. rewrite HM. simpl bind.
    destruct (invertMatrix ATA) as [R|e] eqn:Hinv; [|reflexivity].
    destruct (kernel_coeffs_sum_one (Z.to_nat (p + 1)) (Z.to_nat w) (design_matrix (w / 2) p) AT ATA R ltac:(lia) HlenAT HrowAT HgetAT Hcol0 Hsq HATA Hinv)
      as [P [HP [HlenP HsumP]]].
    rewrite HP. simpl bind. f_equal.
    apply (convolve_const c n _ _ (Z.to_nat w)); [unfold n; lia|exact HW|exact HsumP].
Qed.

(** *** Concrete results *)

Lemma map_this_inj (l1 l2 : list Qc) : map this l1 = map this l2 -> l1 = l2.
Proof.
  revert l2. induction l1 as [|x l1 IH]; intros [|y l2] H; simpl in H; try discriminate; auto.
  injection H as Hxy Hl. f_equal; [apply Qc_decomp; exact Hxy|apply IH; exact Hl].
Qed.

Lemma res_vals_inj r1 r2 : res_vals r1 = res_vals r2 -> r1 = r2.
Proof.
  destruct r1 as [l1|e1], r2 as [l2|e2]; simpl; intros H; try discriminate.
  - injection H as H. f_equal. apply map_this_inj. exact H.
  - injection H as ->. reflexivity.
Qed.

(** Witness of C1 at [windowSize = 5], [polyOrder = 2]. *)
Lemma sg_reproduces_constants_witness :
  (exists coeffs, sg_coeffs 5%Q 2%Q = Ok coeffs /\ list_sum coeffs = 1) /\
  savitzkyGolay (repeat (Q2Qc 7) 4) 5%Q 2%Q = Ok (repeat (Q2Qc 7) 4).
Proof.
  split.
  - destruct (sg_coeffs 5%Q 2%Q) as [c|e] eqn:E.
    + exists c. split; [reflexivity|].
      apply (proj1 (sg_reproduces_constants 5%Q 2%Q) c E).
    + vm_compute in E. discriminate.
  - apply (proj2 (sg_reproduces_constants 5%Q 2%Q)).
Defined.

(** ** Claim C2 *)

(** C2 fails: with [windowSize = 5], [polyOrder = 2] the smoothing of
    [[1,2,3,4,5]] is not the input; the clamped edges move the first output
    to [41/35]. *)
Lemma sg_ramp5_not_identity :
  savitzkyGolay (qlist [1; 2; 3; 4; 5]%Q) 5%Q 2%Q <> Ok (qlist [1; 2; 3; 4; 5]%Q).
Proof.
  intros H. apply (f_equal res_vals) in H. vm_compute in H. discriminate H.
Qed.

(** C2 (amended): with [windowSize = 5], [polyOrder = 2] the smoothing of
    [[1,2,3,4,5]] is [[41/35, 67/35, 3, 143/35, 169/35]]: the centre sample
    is reproduced, the four outputs whose window is clamped at an edge are
    not. *)
Theorem sg_ramp5_output :
  savitzkyGolay (qlist [1; 2; 3; 4; 5]%Q) 5%Q 2%Q
  = Ok (qlist [41 # 35; 67 # 35; 3; 143 # 35; 169 # 35]%Q).
Proof. apply res_vals_inj. vm_compute. reflexivity. Qed.

(** ** Claim C3 *)

Lemma savitzkyGolay_total data ws po : exists out, savitzkyGolay data ws po = Ok out.
Proof.
  destruct data as [|x data']; [eexists; reflexivity|].
  destruct (sg_normalize ws po) as [w p] eqn:Hn.
  destruct (sg_kernel_shape ws po w p Hn)
    as [AT [ATA [HT [HM [HW [HW3 [Hq [HlenAT [HrowAT [HgetAT [Hcol0 [Hsq HATA]]]]]]]]]]]].
  unfold savitzkyGolay. rewrite Hn. cbv zeta. rewrite HT. simpl bind. rewrite HM. simpl bind.
  destruct (invertMatrix ATA) as [R|e] eqn:Hinv; [|eexists; reflexivity].
  destruct (kernel_coeffs_sum_one (Z.to_nat (p + 1)) (Z.to_nat w) (design_matrix (w / 2) p)
              AT ATA R ltac:(lia) HlenAT HrowAT HgetAT Hcol0 Hsq HATA Hinv)
    as [P [HP _]].
  rewrite HP. eexists. reflexivity.
Qed.

Lemma calculateDerivativeSG_3_2_total t signal :
  exists out, calculateDerivativeSG t signal 3%Q 2%Q = Ok out.
Proof.
  unfold calculateDerivativeSG.
  destruct (length signal <? 3); [eexists; reflexivity|].
  cbv zeta.
  destruct (transpose (design_matrix (Qfloor (3 / 2)) (Qfloor 2))) as [AT|e] eqn:E1;
    vm_compute in E1; [|discriminate E1].
  injection E1 as E1. subst AT. cbn [bind].
  match goal with |- context [multiplyMatrices ?X ?Y] =>
    destruct (multiplyMatrices X Y) as [ATA|e] eqn:E2; vm_compute in E2; [|discriminate E2] end.
  injection E2 as E2. subst ATA. cbn [bind].
  match goal with |- context [invertMatrix ?X] =>
    destruct (invertMatrix X) as [R|e] eqn:E3; vm_compute in E3; [|discriminate E3] end.
  injection E3 as E3. subst R.
  match goal with |- context [multiplyMatrices ?X ?Y] =>
    destruct (multiplyMatrices X Y) as [P|e] eqn:E4; vm_compute in E4; [|discriminate E4] end.
  injection E4 as E4. subst P. cbn [bind]. cbn [nth_error]. eexists. reflexivity.
Qed.

(** C3: when the Gauss-Jordan inversion of the normal-equations matrix
    meets a pivot of magnitude below [1e-15] ([MatrixDegenerate]), the
    exception does not escape: the smoothing path returns the input and
    the derivative path an all-zero sequence of the input's length.  With
    [windowSize = 3], [polyOrder = 2] neither path throws. *)
Theorem degenerate_pivot_fallback (data t signal : list Qc) (windowSize polyOrder : Q) :
  (forall ATA, sg_ATA windowSize polyOrder = Ok ATA ->
     invertMatrix ATA = Throw MatrixDegenerate ->
     savitzkyGolay data windowSize polyOrder = Ok data) /\
  (forall ATA, deriv_ATA windowSize polyOrder = Ok ATA ->
     invertMatrix ATA = Throw MatrixDegenerate ->
     calculateDerivativeSG t signal windowSize polyOrder = Ok (repeat 0 (length signal))) /\
  (exists out, savitzkyGolay data 3%Q 2%Q = Ok out) /\
  (exists out, calculateDerivativeSG t signal 3%Q 2%Q = Ok out).
Proof.
  split; [|split; [|split]].
  - intros ATA HATA Hinv. destruct data as [|x data']; [reflexivity|].
    unfold sg_ATA in HATA. unfold savitzkyGolay.
    destruct (sg_normalize windowSize polyOrder) as [w p]. cbv zeta in *.
    destruct (transpose (design_matrix (w / 2) p)) as [AT|e]; cbn [bind] in HATA |- *;
      [|discriminate].
    rewrite HATA. cbn [bind]. rewrite Hinv. reflexivity.
  - intros ATA HATA Hinv. unfold deriv_ATA in HATA. unfold calculateDerivativeSG.
    destruct (length signal <? 3); [reflexivity|]. cbv zeta in *.
    destruct (transpose (design_matrix (Qfloor (windowSize / 2)) (Qfloor polyOrder)))
      as [AT|e]; cbn [bind] in HATA |- *; [|discriminate].
    rewrite HATA. cbn [bind]. rewrite Hinv. reflexivity.
  - apply savitzkyGolay_total.
  - apply calculateDerivativeSG_3_2_total.
Qed.

(** Witness of C3: the derivative path at [windowSize = 3], [polyOrder = 3]
    (a rank-3 [4 x 4] normal matrix) falls back to zeros. *)
Lemma degenerate_pivot_fallback_witness :
  exists ATA, deriv_ATA 3%Q 3%Q = Ok ATA /\ invertMatrix ATA = Throw MatrixDegenerate /\
    calculateDerivativeSG (qlist [0; 1; 2; 3]%Q) (qlist [0; 1; 2; 3]%Q) 3%Q 3%Q
    = Ok (repeat 0 4).
Proof.
  destruct (deriv_ATA 3%Q 3%Q) as [ATA|e] eqn:E; [|vm_compute in E; discriminate E].
  exists ATA. assert (Hinv : invertMatrix ATA = Throw MatrixDegenerate).
  { vm_compute in E. injection E as <-. vm_compute. reflexivity. }
  split; [reflexivity|]. split; [exact Hinv|].
  apply (proj1 (proj2 (degenerate_pivot_fallback [] (qlist [0; 1; 2; 3]%Q)
                          (qlist [0; 1; 2; 3]%Q) 3%Q 3%Q)) ATA E Hinv).
Defined.

(* ------------------------------------------------------------------ *)
(** ** Root de-duplication *)

Lemma separated_snoc d l x :
  separated d l -> l <> [] -> d <= x - last l 0 -> separated d (l ++ [x]).
Proof.
  induction l as [|a l IH]; intros Hs Hne Hx; [contradiction|].
  destruct l as [|b l].
  - simpl. split; [exact Hx | exact I].
  - destruct Hs as [Hab Hs]. change ((a :: b :: l) ++ [x]) with (a :: ((b :: l) ++ [x])).
    split; [exact Hab|]. apply IH; [exact Hs | discriminate | exact Hx].
Qed.

Lemma separated_nth d l i :
  separated d l -> (S i < length l)%nat -> d <= nth (S i) l 0 - nth i l 0.
Proof.
  revert i. induction l as [|a l IH]; intros i Hs Hi; [simpl in Hi; lia|].
  destruct l as [|b l]; [simpl in Hi; lia|].
  destruct Hs as [Hab Hs]. destruct i as [|i].
  - exact Hab.
  - apply (IH i Hs). simpl in Hi |- *. lia.
Qed.

Lemma last_cons_ne {A} (a : A) l d : l <> [] -> last (a :: l) d = last l d.
Proof. destruct l; [contradiction | reflexivity]. Qed.

Lemma last_firstn l m :
  (1 <= m)%nat -> (m <= length l)%nat -> last (firstn m l) 0 = nth (m - 1) l 0.
Proof.
  revert m. induction l as [|a l IH]; intros m H1 H2; [simpl in H2; lia|].
  destruct m as [|m]; [lia|]. destruct m as [|m].
  - reflexivity.
  - change (firstn (S (S m)) (a :: l)) with (a :: firstn (S m) l). rewrite last_cons_ne.
    + rewrite (IH (S m)) by (simpl in H2; lia). replace (S (S m) - 1)%nat with (S m) by lia.
      replace (S m - 1)%nat with m by lia. reflexivity.
    + destruct l; [simpl in H2; lia | discriminate].
Qed.

Lemma firstn_S_nth {A} (l : list A) m d :
  (m < length l)%nat -> firstn (S m) l = firstn m l ++ [nth m l d].
Proof.
  revert m. induction l as [|a l IH]; intros m Hm; [simpl in Hm; lia|].
  destruct m as [|m]; [reflexivity|].
  change (firstn (S (S m)) (a :: l)) with (a :: firstn (S m) l).
  change (nth (S m) (a :: l) d) with (nth m l d).
  rewrite (IH m) by (simpl in Hm; lia). reflexivity.
Qed.

Lemma Qcleb_true x y : Qcleb x y = true <-> x <= y.
Proof. unfold Qcleb, Qcle. apply Qle_bool_iff. Qed.

Section FilterClosePointsProofs.

Context {Y : Type} (undef : Y).

Lemma fcp_fold_separated (outT : list Qc) (outY : list Y) d l acc :
  fst acc <> [] -> separated d (fst acc) ->
  fst (fold_left (fcp_step undef outT outY d) l acc) <> [] /\
  separated d (fst (fold_left (fcp_step undef outT outY d) l acc)).
Proof.
  revert acc. induction l as [|i l IH]; intros [nT nY] Hne Hs; [split; assumption|].
  cbn [fold_left]. apply IH; unfold fcp_step;
    destruct (Qcleb d (nth i outT 0 - last nT 0)) eqn:E; simpl in *; auto.
  - intro H. apply app_eq_nil in H. destruct H as [_ H]. discriminate H.
  - apply separated_snoc; [exact Hs | exact Hne | apply Qcleb_true; exact E].
Qed.

Lemma fcp_pass_separated (outT : list Qc) (outY : list Y) d :
  fst (fcp_pass undef outT outY d) <> [] /\ separated d (fst (fcp_pass undef outT outY d)).
Proof.
  unfold fcp_pass. apply fcp_fold_separated; [discriminate | exact I].
Qed.

Lemma fcp_fold_prefix (outT : list Qc) (outY : list Y) d k : forall m acc,
  (m + k <= length outT)%nat ->
  (length (fst acc) <= m)%nat -> (length (fst acc) = m -> fst acc = firstn m outT) ->
  let r := fst (fold_left (fcp_step undef outT outY d) (seq m k) acc) in
  (length r <= m + k)%nat /\ (length r = m + k -> r = firstn (m + k) outT)%nat.
Proof.
  induction k as [|k IH]; intros m [nT nY] Hk Hl He; cbv zeta.
  - cbn [seq fold_left]. rewrite Nat.add_0_r. split; assumption.
  - cbn [seq fold_left]. replace (m + S k)%nat with (S m + k)%nat by lia.
    apply IH; [lia| |]; unfold fcp_step;
      destruct (Qcleb d (nth m outT 0 - last nT 0)); simpl in *.
    + rewrite length_app. simpl. lia.
    + lia.
    + rewrite length_app. simpl. intro H.
      rewrite He by lia. symmetry. apply firstn_S_nth. lia.
    + lia.
Qed.

Lemma fcp_pass_full (outT : list Qc) (outY : list Y) d :
  outT <> [] -> length (fst (fcp_pass undef outT outY d)) = length outT ->
  fst (fcp_pass undef outT outY d) = outT.
Proof.
  intros Hne Hl. destruct outT as [|a T]; [contradiction|].
  pose proof (fcp_fold_prefix (a :: T) outY d (length (a :: T) - 1) 1
                ([nth 0 (a :: T) 0]%list, [nth 0 outY undef]%list)) as H.
  cbv zeta in H. unfold fcp_pass in *. destruct H as [_ H]; [simpl; lia | simpl; lia | reflexivity |].
  rewrite H.
  - simpl. rewrite Nat.sub_0_r, firstn_all. reflexivity.
  - rewrite Hl. simpl. lia.
Qed.

Lemma fcp_fold_keep (outT : list Qc) (outY : list Y) d k : forall m acc,
  separated d outT -> (1 <= m)%nat -> (m + k <= length outT)%nat ->
  fst acc = firstn m outT ->
  fst (fold_left (fcp_step undef outT outY d) (seq m k) acc) = firstn (m + k) outT.
Proof.
  induction k as [|k IH]; intros m [nT nY] Hs H1 Hk He.
  - cbn [seq fold_left]. rewrite Nat.add_0_r. exact He.
  - cbn [seq fold_left]. replace (m + S k)%nat with (S m + k)%nat by lia.
    apply IH; [exact Hs | lia | lia |]. simpl in He. subst nT. unfold fcp_step.
    assert (Hc : Qcleb d (nth m outT 0 - last (firstn m outT) 0) = true).
    { apply Qcleb_true. rewrite last_firstn by lia.
      replace m with (S (m - 1)) at 1 by lia. apply separated_nth; [exact Hs | lia]. }
    rewrite Hc. simpl. symmetry. apply firstn_S_nth. lia.
Qed.

Lemma fcp_pass_keep (outT : list Qc) (outY : list Y) d :
  separated d outT -> outT <> [] -> fst (fcp_pass undef outT outY d) = outT.
Proof.
  intros Hs Hne. destruct outT as [|a T]; [contradiction|]. unfold fcp_pass.
  rewrite (fcp_fold_keep (a :: T) outY d (length (a :: T) - 1) 1); [| exact Hs | lia | simpl; lia | reflexivity].
  replace (1 + (length (a :: T) - 1))%nat with (length (a :: T)) by (simpl; lia).
  apply firstn_all.
Qed.

Lemma fcp_loop_two (outT : list Qc) (outY : list Y) d k :
  outT <> [] ->
  fcp_loop undef (S (S k)) outT outY d =
  (if Nat.eqb (length (fst (fcp_pass undef outT outY d))) (length outT) then (outT, outY)
   else fcp_pass undef outT outY d).
Proof.
  intros Hne. cbn [fcp_loop].
  pose proof (fcp_pass_separated outT outY d) as [Hne' Hs'].
  destruct (fcp_pass undef outT outY d) as [T' Y'] eqn:P. simpl in Hne', Hs' |- *.
  destruct (Nat.eqb (length T') (length outT)); [reflexivity|].
  pose proof (fcp_pass_keep T' Y' d Hs' Hne') as Hk.
  destruct (fcp_pass undef T' Y' d) as [T'' Y''] eqn:P2. simpl in Hk. subst T''.
  rewrite Nat.eqb_refl. reflexivity.
Qed.

Lemma fcp_loop_separated (outT : list Qc) (outY : list Y) d k :
  outT <> [] -> separated d (fst (fcp_loop undef (S (S k)) outT outY d)).
Proof.
  intros Hne. rewrite fcp_loop_two by exact Hne.
  pose proof (fcp_pass_separated outT outY d) as [_ Hs'].
  destruct (Nat.eqb (length (fst (fcp_pass undef outT outY d))) (length outT)) eqn:E.
  - apply Nat.eqb_eq in E. rewrite (fcp_pass_full outT outY d Hne E) in Hs'. exact Hs'.
  - exact Hs'.
Qed.

End FilterClosePointsProofs.

(** C7: the output of [filterClosePoints] has consecutive kept points at least
    [minDistance] apart ([minDistance <= b - a]); applying [filterClosePoints]
    to its own output returns it unchanged; and the loop has settled after two
    sweeps, so every iteration cap of at least 2 (in particular 10) gives the
    same result. *)
Theorem filterClosePoints_idempotent {Y : Type} (undef : Y) (t0 : list Qc) (y0 : list Y)
    (minDistance : Qc) :
  separated minDistance (fst (filterClosePoints undef t0 y0 minDistance)) /\
  filterClosePoints undef (fst (filterClosePoints undef t0 y0 minDistance))
    (snd (filterClosePoints undef t0 y0 minDistance)) minDistance
  = filterClosePoints undef t0 y0 minDistance /\
  (forall k, (2 <= k)%nat -> (length t0 <=? 1) = false ->
     fcp_loop undef k t0 y0 minDistance = filterClosePoints undef t0 y0 minDistance).
Proof.
  assert (Hr : filterClosePoints undef t0 y0 minDistance
               = if length t0 <=? 1 then (t0, y0) else fcp_loop undef 10 t0 y0 minDistance)
    by reflexivity.
  rewrite Hr. clear Hr. destruct (length t0 <=? 1) eqn:E.
  - split; [|split].
    + simpl. apply Nat.leb_le in E. destruct t0 as [|a [|b l]]; simpl in *; auto; lia.
    + simpl. unfold filterClosePoints. rewrite E. reflexivity.
    + intros k _ H. discriminate H.
  - assert (Hne : t0 <> []) by (intro H; subst t0; discriminate E).
    pose proof (fcp_loop_separated undef t0 y0 minDistance 8 Hne) as Hs.
    split; [exact Hs|split].
    + remember (fcp_loop undef 10 t0 y0 minDistance) as r eqn:Hr.
      unfold filterClosePoints. destruct (length (fst r) <=? 1) eqn:E2.
      * destruct r; reflexivity.
      * assert (Hne' : fst r <> []) by (intro H; rewrite H in E2; discriminate E2).
        rewrite fcp_loop_two by exact Hne'.
        rewrite (fcp_pass_keep undef (fst r) (snd r) minDistance Hs Hne'), Nat.eqb_refl.
        destruct r; reflexivity.
    + intros k Hk _. destruct k as [|[|k]]; [lia|lia|].
      rewrite !fcp_loop_two by exact Hne. reflexivity.
Qed.

(** Witness of C7 on three roots, the middle one closer than [1] to the first. *)
Lemma filterClosePoints_idempotent_witness :
  (2 <= 10)%nat /\ (length (qlist [0; 1 # 2; 3]%Q) <=? 1) = false /\
  fcp_loop 0 10 (qlist [0; 1 # 2; 3]%Q) (qlist [0; 0; 0]%Q) 1
  = filterClosePoints 0 (qlist [0; 1 # 2; 3]%Q) (qlist [0; 0; 0]%Q) 1.
Proof.
  split; [lia|]. split; [reflexivity|].
  apply (proj2 (proj2 (filterClosePoints_idempotent 0 (qlist [0; 1 # 2; 3]%Q)
                          (qlist [0; 0; 0]%Q) 1))); [lia | reflexivity].
Defined.

(* ------------------------------------------------------------------ *)
(** ** Jump-edge detection *)

Lemma convolve_tab f n coeffs half :
  convolve (map f (seq 0 n)) coeffs half = convolve_fn f n coeffs half.
Proof.
  unfold convolve, convolve_fn. rewrite length_map, length_seq.
  apply map_ext_in. intros i Hi. apply in_seq in Hi. apply sum_ext. intros m _.
  rewrite nth_map_seq by (apply clamp_idx_lt; lia). reflexivity.
Qed.

Lemma savitzkyGolay_coeffs data ws po c :
  data <> [] -> sg_coeffs ws po = Ok c ->
  savitzkyGolay data ws po = Ok (convolve data c (fst (sg_normalize ws po) / 2)).
Proof.
  intros Hne Hc. destruct data as [|x data']; [contradiction|].
  unfold savitzkyGolay, sg_coeffs in *. destruct (sg_normalize ws po) as [w p].
  cbv zeta in *. cbn [fst].
  destruct (transpose (design_matrix (w / 2) p)) as [AT|e]; cbn [bind] in *; [|discriminate].
  destruct (multiplyMatrices AT (design_matrix (w / 2) p)) as [ATA|e];
    cbn [bind] in *; [|discriminate].
  destruct (invertMatrix ATA) as [R|e]; cbn [bind] in *; [|discriminate].
  destruct (multiplyMatrices R AT) as [P|e]; cbn [bind] in *; [|discriminate].
  injection Hc as <-. reflexivity.
Qed.

Lemma sg_coeffs_11_2 : sg_coeffs 11%Q 2%Q = Ok sg11_2.
Proof. apply res_vals_inj. vm_compute. reflexivity. Qed.

Lemma savitzkyGolay_step_signal :
  savitzkyGolay step_signal 11%Q 2%Q = Ok (convolve_fn step_value 10000 sg11_2 5).
Proof.
  rewrite (savitzkyGolay_coeffs step_signal 11%Q 2%Q sg11_2); [| discriminate | exact sg_coeffs_11_2].
  replace (fst (sg_normalize 11%Q 2%Q) / 2)%Z with 5%Z by (vm_compute; reflexivity).
  unfold step_signal. rewrite convolve_tab. reflexivity.
Qed.

Lemma Zseq_of_nat s n : Zseq (Z.of_nat s) n = map Z.of_nat (seq s n).
Proof.
  revert s. induction n as [|n IH]; intros s; [reflexivity|].
  cbn [Zseq seq map]. rewrite <- IH, Nat2Z.inj_succ. reflexivity.
Qed.

Lemma clamp_idx_clampZ n idx :
  (0 < n)%nat -> Z.of_nat (clamp_idx n idx) = clampZ (Z.of_nat n) idx.
Proof.
  intros Hn. unfold clamp_idx, clampZ.
  assert (H0 : (0 <= (if (idx <? 0)%Z then 0%Z else idx))%Z)
    by (destruct (Z.ltb_spec idx 0); lia).
  revert H0. generalize (if (idx <? 0)%Z then 0%Z else idx). intros j Hj.
  destruct (Z.leb_spec (Z.of_nat n) j); rewrite Z2Nat.id; lia.
Qed.

Lemma convolve_fn_Z (g : Z -> Qc) n coeffs half :
  (0 < n)%nat ->
  convolve_fn (fun i => g (Z.of_nat i)) n coeffs half
  = convolve_fnZ g n (Z.of_nat n) coeffs half.
Proof.
  intros Hn. unfold convolve_fn, convolve_fnZ.
  rewrite (Zseq_of_nat 0), map_map. apply map_ext. intros i. apply sum_ext. intros m _.
  rewrite clamp_idx_clampZ by exact Hn. reflexivity.
Qed.

Lemma step_amplitude_start :
  amplitude_start_index (convolve_fn step_value 10000 sg11_2 5) = Some 5004%nat.
Proof.
  unfold step_value. rewrite convolve_fn_Z by (apply Nat.ltb_lt; reflexivity).
  replace (Z.of_nat 10000) with 10000%Z by reflexivity.
  vm_compute. reflexivity.
Qed.

Lemma Qcltb_true x y : Qcltb x y = true -> x < y.
Proof.
  unfold Qcltb, Qclt. intros H. apply negb_true_iff in H.
  apply Qnot_le_lt. intros Hle. apply Qle_bool_iff in Hle. rewrite Hle in H. discriminate H.
Qed.

Lemma length_step_signal : length step_signal = 10000%nat.
Proof. unfold step_signal. rewrite length_map, length_seq. reflexivity. Qed.

Lemma length_uniform_t : length uniform_t = 10000%nat.
Proof. unfold uniform_t. rewrite length_map, length_seq. reflexivity. Qed.

(** On the step trace, whatever the time stamps, the start index is [5004]
    and the window positive. *)
Lemma jump_step_signal_start (t : list Qc) :
  length t = 10000%nat ->
  exists window, findLargestJumpStart t step_signal = Ok (Some (nth 5004 t 0, window)) /\
                 0 < window.
Proof.
  intros Ht. unfold findLargestJumpStart. rewrite Ht, length_step_signal.
  replace ((10000 <? 3) || negb (Nat.eqb 10000 10000))%nat with false by reflexivity.
  rewrite savitzkyGolay_step_signal. cbn [bind]. cbv zeta.
  rewrite step_amplitude_start. cbv beta iota.
  eexists. split; [reflexivity|].
  match goal with |- 0 < (if Qcltb 0 ?d then _ else _) => destruct (Qcltb 0 d) eqn:E end.
  - apply Qcltb_true. exact E.
  - unfold Qclt. vm_compute. reflexivity.
Qed.

(** C8 (amended): for the 10,000-sample trace that is [0] below index
    [5000], ramps linearly over 20 samples from index [5000] and is [-1]
    from index [5020] on, [findLargestJumpStart] returns, for every time
    axis [t] of that length, the time [t[5004]] (the first smoothed sample
    at or below [baseline - 0.15 * amplitude]) and a positive window. *)
Theorem findLargestJumpStart_step_trace (t : list Qc) (Ht : length t = 10000%nat) :
  exists window, findLargestJumpStart t step_signal = Ok (Some (nth 5004 t 0, window)) /\
                 0 < window.
Proof. exact (jump_step_signal_start t Ht). Qed.

Lemma findLargestJumpStart_step_trace_witness :
  length uniform_t = 10000%nat /\
  exists window, findLargestJumpStart uniform_t step_signal
                 = Ok (Some (nth 5004 uniform_t 0, window)) /\ 0 < window.
Proof.
  split; [exact length_uniform_t|].
  exact (findLargestJumpStart_step_trace uniform_t length_uniform_t).
Defined.

(** C8 counterexample: on the uniformly sampled axis [t_i = i] (spacing 1)
    the reported time is not within one sample of [t[5000]]. *)
Lemma findLargestJumpStart_step_not_within_one :
  ~ (exists time window,
       findLargestJumpStart uniform_t step_signal = Ok (Some (time, window)) /\
       Qcabs (time - nth 5000 uniform_t 0) <= 1 /\ 0 < window).
Proof.
  intros [time [window [E [Hclose _]]]].
  destruct (jump_step_signal_start uniform_t length_uniform_t) as [w [E' _]].
  rewrite E' in E. injection E as Htime _. subst time.
  unfold uniform_t in Hclose.
  rewrite !nth_map_seq in Hclose by (apply Nat.ltb_lt; reflexivity).
  vm_compute in Hclose. apply Hclose. reflexivity.
Qed.

(** C10: when [t] and [signal] differ in length, or [t] has fewer than 3
    samples, [findLargestJumpStart] returns [null] without raising. *)
Theorem findLargestJumpStart_rejects (t signal : list Qc) :
  (length t <> length signal \/ (length t < 3)%nat) ->
  findLargestJumpStart t signal = Ok None.
Proof.
  intros H. unfold findLargestJumpStart. destruct H as [H|H].
  - destruct (length t <? 3)%nat; [reflexivity|].
    rewrite (proj2 (Nat.eqb_neq _ _) H). reflexivity.
  - rewrite (proj2 (Nat.ltb_lt _ _) H). reflexivity.
Qed.

Lemma findLargestJumpStart_rejects_witness :
  (length (qlist [0; 1]%Q) <> length (qlist [0; 1; 2]%Q) \/
   (length (qlist [0; 1]%Q) < 3)%nat) /\
  findLargestJumpStart (qlist [0; 1]%Q) (qlist [0; 1; 2]%Q) = Ok None.
Proof.
  assert (H : length (qlist [0; 1]%Q) <> length (qlist [0; 1; 2]%Q) \/
              (length (qlist [0; 1]%Q) < 3)%nat) by (left; discriminate).
  split; [exact H|]. exact (findLargestJumpStart_rejects _ _ H).
Defined.

(** C9 (evidence): [calculateDerivativeSG] uses its parameters as given.
    With [polyOrder = 0] (and [0.5], whose floor is [0]) the product
    [ATAinvAT] has a single row and the call throws; with [polyOrder = 3 >=
    windowSize] it returns zeros; whereas [sg_normalize] (the smoothing
    path's normalisation) maps these orders to [1] and [2], with which the
    derivative of the ramp is [1/2, 1, 1, 1, 1/2]. *)
Theorem calculateDerivativeSG_unnormalised :
  calculateDerivativeSG (qlist [0; 1; 2; 3; 4]%Q) (qlist [0; 1; 2; 3; 4]%Q) 3%Q 0%Q
    = Throw TypeError /\
  calculateDerivativeSG (qlist [0; 1; 2; 3; 4]%Q) (qlist [0; 1; 2; 3; 4]%Q) 3%Q (1 # 2)%Q
    = Throw TypeError /\
  calculateDerivativeSG (qlist [0; 1; 2; 3; 4]%Q) (qlist [0; 1; 2; 3; 4]%Q) 3%Q 3%Q
    = Ok (repeat 0 5) /\
  sg_normalize 3%Q 0%Q = (3%Z, 1%Z) /\ sg_normalize 3%Q 3%Q = (3%Z, 2%Z) /\
  calculateDerivativeSG (qlist [0; 1; 2; 3; 4]%Q) (qlist [0; 1; 2; 3; 4]%Q) 3%Q 1%Q
    = Ok (qlist [1 # 2; 1; 1; 1; 1 # 2]%Q) /\
  calculateDerivativeSG (qlist [0; 1; 2; 3; 4]%Q) (qlist [0; 1; 2; 3; 4]%Q) 3%Q 2%Q
    = Ok (qlist [1 # 2; 1; 1; 1; 1 # 2]%Q).
Proof.
  split; [vm_compute; reflexivity|]. split; [vm_compute; reflexivity|].
  split; [vm_compute; reflexivity|]. split; [vm_compute; reflexivity|].
  split; [vm_compute; reflexivity|].
  split; apply res_vals_inj; vm_compute; reflexivity.
Qed.

(* ------------------------------------------------------------------ *)
(** ** CSV parsing *)

Lemma Qcltb_false x y : y <= x -> Qcltb x y = false.
Proof.
  unfold Qcltb, Qcle. intros H. apply Qle_bool_iff in H. rewrite H. reflexivity.
Qed.

Lemma Qc_of_nat_le a b : (a <= b)%nat -> Qc_of_nat a <= Qc_of_nat b.
Proof.
  intros H. unfold Qcle, Qc_of_nat, Q2Qc. cbn [this]. rewrite !Qred_correct.
  rewrite <- Zle_Qle. lia.
Qed.

Lemma push_fields_contribution line s :
  push_fields (split_char ","%char line) s =
  mkPstate (dataStarted s) (lineCount s)
    (ps_t s ++ map (fun r => fst (fst r)) (row_contribution line))
    (ps_tenz s ++ map (fun r => snd (fst r)) (row_contribution line))
    (ps_interf s ++ map snd (row_contribution line)).
Proof.
  unfold push_fields, row_contribution.
  destruct (5 <=? length (split_char ","%char line)); [|destruct s; simpl; rewrite !app_nil_r; reflexivity].
  cbv zeta. rewrite andb_true_l.
  destruct (negb (js_isNaN (parseFloat (nth 0 (split_char ","%char line) ""%string))) &&
            negb (js_isNaN (parseFloat (nth 1 (split_char ","%char line) ""%string))) &&
            negb (js_isNaN (parseFloat (nth 3 (split_char ","%char line) ""%string))));
    [reflexivity | destruct s; simpl; rewrite !app_nil_r; reflexivity].
Qed.

(** C4 (amended): once the header has been seen, a run of counted data rows
    (not blank, not a header) whose counts all lie within
    [skipStart .. skipEnd] is processed row by row, in order, each row
    adding [row_contribution] of its trimmed text: an entry exactly when
    it has at least 5 fields and [parseFloat] of fields 0, 1 and 3 is not
    [NaN], with time [parseFloat] of field 0, strain [x * 0.00132 * 1.25]
    and interferometer [x + 0.04]; other rows add nothing and the loop
    goes on. *)
Theorem parse_loop_data_rows (skipStart skipEnd : Qc) (ls : list string) (s : pstate) :
  dataStarted s = true ->
  Forall data_line ls ->
  skipStart <= Qc_of_nat (S (lineCount s)) ->
  Qc_of_nat (lineCount s + length ls) <= skipEnd ->
  parse_loop skipStart skipEnd ls s =
  mkPstate true (lineCount s + length ls)
    (ps_t s ++ map (fun r => fst (fst r)) (flat_map (fun raw => row_contribution (trim raw)) ls))
    (ps_tenz s ++ map (fun r => snd (fst r)) (flat_map (fun raw => row_contribution (trim raw)) ls))
    (ps_interf s ++ map snd (flat_map (fun raw => row_contribution (trim raw)) ls)).
Proof.
  revert s. induction ls as [|raw ls IH]; intros s Hd Hall Hstart Hend.
  - destruct s as [d lc t tz it]. simpl in *. subst d.
    rewrite Nat.add_0_r, !app_nil_r. reflexivity.
  - inversion Hall as [|? ? [Hne Hhdr] Hall']; subst.
    cbn [parse_loop]. unfold parse_step. rewrite Hne, Hhdr, Hd. cbn [negb lineCount].
    rewrite (Qcltb_false _ _ Hstart).
    rewrite Qcltb_false
      by (eapply Qcle_trans; [apply Qc_of_nat_le | exact Hend]; simpl; lia).
    rewrite IH.
    + rewrite push_fields_contribution. cbn [dataStarted lineCount ps_t ps_tenz ps_interf].
      cbn [flat_map]. rewrite !map_app, !app_assoc.
      replace (S (lineCount s) + length ls)%nat with (lineCount s + length (raw :: ls))%nat
        by (simpl; lia).
      reflexivity.
    + rewrite push_fields_contribution. reflexivity.
    + exact Hall'.
    + rewrite push_fields_contribution. cbn [lineCount].
      eapply Qcle_trans; [exact Hstart | apply Qc_of_nat_le; lia].
    + rewrite push_fields_contribution. cbn [lineCount].
      replace (S (lineCount s) + length ls)%nat with (lineCount s + length (raw :: ls))%nat
        by (simpl; lia).
      exact Hend.
Qed.

Lemma parse_loop_data_rows_witness :
  (dataStarted (mkPstate true 0 [] [] []) = true /\
   Forall data_line ["Infinity,1,0,1,0"; "1,2,0,3,0"]%string /\
   1 <= Qc_of_nat (S (lineCount (mkPstate true 0 [] [] []))) /\
   Qc_of_nat (lineCount (mkPstate true 0 [] [] []) + 2) <= Q2Qc 27000) /\
  parse_loop 1 (Q2Qc 27000) ["Infinity,1,0,1,0"; "1,2,0,3,0"]%string (mkPstate true 0 [] [] [])
  = mkPstate true (0 + length ["Infinity,1,0,1,0"; "1,2,0,3,0"]%string)
      ([] ++ map (fun r => fst (fst r))
              (flat_map (fun raw => row_contribution (trim raw)) ["Infinity,1,0,1,0"; "1,2,0,3,0"]%string))
      ([] ++ map (fun r => snd (fst r))
              (flat_map (fun raw => row_contribution (trim raw)) ["Infinity,1,0,1,0"; "1,2,0,3,0"]%string))
      ([] ++ map snd
              (flat_map (fun raw => row_contribution (trim raw)) ["Infinity,1,0,1,0"; "1,2,0,3,0"]%string)).
Proof.
  assert (H1 : Forall data_line ["Infinity,1,0,1,0"; "1,2,0,3,0"]%string)
    by (repeat constructor).
  assert (H2 : 1 <= Qc_of_nat (S (lineCount (mkPstate true 0 [] [] []))))
    by (unfold Qcle; vm_compute; discriminate).
  assert (H3 : Qc_of_nat (lineCount (mkPstate true 0 [] [] []) + 2) <= Q2Qc 27000)
    by (unfold Qcle; vm_compute; discriminate).
  split; [split; [reflexivity | split; [exact H1 | split; [exact H2 | exact H3]]]|].
  exact (parse_loop_data_rows 1 (Q2Qc 27000) ["Infinity,1,0,1,0"; "1,2,0,3,0"]%string
           (mkPstate true 0 [] [] []) eq_refl H1 H2 H3).
Defined.

(** C4 counterexample: a row whose time field is [Infinity] (not a finite
    number) is accepted, and contributes an infinite time. *)
Lemma parseCSV_accepts_infinity :
  fst (fst (parseCSV_rows (String.concat nl ["TIME,CH1,CH2,CH3,CH4"; "Infinity,1,0,1,0"]%string)
                          (Some 1) None)) = [JPosInf]%list.
Proof. vm_compute. reflexivity. Qed.

(** C5 (evidence): [options.skipStart || 6650] turns a start index of [0]
    into [6650], so the first data row is discarded, while a start index
    of [1] keeps it. *)
Theorem parseCSV_skipStart_zero :
  js_or_num (Some 0) (Q2Qc 6650) = Q2Qc 6650 /\
  parseCSV_rows (String.concat nl ["TIME,CH1,CH2,CH3,CH4"; "0,1,0,1,0"]%string) (Some 0) None
    = ([], [], []) /\
  length (fst (fst (parseCSV_rows (String.concat nl ["TIME,CH1,CH2,CH3,CH4"; "0,1,0,1,0"]%string)
                                  (Some 1) None))) = 1%nat.
Proof.
  split; [reflexivity|]. split; vm_compute; reflexivity.
Qed.

(* ------------------------------------------------------------------ *)
(** ** Intersections *)

Lemma fold_left_app_flat_map {A B} (f : A -> list B) (l : list A) acc :
  fold_left (fun acc x => acc ++ f x) l acc = acc ++ flat_map f l.
Proof.
  revert acc. induction l as [|x l IH]; intros acc; simpl.
  - rewrite app_nil_r. reflexivity.
  - rewrite IH, app_assoc. reflexivity.
Qed.

Lemma fold_left_ext_in {A B} (f g : A -> B -> A) (l : list B) a :
  (forall acc x, In x l -> f acc x = g acc x) -> fold_left f l a = fold_left g l a.
Proof.
  revert a. induction l as [|x l IH]; intros a H; [reflexivity|].
  simpl. rewrite H by (left; reflexivity). apply IH. intros acc y Hy. apply H. right. exact Hy.
Qed.

Lemma Qcleb_false x y : Qcleb x y = false -> y < x.
Proof.
  unfold Qcleb, Qclt. intros H. apply Qnot_le_lt. intros Hle.
  apply Qle_bool_iff in Hle. rewrite Hle in H. discriminate H.
Qed.

Lemma sign_change_delta dPrev dCurr :
  sign_change dPrev dCurr = true -> dCurr - dPrev <> 0.
Proof.
  unfold sign_change. intros H Hz.
  assert (Heq : dCurr = dPrev).
  { transitivity (dPrev + (dCurr - dPrev)); [ring | rewrite Hz; ring]. }
  subst dCurr.
  apply orb_true_iff in H as [H|H]; apply andb_true_iff in H as [H1 H2];
    apply Qcleb_true in H1; apply Qcltb_true in H2.
  - apply (Qclt_not_le 0 dPrev H2). exact H1.
  - apply (Qclt_not_le dPrev 0 H2). exact H1.
Qed.

(** C6: for time-aligned arrays of equal length, the points reported by
    [findSignalIntersectionsAtZero] are exactly those of [crossings_spec]
    (sign-change pairs, interpolated time, mean of the two interpolated
    channels, magnitude at most [yThreshold], in order); at each
    sign-change pair the denominator [diffCurr - diffPrev] is nonzero and
    the interpolated difference vanishes at the reported fraction. *)
Theorem findSignalIntersectionsAtZero_spec (t tenz interf : list Qc) (yThreshold : Qc) :
  length tenz = length t -> length interf = length t ->
  findSignalIntersectionsAtZero t tenz interf yThreshold
  = crossings_spec t tenz interf yThreshold /\
  (forall i, (1 <= i < length t)%nat ->
     let dPrev := nth (i - 1) tenz 0 - nth (i - 1) interf 0 in
     let dCurr := nth i tenz 0 - nth i interf 0 in
     sign_change dPrev dCurr = true ->
     dCurr - dPrev <> 0 /\ lerp dPrev dCurr (- dPrev / (dCurr - dPrev)) = 0).
Proof.
  intros _ _. split.
  - unfold findSignalIntersectionsAtZero, crossings_spec.
    match goal with
    | |- _ = flat_map ?f ?l =>
        rewrite <- (app_nil_l (flat_map f l)), <- (fold_left_app_flat_map f l [])
    end.
    apply fold_left_ext_in. intros acc i _. cbv beta zeta.
    destruct (sign_change _ _); [|rewrite app_nil_r; reflexivity].
    unfold lerp.
    match goal with
    | |- (if Qcleb (Qcabs ?v1) _ then _ else _) = acc ++ (if Qcleb (Qcabs ?v2) _ then _ else _) =>
        replace v1 with v2 by (unfold Qcdiv; ring)
    end.
    destruct (Qcleb _ _); [reflexivity | rewrite app_nil_r; reflexivity].
  - intros i _ dPrev dCurr Hs. pose proof (sign_change_delta _ _ Hs) as Hd.
    split; [exact Hd|]. unfold lerp. field. exact Hd.
Qed.

Lemma findSignalIntersectionsAtZero_spec_witness :
  length (qlist [0; 1; 2]%Q) = length (qlist [0; 1; 2]%Q) /\
  length (qlist [1; -1; 1]%Q) = length (qlist [0; 1; 2]%Q) /\
  findSignalIntersectionsAtZero (qlist [0; 1; 2]%Q) (qlist [-1; 1; -1]%Q) (qlist [1; -1; 1]%Q)
    (Q2Qc (2 # 100))
  = crossings_spec (qlist [0; 1; 2]%Q) (qlist [-1; 1; -1]%Q) (qlist [1; -1; 1]%Q)
      (Q2Qc (2 # 100)).
Proof.
  split; [reflexivity|]. split; [reflexivity|].
  exact (proj1 (findSignalIntersectionsAtZero_spec (qlist [0; 1; 2]%Q) (qlist [-1; 1; -1]%Q)
                  (qlist [1; -1; 1]%Q) (Q2Qc (2 # 100)) eq_refl eq_refl)).
Defined.

(** ** Further properties of the code *)


Lemma map_nth_seq_self {T} (l : list T) d :
  map (fun i => nth i l d) (seq 0 (length l)) = l.
Proof.
  induction l as [|x l IH]; [reflexivity|].
  cbn [length seq map]. rewrite <- seq_shift, map_map. cbn [nth]. f_equal. exact IH.
Qed.

(** The transpose of a rectangular matrix with at least one row and one
    column is a rectangular matrix whose transpose is the original. *)
Theorem transpose_round_trip (M : list (list Qc)) (r c : nat) :
  length M = r -> (0 < r)%nat -> (0 < c)%nat ->
  (forall i, (i < r)%nat -> length (nth i M []) = c) ->
  exists MT, transpose M = Ok MT /\ length MT = c /\
    (forall j, (j < c)%nat -> length (nth j MT []) = r) /\ transpose MT = Ok M.
Proof.
  intros HlenM Hr Hc Hrows.
  assert (HM : M <> []) by (intros E; subst M; simpl in HlenM; lia).
  set (MT := map (fun i => map (fun row => nth i row 0) M) (seq 0 (length (nth 0 M [])))).
  exists MT. split; [apply transpose_ok; exact HM|].
  assert (HlenMT : length MT = c) by (unfold MT; rewrite length_map, length_seq; apply Hrows; lia).
  assert (HrowMT : forall j, (j < c)%nat -> length (nth j MT []) = r).
  { intros j Hj. unfold MT. rewrite nth_map_seq by (rewrite Hrows; lia).
    rewrite length_map. exact HlenM. }
  split; [exact HlenMT|]. split; [exact HrowMT|].
  assert (HMT : MT <> []) by (intros E; rewrite E in HlenMT; simpl in HlenMT; lia).
  rewrite (transpose_ok MT HMT). f_equal.
  rewrite HrowMT by lia.
  apply (nth_ext _ _ [] []); [rewrite length_map, length_seq; symmetry; exact HlenM|].
  intros j Hj. rewrite length_map, length_seq in Hj.
  rewrite nth_map_seq by exact Hj.
  rewrite <- (map_nth_seq_self (nth j M []) 0). rewrite Hrows by exact Hj.
  unfold MT. rewrite map_map. rewrite (Hrows 0%nat) by lia.
  apply map_ext_in. intros i Hi. apply in_seq in Hi.
  rewrite (nth_map' _ _ _ []) by (destruct i; reflexivity). reflexivity.
Qed.


Lemma gj_from_throw n i fuel A e : gj_from n i fuel A = Throw e -> e = MatrixDegenerate.
Proof.
  revert i A. induction fuel as [|f IH]; intros i A H; simpl in H; [discriminate|].
  unfold gj_step in H.
  destruct (Qcltb (Qcabs (getM A (find_max_row A n i) i)) eps15); simpl in H.
  - injection H as <-. reflexivity.
  - eapply IH. exact H.
Qed.

Lemma invertMatrix_throw M e : invertMatrix M = Throw e -> e = MatrixDegenerate.
Proof.
  unfold invertMatrix. destruct (gj_from _ _ _ _) as [A|e'] eqn:E; simpl; [discriminate|].
  intros H. injection H as <-. eapply gj_from_throw. exact E.
Qed.

(** For a square matrix [M] of size [n >= 1], [invertMatrix] either
    returns an [R] with [multiplyMatrices(R, M)] the identity, or throws
    [Matrix degenerate]; on a singular [M] (a nonzero [x] with [M x = 0])
    it always throws. *)
Theorem invertMatrix_inverse_or_degenerate (n : nat) (M : list (list Qc)) :
  (0 < n)%nat -> square n M ->
  (forall R, invertMatrix M = Ok R -> multiplyMatrices R M = Ok (identity n)) /\
  (forall e, invertMatrix M = Throw e -> e = MatrixDegenerate) /\
  (forall x : nat -> Qc, (exists k, (k < n)%nat /\ x k <> 0) ->
     (forall r, (r < n)%nat -> sum n (fun c => getM M r c * x c) = 0) ->
     invertMatrix M = Throw MatrixDegenerate).
Proof.
  intros Hn Hsq. split; [|split].
  - intros R HR. destruct (invertMatrix_left_inverse n M R Hsq HR) as [HlenR [HrowR HRM]].
    destruct Hsq as [HlenM HrowM].
    rewrite (multiplyMatrices_ok R M n n n HlenR Hn (HrowR 0%nat Hn) HlenM Hn (HrowM 0%nat Hn)).
    f_equal. unfold identity. apply map_ext_in. intros i Hi. apply in_seq in Hi.
    unfold unit_row. apply map_ext_in. intros j Hj. apply in_seq in Hj.
    apply HRM; lia.
  - apply invertMatrix_throw.
  - intros x [k [Hk Hxk]] Hker.
    destruct (invertMatrix M) as [R|e] eqn:HR.
    + exfalso. apply Hxk.
      destruct (invertMatrix_left_inverse n M R Hsq HR) as [_ [_ HRM]].
      transitivity (sum n (fun c => (if Nat.eqb k c then 1 else 0) * x c));
        [symmetry; apply sum_unit; exact Hk|].
      transitivity (sum n (fun c => sum n (fun j => getM R k j * getM M j c) * x c)).
      { apply sum_ext. intros c Hc. rewrite HRM by assumption. reflexivity. }
      transitivity (sum n (fun j => getM R k j * sum n (fun c => getM M j c * x c))).
      { transitivity (sum n (fun c => sum n (fun j => getM R k j * (getM M j c * x c)))).
        - apply sum_ext. intros c Hc. rewrite Qcmult_comm, <- sum_scale.
          apply sum_ext. intros j Hj. ring.
        - rewrite sum_swap. apply sum_ext. intros j Hj. rewrite <- sum_scale. reflexivity. }
      rewrite (sum_ext n _ (fun _ => 0)); [apply sum_zero|].
      intros j Hj. rewrite Hker by exact Hj. ring.
    + f_equal. eapply invertMatrix_throw. exact HR.
Qed.

Lemma invertMatrix_inverse_or_degenerate_witness :
  (exists R, invertMatrix (map qlist [[2; 1]; [1; 1]]%Q) = Ok R /\
     multiplyMatrices R (map qlist [[2; 1]; [1; 1]]%Q) = Ok (identity 2)) /\
  invertMatrix (map qlist [[1; 2]; [2; 4]]%Q) = Throw MatrixDegenerate.
Proof.
  assert (Hsq1 : square 2 (map qlist [[2; 1]; [1; 1]]%Q)).
  { split; [reflexivity|]. intros r Hr. destruct r as [|[|r]]; [reflexivity|reflexivity|lia]. }
  assert (Hsq2 : square 2 (map qlist [[1; 2]; [2; 4]]%Q)).
  { split; [reflexivity|]. intros r Hr. destruct r as [|[|r]]; [reflexivity|reflexivity|lia]. }
  split.
  - destruct (invertMatrix (map qlist [[2; 1]; [1; 1]]%Q)) as [R|e] eqn:E;
      [|vm_compute in E; discriminate E].
    exists R. split; [reflexivity|].
    apply (proj1 (invertMatrix_inverse_or_degenerate 2 _ ltac:(lia) Hsq1)). exact E.
  - apply (proj2 (proj2 (invertMatrix_inverse_or_degenerate 2 _ ltac:(lia) Hsq2))
             (fun c => if Nat.eqb c 0 then Q2Qc 2 else Q2Qc (-1))).
    + exists 0%nat. split; [lia|]. vm_compute. discriminate.
    + intros r Hr. destruct r as [|[|r]]; [apply Qc_decomp; vm_compute; reflexivity
                                          |apply Qc_decomp; vm_compute; reflexivity|lia].
Defined.

Lemma transpose_round_trip_witness :
  exists MT, transpose (map qlist [[1; 2; 3]; [4; 5; 6]]%Q) = Ok MT /\ length MT = 3%nat /\
    (forall j, (j < 3)%nat -> length (nth j MT []) = 2%nat) /\
    transpose MT = Ok (map qlist [[1; 2; 3]; [4; 5; 6]]%Q).
Proof.
  apply (transpose_round_trip _ 2 3); [reflexivity|lia|lia|].
  intros i Hi. destruct i as [|[|i]]; [reflexivity|reflexivity|lia].
Defined.

(** *** The kernel rows: moments *)

Lemma kernel_moments q W (A AT ATA R : list (list Qc)) :
  (0 < q)%nat -> length AT = q ->
  (forall k, (k < q)%nat -> length (nth k AT []) = W) ->
  (forall k m, (k < q)%nat -> getM AT k m = getM A m k) ->
  square q ATA ->
  (forall k c, (k < q)%nat -> (c < q)%nat ->
     getM ATA k c = sum W (fun m => getM AT k m * getM A m c)) ->
  invertMatrix ATA = Ok R ->
  exists P, multiplyMatrices R AT = Ok P /\ length P = q /\
    (forall r, (r < q)%nat -> length (nth r P []) = W) /\
    (forall r c, (r < q)%nat -> (c < q)%nat ->
       sum W (fun m => getM P r m * getM A m c) = if Nat.eqb r c then 1 else 0).
Proof.
  intros Hq HlenAT HrowAT HgetAT Hsq HATA Hinv.
  destruct (invertMatrix_left_inverse q ATA R Hsq Hinv) as [HlenR [HrowR HRM]].
  eexists. split.
  { apply (multiplyMatrices_ok R AT q q W); try assumption.
    - apply HrowR. assumption.
    - apply HrowAT. assumption. }
  destruct (length_product R AT q q W) as [HlP HrP].
  split; [exact HlP|]. split; [exact HrP|].
  intros r c Hr Hc.
  rewrite (sum_ext W _ (fun m => sum q (fun k => getM R r k * getM AT k m) * getM A m c))
    by (intros m Hm; rewrite getM_product by assumption; reflexivity).
  transitivity (sum W (fun m => sum q (fun k => getM R r k * (getM AT k m * getM A m c)))).
  { apply sum_ext. intros m Hm. rewrite Qcmult_comm, <- sum_scale.
    apply sum_ext. intros k Hk. ring. }
  rewrite sum_swap.
  rewrite (sum_ext q _ (fun k => getM R r k * getM ATA k c)).
  - apply HRM; assumption.
  - intros k Hk. rewrite HATA by assumption. rewrite <- sum_scale. reflexivity.
Qed.

(** The shapes for a design matrix with [half >= 0] and [p >= 0] (the
    derivative path, which does not normalise its parameters). *)
Lemma design_kernel_shape half p :
  (0 <= half)%Z -> (0 <= p)%Z ->
  let A := design_matrix half p in
  exists AT ATA,
    transpose A = Ok AT /\ multiplyMatrices AT A = Ok ATA /\
    length AT = Z.to_nat (p + 1) /\
    (forall k, (k < Z.to_nat (p + 1))%nat -> length (nth k AT []) = Z.to_nat (2 * half + 1)) /\
    (forall k m, (k < Z.to_nat (p + 1))%nat -> getM AT k m = getM A m k) /\
    square (Z.to_nat (p + 1)) ATA /\
    (forall k c, (k < Z.to_nat (p + 1))%nat -> (c < Z.to_nat (p + 1))%nat ->
       getM ATA k c = sum (Z.to_nat (2 * half + 1)) (fun m => getM AT k m * getM A m c)).
Proof.
  intros Hh Hp A.
  set (W := Z.to_nat (2 * half + 1)). set (q := Z.to_nat (p + 1)).
  assert (HlenA : length A = W) by (unfold A; apply length_design_matrix).
  assert (HA0 : length (nth 0 A []) = q).
  { unfold A, q. apply length_design_row. lia. }
  assert (HAne : A <> []) by (intros E; rewrite E in HlenA; simpl in HlenA; unfold W in HlenA; lia).
  set (AT := map (fun i => map (fun row => nth i row 0) A) (seq 0 (length (nth 0 A [])))).
  assert (HlenAT : length AT = q) by (unfold AT; rewrite length_map, length_seq; exact HA0).
  assert (HrowAT : forall k, (k < q)%nat -> length (nth k AT []) = W).
  { intros k Hk. unfold AT. rewrite nth_map_seq by lia. rewrite length_map. exact HlenA. }
  assert (HgetAT : forall k m, (k < q)%nat -> getM AT k m = getM A m k).
  { intros k m Hk. unfold AT. apply getM_transpose. lia. }
  exists AT.
  exists (map (fun i => map (fun j => sum W (fun k => getM AT i k * getM A k j)) (seq 0 q))
              (seq 0 q)).
  split; [apply transpose_ok; exact HAne|].
  split.
  { apply multiplyMatrices_ok; try assumption; try (unfold q, W; lia).
    rewrite HrowAT by (unfold q; lia). reflexivity. }
  split; [exact HlenAT|]. split; [exact HrowAT|]. split; [exact HgetAT|].
  split.
  - destruct (length_product AT A q W q) as [H1 H2]. split; assumption.
  - intros k c Hk Hc. apply getM_product; assumption.
Qed.

Lemma length_convolve data coeffs half : length (convolve data coeffs half) = length data.
Proof. unfold convolve. rewrite length_map, length_seq. reflexivity. Qed.

(** [savitzkyGolay] with fixed parameters is the identity (the fallback)
    or a convolution with a fixed coefficient vector. *)
Lemma sg_cases ws po :
  (forall data, savitzkyGolay data ws po = Ok data) \/
  exists coeffs half, forall data, savitzkyGolay data ws po = Ok (convolve data coeffs half).
Proof.
  destruct (sg_normalize ws po) as [w p] eqn:Hn.
  destruct (sg_kernel_shape ws po w p Hn)
    as [AT [ATA [HT [HM [HW [HW3 [Hq [HlenAT [HrowAT [HgetAT [Hcol0 [Hsq HATA]]]]]]]]]]]].
  destruct (invertMatrix ATA) as [R|e] eqn:Hinv.
  - destruct (kernel_coeffs_sum_one (Z.to_nat (p + 1)) (Z.to_nat w) (design_matrix (w / 2) p)
                AT ATA R ltac:(lia) HlenAT HrowAT HgetAT Hcol0 Hsq HATA Hinv)
      as [P [HP _]].
    right. exists (nth 0 P []), (w / 2)%Z. intros [|x d]; [reflexivity|].
    unfold savitzkyGolay. rewrite Hn. cbv zeta. rewrite HT. simpl bind. rewrite HM. simpl bind.
    rewrite Hinv, HP. reflexivity.
  - left. intros [|x d]; [reflexivity|].
    unfold savitzkyGolay. rewrite Hn. cbv zeta. rewrite HT. simpl bind. rewrite HM. simpl bind.
    rewrite Hinv. reflexivity.
Qed.

(** [savitzkyGolay] never throws and returns as many samples as it gets. *)
Theorem savitzkyGolay_preserves_length (data : list Qc) (windowSize polyOrder : Q) :
  exists out, savitzkyGolay data windowSize polyOrder = Ok out /\ length out = length data.
Proof.
  destruct (sg_cases windowSize polyOrder) as [H|[c [h H]]].
  - exists data. split; [apply H|reflexivity].
  - eexists. split; [apply H|]. apply length_convolve.
Qed.

Lemma length_lincomb a b l1 l2 : length l1 = length l2 -> length (lincomb a b l1 l2) = length l1.
Proof. intros H. unfold lincomb. rewrite length_map, length_combine, H. lia. Qed.

Lemma nth_lincomb a b l1 l2 k : length l1 = length l2 -> (k < length l1)%nat ->
  nth k (lincomb a b l1 l2) 0 = a * nth k l1 0 + b * nth k l2 0.
Proof.
  revert l2 k. induction l1 as [|x l1 IH]; intros [|y l2] k Hl Hk; simpl in *; try lia.
  destruct k as [|k]; [reflexivity|]. apply IH; lia.
Qed.

Lemma lincomb_map_seq a b f g n :
  lincomb a b (map f (seq 0 n)) (map g (seq 0 n)) = map (fun i => a * f i + b * g i) (seq 0 n).
Proof.
  unfold lincomb. generalize 0%nat. induction n as [|n IH]; intros s; [reflexivity|].
  simpl. f_equal. apply IH.
Qed.

Lemma convolve_lincomb a b d1 d2 coeffs half : length d1 = length d2 ->
  convolve (lincomb a b d1 d2) coeffs half
  = lincomb a b (convolve d1 coeffs half) (convolve d2 coeffs half).
Proof.
  intros Hl. unfold convolve. rewrite length_lincomb by exact Hl. rewrite <- Hl.
  rewrite lincomb_map_seq. apply map_ext_in. intros i Hi. apply in_seq in Hi.
  rewrite <- !sum_scale, <- sum_add. apply sum_ext. intros m Hm.
  rewrite nth_lincomb by (try exact Hl; apply clamp_idx_lt; lia). ring.
Qed.

(** [savitzkyGolay] is linear: on two inputs of the same length, the
    smoothing of [a * x + b * y] is [a] times the smoothing of [x] plus [b]
    times that of [y]. *)
Theorem savitzkyGolay_linear (d1 d2 o1 o2 : list Qc) (a b : Qc) (windowSize polyOrder : Q) :
  length d1 = length d2 ->
  savitzkyGolay d1 windowSize polyOrder = Ok o1 ->
  savitzkyGolay d2 windowSize polyOrder = Ok o2 ->
  savitzkyGolay (lincomb a b d1 d2) windowSize polyOrder = Ok (lincomb a b o1 o2).
Proof.
  intros Hl H1 H2. destruct (sg_cases windowSize polyOrder) as [H|[c [h H]]].
  - rewrite H in H1, H2. injection H1 as <-. injection H2 as <-. apply H.
  - rewrite H in H1, H2. injection H1 as <-. injection H2 as <-. rewrite H.
    f_equal. apply convolve_lincomb. exact Hl.
Qed.

Lemma savitzkyGolay_linear_witness :
  savitzkyGolay (lincomb (Q2Qc 2) (Q2Qc (-3)) (qlist [1; 5; 2; 8]%Q) (qlist [0; 1; 1; 3]%Q))
    5%Q 2%Q
  = Ok (lincomb (Q2Qc 2) (Q2Qc (-3)) (qlist [16 # 7; 94 # 35; 163 # 35; 31 # 5]%Q) (qlist [9 # 35; 4 # 7; 8 # 5; 87 # 35]%Q)).
Proof.
  apply savitzkyGolay_linear; [reflexivity| |];
    apply res_vals_inj; vm_compute; reflexivity.
Defined.

(** *** Polynomials on the window *)

Lemma poly_at_zero a d : poly_at a d 0 = a 0%nat.
Proof.
  unfold poly_at. rewrite sum_shift.
  rewrite (sum_ext d _ (fun _ => 0)); [rewrite sum_zero; cbn [Qcpower]; ring|].
  intros k _. cbn [Qcpower].
  replace (Q2Qc (inject_Z 0)) with 0 by (apply Qc_decomp; reflexivity). ring.
Qed.

Lemma getM_design_matrix half p m c :
  (m < Z.to_nat (2 * half + 1))%nat -> (c < Z.to_nat (p + 1))%nat ->
  getM (design_matrix half p) m c = Qcpower (Q2Qc (inject_Z (- half + Z.of_nat m))) c.
Proof.
  intros Hm Hc. unfold getM. rewrite nth_design_matrix by exact Hm.
  rewrite nth_map_seq by exact Hc. reflexivity.
Qed.

Lemma clamp_idx_in n idx : (0 <= idx < Z.of_nat n)%Z -> clamp_idx n idx = Z.to_nat idx.
Proof.
  intros H. unfold clamp_idx.
  destruct (Z.ltb_spec idx 0); [lia|]. destruct (Z.leb_spec (Z.of_nat n) idx); [lia|].
  reflexivity.
Qed.

(** A coefficient vector with the moments of row [r] of the kernel reads,
    at an interior sample, coefficient [r] of a polynomial matching the
    data on the window. *)
Lemma convolve_poly_at (data coeffs : list Qc) (h p : Z) (a : nat -> Qc) (i r : nat) :
  (0 <= h)%Z -> (0 <= p)%Z ->
  (r < Z.to_nat (p + 1))%nat ->
  (h <= Z.of_nat i)%Z -> (Z.of_nat i + h < Z.of_nat (length data))%Z ->
  (forall j, (- h <= j <= h)%Z ->
     nth (Z.to_nat (Z.of_nat i + j)) data 0 = poly_at a (Z.to_nat p) j) ->
  (forall c, (c < Z.to_nat (p + 1))%nat ->
     sum (Z.to_nat (2 * h + 1)) (fun m => nth m coeffs 0 * getM (design_matrix h p) m c)
     = if Nat.eqb r c then 1 else 0) ->
  nth i (convolve data coeffs h) 0 = a r.
Proof.
  intros Hh Hp Hr Hi1 Hi2 Hdata Hmom.
  unfold convolve. rewrite nth_map_seq by lia.
  set (W := Z.to_nat (2 * h + 1)). set (q := Z.to_nat (p + 1)).
  transitivity (sum W (fun m => sum q (fun c => a c * getM (design_matrix h p) m c)
                                 * nth m coeffs 0)).
  { apply sum_ext. intros m Hm. f_equal.
    rewrite clamp_idx_in by lia.
    rewrite Hdata by (unfold W in Hm; lia). unfold poly_at.
    replace (S (Z.to_nat p)) with q by (unfold q; lia).
    apply sum_ext. intros c Hc. rewrite getM_design_matrix by assumption.
    replace (- h + Z.of_nat m)%Z with (Z.of_nat m - h)%Z by lia. reflexivity. }
  transitivity (sum W (fun m => sum q (fun c => a c * (nth m coeffs 0 * getM (design_matrix h p) m c)))).
  { apply sum_ext. intros m Hm. rewrite Qcmult_comm, <- sum_scale.
    apply sum_ext. intros c Hc. ring. }
  rewrite sum_swap.
  rewrite (sum_ext q _ (fun c => (if Nat.eqb r c then 1 else 0) * a c)).
  - apply sum_unit. exact Hr.
  - intros c Hc. rewrite sum_scale, Hmom by exact Hc. ring.
Qed.

(** [savitzkyGolay] reproduces polynomials of degree up to the (normalised)
    [polyOrder] at every sample whose window lies inside the data: when the
    samples [i - half .. i + half] are the values at [-half .. half] of a
    polynomial, the output at [i] is its value at [0]. *)
Theorem savitzkyGolay_reproduces_polynomials (data : list Qc) (windowSize polyOrder : Q)
    (w p : Z) (a : nat -> Qc) (i : nat) :
  sg_normalize windowSize polyOrder = (w, p) ->
  (w / 2 <= Z.of_nat i)%Z -> (Z.of_nat i + w / 2 < Z.of_nat (length data))%Z ->
  (forall j, (- (w / 2) <= j <= w / 2)%Z ->
     nth (Z.to_nat (Z.of_nat i + j)) data 0 = poly_at a (Z.to_nat p) j) ->
  exists out, savitzkyGolay data windowSize polyOrder = Ok out /\ nth i out 0 = a 0%nat.
Proof.
  intros Hn Hi1 Hi2 Hdata.
  pose proof (sg_normalize_spec windowSize polyOrder) as Hs. rewrite Hn in Hs.
  destruct Hs as [Hw3 [Hodd Hp]].
  destruct (sg_kernel_shape windowSize polyOrder w p Hn)
    as [AT [ATA [HT [HM [HW [HW3 [Hq [HlenAT [HrowAT [HgetAT [Hcol0 [Hsq HATA]]]]]]]]]]]].
  destruct data as [|x data']; [simpl in Hi2; lia|].
  unfold savitzkyGolay. rewrite Hn. cbv zeta. rewrite HT. simpl bind. rewrite HM. simpl bind.
  destruct (invertMatrix ATA) as [R|e] eqn:Hinv.
  - destruct (kernel_moments (Z.to_nat (p + 1)) (Z.to_nat w) (design_matrix (w / 2) p)
                AT ATA R ltac:(lia) HlenAT HrowAT HgetAT Hsq HATA Hinv)
      as [P [HP [HlP [HrP Hmom]]]].
    rewrite HP. simpl bind. eexists. split; [reflexivity|].
    apply (convolve_poly_at _ _ (w / 2) p a i 0); try lia; [exact Hdata|].
    intros c Hc. rewrite HW. apply Hmom; lia.
  - eexists. split; [reflexivity|].
    replace i with (Z.to_nat (Z.of_nat i + 0)) by lia.
    rewrite Hdata by lia. apply poly_at_zero.
Qed.

Lemma savitzkyGolay_reproduces_polynomials_witness :
  exists out, savitzkyGolay (qlist [0; 1; 4; 9; 16; 25; 36]%Q) 5%Q 2%Q = Ok out /\
              nth 3 out 0 = Q2Qc 9.
Proof.
  apply (savitzkyGolay_reproduces_polynomials _ 5%Q 2%Q 5 2
           (fun q => match q with 0%nat => Q2Qc 9 | 1%nat => Q2Qc 6 | _ => Q2Qc 1 end) 3);
    [reflexivity|apply Z.leb_le; reflexivity|reflexivity|].
  intros j Hj. change (5 / 2)%Z with 2%Z in Hj.
  assert (Hc : j = (-2)%Z \/ j = (-1)%Z \/ j = 0%Z \/ j = 1%Z \/ j = 2%Z) by lia.
  destruct Hc as [->|[->|[->|[->| ->]]]]; apply Qc_decomp; vm_compute; reflexivity.
Defined.

(** [calculateDerivativeSG], when the inversion of its normal matrix
    succeeds and [polyOrder >= 1], returns at every sample whose window lies
    inside the signal the slope at [0] of a polynomial (of degree up to
    [polyOrder]) that matches the window, divided by [t[1] - t[0]]. *)
Theorem calculateDerivativeSG_polynomial_slope (t signal : list Qc) (windowSize polyOrder : Q)
    (ATA R : list (list Qc)) (a : nat -> Qc) (i : nat) :
  deriv_ATA windowSize polyOrder = Ok ATA -> invertMatrix ATA = Ok R ->
  (1 <= Qfloor polyOrder)%Z -> (3 <= length signal)%nat -> nth 1 t 0 <> nth 0 t 0 ->
  (Qfloor (windowSize / 2) <= Z.of_nat i)%Z ->
  (Z.of_nat i + Qfloor (windowSize / 2) < Z.of_nat (length signal))%Z ->
  (forall j, (- Qfloor (windowSize / 2) <= j <= Qfloor (windowSize / 2))%Z ->
     nth (Z.to_nat (Z.of_nat i + j)) signal 0 = poly_at a (Z.to_nat (Qfloor polyOrder)) j) ->
  exists out, calculateDerivativeSG t signal windowSize polyOrder = Ok out /\
    nth i out 0 = a 1%nat / (nth 1 t 0 - nth 0 t 0).
Proof.
  intros HATA Hinv Hp Hn Hdt Hi1 Hi2 Hdata.
  set (h := Qfloor (windowSize / 2)) in *. set (p := Qfloor polyOrder) in *.
  assert (Hh : (0 <= h)%Z).
  { destruct (Z.leb_spec 0 h) as [H|H]; [exact H|].
    unfold deriv_ATA in HATA. fold h p in HATA.
    replace (design_matrix h p) with (@nil (list Qc)) in HATA.
    - discriminate HATA.
    - unfold design_matrix, offsets. replace (Z.to_nat (2 * h + 1)) with 0%nat by lia.
      reflexivity. }
  destruct (design_kernel_shape h p Hh ltac:(lia))
    as [AT [ATA' [HT [HM [HlenAT [HrowAT [HgetAT [Hsq HATA']]]]]]]].
  unfold deriv_ATA in HATA. fold h p in HATA. rewrite HT in HATA. simpl bind in HATA.
  rewrite HM in HATA. injection HATA as <-.
  unfold calculateDerivativeSG. destruct (Nat.ltb_spec (length signal) 3); [lia|].
  cbv zeta. fold h p. rewrite HT. simpl bind. rewrite HM. simpl bind. rewrite Hinv.
  destruct (kernel_moments (Z.to_nat (p + 1)) (Z.to_nat (2 * h + 1)) (design_matrix h p)
              AT ATA' R ltac:(lia) HlenAT HrowAT HgetAT Hsq HATA' Hinv)
    as [P [HP [HlP [HrP Hmom]]]].
  rewrite HP. simpl bind.
  destruct P as [|r0 [|r1 P']]; simpl in HlP; try lia.
  eexists. split; [reflexivity|].
  rewrite (nth_map' _ _ _ 0) by (unfold Qcdiv; ring).
  f_equal. apply (convolve_poly_at _ _ h p a i 1); try lia; [exact Hdata|].
  intros c Hc. apply (Hmom 1%nat c); lia.
Qed.

Lemma calculateDerivativeSG_polynomial_slope_witness :
  exists out, calculateDerivativeSG (qlist [0; 2; 4; 6; 8; 10; 12]%Q)
                (qlist [0; 1; 4; 9; 16; 25; 36]%Q) 5%Q 2%Q = Ok out /\
              nth 3 out 0 = Q2Qc 3.
Proof.
  destruct (deriv_ATA 5%Q 2%Q) as [ATA|e] eqn:E; [|vm_compute in E; discriminate E].
  destruct (invertMatrix ATA) as [R|e] eqn:Ei;
    [|vm_compute in E; injection E as <-; vm_compute in Ei; discriminate Ei].
  destruct (calculateDerivativeSG_polynomial_slope (qlist [0; 2; 4; 6; 8; 10; 12]%Q)
              (qlist [0; 1; 4; 9; 16; 25; 36]%Q) 5%Q 2%Q ATA R
              (fun q => match q with 0%nat => Q2Qc 9 | 1%nat => Q2Qc 6 | _ => Q2Qc 1 end) 3 E Ei)
    as [out [H1 H2]];
    [apply Z.leb_le; reflexivity|apply Nat.leb_le; reflexivity
    |intros H; apply (f_equal this) in H; vm_compute in H; discriminate H
    |apply Z.leb_le; reflexivity|apply Z.ltb_lt; reflexivity| |].
  - intros j Hj. change (Qfloor (5 / 2)) with 2%Z in Hj.
    assert (Hc : j = (-2)%Z \/ j = (-1)%Z \/ j = 0%Z \/ j = 1%Z \/ j = 2%Z) by lia.
    destruct Hc as [->|[->|[->|[->| ->]]]]; apply Qc_decomp; vm_compute; reflexivity.
  - exists out. split; [exact H1|]. rewrite H2. apply Qc_decomp. vm_compute. reflexivity.
Defined.

(** *** Baseline removal *)

Lemma fold_plus_shift l a : fold_left Qcplus l a = a + list_sum l.
Proof.
  unfold list_sum. revert a. induction l as [|x l IH]; intros a; simpl; [ring|].
  rewrite IH, (IH (0 + x)). ring.
Qed.

Lemma Qc_of_nat_S k : Qc_of_nat (S k) = 1 + Qc_of_nat k.
Proof.
  apply Qc_is_canon. unfold Qc_of_nat. cbn [this Qcplus Q2Qc]. rewrite !Qred_correct.
  rewrite Nat2Z.inj_succ, <- Z.add_1_l, inject_Z_plus. reflexivity.
Qed.

Lemma Qc_of_nat_pos k : (0 < k)%nat -> 0 < Qc_of_nat k.
Proof.
  intros Hk. unfold Qclt, Qc_of_nat, Q2Qc. cbn [this].
  rewrite (Qred_correct (inject_Z _)). unfold Qlt. simpl. lia.
Qed.

Lemma list_sum_map_sub l x :
  list_sum (map (fun v => v - x) l) = list_sum l - Qc_of_nat (length l) * x.
Proof.
  induction l as [|y l IH].
  - unfold list_sum. simpl. unfold Qc_of_nat. simpl.
    replace (Q2Qc (inject_Z 0)) with 0 by (apply Qc_decomp; reflexivity). ring.
  - cbn [map length]. unfold list_sum in *. cbn [fold_left].
    rewrite !fold_plus_shift. unfold list_sum. rewrite IH, Qc_of_nat_S. ring.
Qed.

Lemma firstn_min {T} (l : list T) N : firstn (Nat.min (length l) N) l = firstn N l.
Proof.
  destruct (Nat.le_ge_cases (length l) N) as [H|H].
  - rewrite Nat.min_l by exact H. rewrite firstn_all, firstn_all2 by exact H. reflexivity.
  - rewrite Nat.min_r by exact H. reflexivity.
Qed.

(** [removeBaseline(arr, N)] with [N >= 1] on a non-empty [arr] returns
    numbers, as many as [arr] has; the first [N] of them (all of them when
    there are fewer) sum to [0], and removing the baseline again changes
    nothing.  With [N = 0] every sample becomes [NaN]. *)
Theorem removeBaseline_centres (arr : list Qc) (N : nat) :
  removeBaseline arr 0 = map (fun _ => JNaN) arr /\
  ((0 < N)%nat -> arr <> [] ->
   exists out, removeBaseline arr N = map JNum out /\ length out = length arr /\
     list_sum (firstn N out) = 0 /\ removeBaseline out N = map JNum out).
Proof.
  split.
  - unfold removeBaseline. rewrite Nat.min_0_r. reflexivity.
  - intros HN Harr.
    assert (Hc : (0 < Nat.min (length arr) N)%nat).
    { destruct arr; [contradiction|]. simpl length. lia. }
    set (c := Nat.min (length arr) N) in *.
    set (avg := list_sum (firstn c arr) / Qc_of_nat c).
    set (out := map (fun v => v - avg) arr).
    assert (Hlen : length out = length arr) by (unfold out; apply length_map).
    assert (Hcz : Qc_of_nat c <> 0).
    { intros E. pose proof (Qc_of_nat_pos c Hc) as H. rewrite E in H.
      unfold Qclt in H. apply (Qlt_irrefl _ H). }
    assert (Hsum : list_sum (firstn N out) = 0).
    { unfold out. rewrite firstn_map. rewrite <- (firstn_min arr N). fold c.
      rewrite list_sum_map_sub, length_firstn.
      replace (Nat.min c (length arr)) with c by (unfold c; lia).
      unfold avg. field. exact Hcz. }
    assert (Hrm : removeBaseline arr N = map JNum out).
    { unfold removeBaseline. fold c. destruct (Nat.eqb_spec c 0); [lia|].
      fold avg. unfold out. rewrite map_map. reflexivity. }
    exists out. split; [exact Hrm|]. split; [exact Hlen|]. split; [exact Hsum|].
    unfold removeBaseline. rewrite Hlen. fold c. destruct (Nat.eqb_spec c 0); [lia|].
    replace (firstn c out) with (firstn N out)
      by (unfold c; rewrite <- Hlen; symmetry; apply firstn_min).
    rewrite Hsum. apply map_ext. intros v. f_equal.
    unfold Qcdiv. ring.
Qed.

Lemma removeBaseline_centres_witness :
  exists out, removeBaseline (qlist [1; 3; 8]%Q) 2 = map JNum out /\ length out = 3%nat /\
     list_sum (firstn 2 out) = 0 /\ removeBaseline out 2 = map JNum out.
Proof. apply (proj2 (removeBaseline_centres (qlist [1; 3; 8]%Q) 2)); [lia|discriminate]. Defined.

(** *** Rational inequalities *)

Ltac qc_to_q := unfold Qclt, Qcle in *;
  cbn [this Qcplus Qcmult Qcminus Qcopp Qcdiv Qcinv Q2Qc] in *;
  repeat rewrite Qred_correct in *.

Lemma mul_neg_cases y1 y2 : y1 * y2 < 0 -> (y1 < 0 /\ 0 < y2) \/ (0 < y1 /\ y2 < 0).
Proof.
  intros H. qc_to_q. change (this 0) with 0%Q in *.
  set (a := this y1) in *. set (b := this y2) in *. clearbody a b.
  destruct (Qlt_le_dec a 0) as [Ha|Ha].
  - destruct (Qlt_le_dec 0 b) as [Hb|Hb]; [left; split; assumption|exfalso; nra].
  - destruct (Qlt_le_dec b 0) as [Hb|Hb].
    + destruct (Qlt_le_dec 0 a) as [Ha'|Ha']; [right; split; assumption|exfalso; nra].
    + exfalso; nra.
Qed.

Lemma ratio_in (u v : Qc) : 0 <= u -> u < v -> 0 <= u / v /\ u / v < 1 /\ (0 < u -> 0 < u / v).
Proof.
  intros Hu Huv. unfold Qcdiv. qc_to_q. change (this 0) with 0%Q in *.
  assert (Hv : (0 < this v)%Q) by lra.
  split; [|split].
  - apply Qmult_le_0_compat; [exact Hu|]. apply Qlt_le_weak, Qinv_lt_0_compat. exact Hv.
  - apply Qlt_shift_div_r; [exact Hv|]. lra.
  - intros Hu'. apply Qmult_lt_0_compat; [exact Hu'|]. apply Qinv_lt_0_compat. exact Hv.
Qed.

Lemma lerp_between x1 x2 r : x1 < x2 -> 0 <= r -> r < 1 ->
  x1 <= x1 + r * (x2 - x1) /\ x1 + r * (x2 - x1) < x2 /\ (0 < r -> x1 < x1 + r * (x2 - x1)).
Proof.
  intros H12 Hr0 Hr1. qc_to_q. change (this 0) with 0%Q in *. change (this 1) with 1%Q in *.
  set (a := this x1) in *. set (b := this x2) in *. set (c := this r) in *. clearbody a b c.
  split; [|split]; [nra|nra|intros; nra].
Qed.

Lemma lt_sub_nz a b : a < b -> b - a <> 0.
Proof.
  intros H E. assert (b = a) as -> by (transitivity (a + (b - a)); [ring|rewrite E; ring]).
  unfold Qclt in H. apply (Qlt_irrefl _ H).
Qed.

Lemma Qclt_trans' a b c : a < b -> b < c -> a < c.
Proof. unfold Qclt. apply Qlt_trans. Qed.

Lemma chord_zero x1 x2 y1 y2 : x1 < x2 -> y1 * y2 < 0 ->
  x1 < x1 - y1 * (x2 - x1) / (y2 - y1) /\ x1 - y1 * (x2 - x1) / (y2 - y1) < x2 /\
  lerp y1 y2 ((x1 - y1 * (x2 - x1) / (y2 - y1) - x1) / (x2 - x1)) = 0.
Proof.
  intros H12 Hy.
  assert (Hx : x2 - x1 <> 0) by (apply lt_sub_nz; exact H12).
  assert (Hcases := mul_neg_cases y1 y2 Hy).
  assert (Hd : y2 - y1 <> 0).
  { destruct Hcases as [[Ha Hb]|[Ha Hb]].
    - apply lt_sub_nz. eapply Qclt_trans'; eassumption.
    - intros E. apply (lt_sub_nz y2 y1); [eapply Qclt_trans'; eassumption|].
      transitivity (- (y2 - y1)); [ring|rewrite E; ring]. }
  assert (Hz : x1 - y1 * (x2 - x1) / (y2 - y1) = x1 + (- y1 / (y2 - y1)) * (x2 - x1))
    by (field; exact Hd).
  assert (Hr : 0 < - y1 / (y2 - y1) /\ - y1 / (y2 - y1) < 1).
  { destruct Hcases as [[Ha Hb]|[Ha Hb]].
    - destruct (ratio_in (- y1) (y2 - y1)) as [_ [H1 H2]];
        [qc_to_q; change (this 0) with 0%Q in *; lra
        |qc_to_q; change (this 0) with 0%Q in *; lra|].
      split; [apply H2; qc_to_q; change (this 0) with 0%Q in *; lra|exact H1].
    - replace (- y1 / (y2 - y1)) with (y1 / (y1 - y2)).
      + destruct (ratio_in y1 (y1 - y2)) as [_ [H1 H2]];
          [qc_to_q; change (this 0) with 0%Q in *; lra
          |qc_to_q; change (this 0) with 0%Q in *; lra|].
        split; [apply H2; exact Ha|exact H1].
      + field. split; [exact Hd|]. intros E. apply Hd.
        transitivity (- (y1 - y2)); [ring|rewrite E; ring]. }
  destruct Hr as [Hr0 Hr1].
  destruct (lerp_between x1 x2 (- y1 / (y2 - y1)) H12) as [_ [Hb Hc]];
    [qc_to_q; change (this 0) with 0%Q in *; lra|exact Hr1|].
  rewrite Hz. split; [apply Hc; exact Hr0|]. split; [exact Hb|].
  unfold lerp. field. split; assumption.
Qed.

Lemma increasing_snoc l z :
  increasing l -> Forall (fun y => y < z) l -> increasing (l ++ [z]).
Proof.
  induction l as [|a l IH]; intros Hinc Hall; [exact I|].
  destruct l as [|b l'].
  - simpl. split; [inversion Hall; assumption|exact I].
  - destruct Hinc as [Hab Hinc]. inversion Hall as [|? ? Ha Hall']; subst.
    change ((a :: b :: l') ++ [z]) with (a :: ((b :: l') ++ [z])).
    change ((b :: l') ++ [z]) with (b :: (l' ++ [z])).
    split; [exact Hab|]. apply IH; assumption.
Qed.

(** [findZeroCrossings] on strictly increasing sample times: [y0] is all
    zeros, one per crossing; the crossing times increase strictly; and each
    lies strictly between the two samples [i - 1] and [i] where
    [interf] changes sign, at the zero of the chord between them. *)
Theorem findZeroCrossings_brackets (t interf : list Qc) :
  length t = length interf ->
  (forall k, (S k < length t)%nat -> nth k t 0 < nth (S k) t 0) ->
  snd (findZeroCrossings t interf) = repeat 0 (length (fst (findZeroCrossings t interf))) /\
  increasing (fst (findZeroCrossings t interf)) /\
  Forall (fun z => exists i, (0 < i < length t)%nat /\
            nth (i - 1) interf 0 * nth i interf 0 < 0 /\
            nth (i - 1) t 0 < z < nth i t 0 /\
            lerp (nth (i - 1) interf 0) (nth i interf 0)
                 ((z - nth (i - 1) t 0) / (nth i t 0 - nth (i - 1) t 0)) = 0)
         (fst (findZeroCrossings t interf)).
Proof.
  intros Hlen Hmono. unfold findZeroCrossings.
  match goal with |- context [fold_left ?F (seq 1 ?k) ?a] => set (f := F) end.
  set (Br := fun z => exists i, (0 < i < length t)%nat /\
            nth (i - 1) interf 0 * nth i interf 0 < 0 /\
            nth (i - 1) t 0 < z < nth i t 0 /\
            lerp (nth (i - 1) interf 0) (nth i interf 0)
                 ((z - nth (i - 1) t 0) / (nth i t 0 - nth (i - 1) t 0)) = 0).
  assert (Hinv : forall m, (m <= length interf - 1)%nat ->
    let p := fold_left f (seq 1 m) ([], []) in
    snd p = repeat 0 (length (fst p)) /\ increasing (fst p) /\ Forall Br (fst p) /\
    Forall (fun z => z < nth m t 0) (fst p)).
  { induction m as [|m IH]; intros Hm.
    - simpl. split; [reflexivity|]. split; [exact I|]. split; constructor.
    - cbv zeta in *. rewrite seq_S, fold_left_app.
      destruct (IH ltac:(lia)) as [Hy [Hinc [Hbr Hlt]]].
      destruct (fold_left f (seq 1 m) ([], [])) as [t0 y0]. cbn [fst snd] in *.
      cbn [fold_left]. unfold f. replace (1 + m - 1)%nat with m by lia.
      replace (1 + m)%nat with (S m) by lia.
      assert (Hstep : nth m t 0 < nth (S m) t 0) by (apply Hmono; lia).
      destruct (Qcltb (nth m interf 0 * nth (S m) interf 0) 0) eqn:Hc; cbn [fst snd].
      + apply Qcltb_true in Hc.
        destruct (chord_zero (nth m t 0) (nth (S m) t 0) (nth m interf 0) (nth (S m) interf 0)
                    Hstep Hc) as [Hz1 [Hz2 Hz3]].
        split; [rewrite length_app, repeat_app, Hy; reflexivity|].
        split; [apply increasing_snoc; [exact Hinc|]|split].
        * eapply Forall_impl; [|exact Hlt]. intros y Hy'. apply (Qclt_trans' _ (nth m t 0)); assumption.
        * apply Forall_app. split; [exact Hbr|]. constructor; [|constructor].
          exists (S m). replace (S m - 1)%nat with m by lia.
          split; [lia|]. split; [exact Hc|]. idtac. split; [split; [exact Hz1|exact Hz2]|exact Hz3].
        * apply Forall_app. split.
          -- eapply Forall_impl; [|exact Hlt]. intros y Hy'. apply (Qclt_trans' _ (nth m t 0)); assumption.
          -- constructor; [exact Hz2|constructor].
      + split; [exact Hy|]. split; [exact Hinc|]. split; [exact Hbr|].
        eapply Forall_impl; [|exact Hlt]. intros y Hy'. apply (Qclt_trans' _ (nth m t 0)); assumption. }
  destruct (Hinv (length interf - 1)%nat ltac:(lia)) as [Hy [Hinc [Hbr _]]].
  split; [exact Hy|]. split; [exact Hinc|exact Hbr].
Qed.

Lemma findZeroCrossings_brackets_witness :
  fst (findZeroCrossings (qlist [0; 1; 2; 3]%Q) (qlist [1; -1; -3; 1]%Q)) = qlist [1 # 2; 11 # 4]%Q /\
  increasing (fst (findZeroCrossings (qlist [0; 1; 2; 3]%Q) (qlist [1; -1; -3; 1]%Q))).
Proof.
  split; [apply map_this_inj; vm_compute; reflexivity|].
  apply (findZeroCrossings_brackets (qlist [0; 1; 2; 3]%Q) (qlist [1; -1; -3; 1]%Q));
    [reflexivity|].
  intros k Hk. destruct k as [|[|[|k]]]; simpl in Hk; try lia;
    apply Qcltb_true; reflexivity.
Defined.

(** *** Subsequences *)

Lemma subseq_refl {A} (l : list A) : subseq l l.
Proof. induction l; constructor; assumption. Qed.

Lemma subseq_trans {A} (a b c : list A) : subseq a b -> subseq b c -> subseq a c.
Proof.
  intros H1 H2. revert a H1. induction H2 as [|x l l' H IH|x l l' H IH]; intros a H1.
  - exact H1.
  - apply subseq_skip. apply IH. exact H1.
  - inversion H1 as [|? ? ? H1'|? a' ? H1']; subst.
    + apply subseq_skip. apply IH. exact H1'.
    + apply subseq_keep. apply IH. exact H1'.
Qed.

Lemma subseq_app_r {A} (l l' : list A) x : subseq l l' -> subseq l (l' ++ [x]).
Proof.
  induction 1; simpl; [apply subseq_skip, subseq_nil|apply subseq_skip|apply subseq_keep];
    assumption.
Qed.

Lemma subseq_snoc {A} (l l' : list A) x : subseq l l' -> subseq (l ++ [x]) (l' ++ [x]).
Proof.
  induction 1; simpl; [apply subseq_keep, subseq_nil|apply subseq_skip|apply subseq_keep];
    assumption.
Qed.

Lemma subseq_length {A} (l l' : list A) : subseq l l' -> (length l <= length l')%nat.
Proof. induction 1; simpl; lia. Qed.

Lemma combine_snoc {A B} (l1 : list A) (l2 : list B) a b :
  length l1 = length l2 -> combine (l1 ++ [a]) (l2 ++ [b]) = combine l1 l2 ++ [(a, b)].
Proof.
  revert l2. induction l1 as [|x l1 IH]; intros [|y l2] H; simpl in H; try discriminate.
  - reflexivity.
  - simpl. rewrite IH by lia. reflexivity.
Qed.

Section FilterClosePointsSubseq.

Context {Y : Type} (undef : Y).

Lemma fcp_fold_subseq (T : list Qc) (Yl : list Y) d k : forall m acc,
  (m + k <= length T)%nat -> length Yl = length T ->
  length (snd acc) = length (fst acc) ->
  subseq (combine (fst acc) (snd acc)) (combine (firstn m T) (firstn m Yl)) ->
  let r := fold_left (fcp_step undef T Yl d) (seq m k) acc in
  length (snd r) = length (fst r) /\
  subseq (combine (fst r) (snd r)) (combine (firstn (m + k) T) (firstn (m + k) Yl)) /\
  exists s, fst r = fst acc ++ s.
Proof.
  induction k as [|k IH]; intros m [nT nY] Hk HY Hl Hs; cbv zeta.
  - cbn [seq fold_left]. rewrite Nat.add_0_r. split; [exact Hl|]. split; [exact Hs|].
    exists []. rewrite app_nil_r. reflexivity.
  - cbn [seq fold_left]. replace (m + S k)%nat with (S m + k)%nat by lia.
    cbn [fst snd] in Hl, Hs.
    assert (Hst : fcp_step undef T Yl d (nT, nY) m =
      if Qcleb d (nth m T 0 - last nT 0)
      then (nT ++ [nth m T 0], nY ++ [nth m Yl undef]) else (nT, nY)) by reflexivity.
    rewrite Hst. clear Hst.
    destruct (Qcleb d (nth m T 0 - last nT 0)).
    + edestruct (IH (S m) (nT ++ [nth m T 0], nY ++ [nth m Yl undef])) as [H1 [H2 [s Hs']]].
      * lia.
      * exact HY.
      * cbn [fst snd]. rewrite !length_app. simpl. lia.
      * cbn [fst snd]. rewrite (firstn_S_nth T m 0) by lia.
        rewrite (firstn_S_nth Yl m undef) by lia.
        rewrite !combine_snoc by (try rewrite !length_firstn; lia).
        apply subseq_snoc. exact Hs.
      * split; [exact H1|]. split; [exact H2|]. exists ([nth m T 0] ++ s).
        rewrite Hs'. cbn [fst]. rewrite app_assoc. reflexivity.
    + edestruct (IH (S m) (nT, nY)) as [H1 [H2 H3]].
      * lia.
      * exact HY.
      * exact Hl.
      * cbn [fst snd]. rewrite (firstn_S_nth T m 0) by lia.
        rewrite (firstn_S_nth Yl m undef) by lia.
        rewrite combine_snoc by (rewrite !length_firstn; lia).
        apply subseq_app_r. exact Hs.
      * split; [exact H1|]. split; [exact H2|exact H3].
Qed.

Lemma fcp_pass_subseq (T : list Qc) (Yl : list Y) d :
  T <> [] -> length Yl = length T ->
  let r := fcp_pass undef T Yl d in
  length (snd r) = length (fst r) /\ subseq (combine (fst r) (snd r)) (combine T Yl) /\
  fst r <> [] /\ hd 0 (fst r) = hd 0 T.
Proof.
  intros Hne HY. cbv zeta. unfold fcp_pass.
  destruct T as [|a T']; [contradiction|]. destruct Yl as [|b Yl']; [simpl in HY; lia|].
  edestruct (fcp_fold_subseq (a :: T') (b :: Yl') d (length (a :: T') - 1) 1
               ([nth 0 (a :: T') 0]%list, [nth 0 (b :: Yl') undef]%list)) as [H1 [H2 [s Hs]]].
  - simpl. lia.
  - exact HY.
  - reflexivity.
  - apply subseq_refl.
  - replace (1 + (length (a :: T') - 1))%nat with (length (a :: T')) in H2 by (simpl; lia).
    rewrite firstn_all in H2. rewrite (firstn_all2 (b :: Yl')) in H2 by lia.
    split; [exact H1|]. split; [exact H2|]. rewrite Hs. simpl.
    split; [discriminate|reflexivity].
Qed.

Lemma fcp_loop_subseq d k : forall (T : list Qc) (Yl : list Y),
  T <> [] -> length Yl = length T ->
  let r := fcp_loop undef k T Yl d in
  length (snd r) = length (fst r) /\ subseq (combine (fst r) (snd r)) (combine T Yl) /\
  fst r <> [] /\ hd 0 (fst r) = hd 0 T.
Proof.
  induction k as [|k IH]; intros T Yl Hne HY; cbv zeta.
  - simpl. split; [exact HY|]. split; [apply subseq_refl|]. split; [exact Hne|reflexivity].
  - cbn [fcp_loop]. destruct (fcp_pass_subseq T Yl d Hne HY) as [H1 [H2 [H3 H4]]].
    destruct (fcp_pass undef T Yl d) as [T' Y'] eqn:P. cbn [fst snd] in *.
    destruct (Nat.eqb (length T') (length T)).
    + simpl. split; [exact HY|]. split; [apply subseq_refl|]. split; [exact Hne|reflexivity].
    + destruct (IH T' Y' H3 H1) as [G1 [G2 [G3 G4]]].
      split; [exact G1|]. split; [eapply subseq_trans; eassumption|].
      split; [exact G3|]. rewrite G4. exact H4.
Qed.

End FilterClosePointsSubseq.

(** [filterClosePoints] only deletes roots: when [y0] has one value per
    time of [t0], the kept times and values stay paired and in order (the
    pairs form a subsequence of the input pairs), and the first root is
    always kept. *)
Theorem filterClosePoints_subsequence {Y : Type} (undef : Y) (t0 : list Qc) (y0 : list Y)
    (minDistance : Qc) :
  length y0 = length t0 ->
  let r := filterClosePoints undef t0 y0 minDistance in
  length (snd r) = length (fst r) /\
  subseq (combine (fst r) (snd r)) (combine t0 y0) /\
  hd 0 (fst r) = hd 0 t0.
Proof.
  intros HY. cbv zeta. unfold filterClosePoints.
  destruct (length t0 <=? 1) eqn:E.
  - simpl. split; [exact HY|]. split; [apply subseq_refl|reflexivity].
  - apply Nat.leb_gt in E.
    destruct (fcp_loop_subseq undef minDistance 10 t0 y0) as [H1 [H2 [_ H4]]].
    + intros ->. simpl in E. lia.
    + exact HY.
    + split; [exact H1|]. split; [exact H2|exact H4].
Qed.

Lemma filterClosePoints_subsequence_witness :
  filterClosePoints 0 (qlist [0; 1 # 2; 3; 7 # 2]%Q) (qlist [1; 2; 3; 4]%Q) 1
  = (qlist [0; 3]%Q, qlist [1; 3]%Q) /\
  subseq (combine (qlist [0; 3]%Q) (qlist [1; 3]%Q))
         (combine (qlist [0; 1 # 2; 3; 7 # 2]%Q) (qlist [1; 2; 3; 4]%Q)).
Proof.
  assert (E : filterClosePoints 0 (qlist [0; 1 # 2; 3; 7 # 2]%Q) (qlist [1; 2; 3; 4]%Q) 1
              = (qlist [0; 3]%Q, qlist [1; 3]%Q)) by (vm_compute; reflexivity).
  split; [exact E|].
  destruct (filterClosePoints_subsequence 0 (qlist [0; 1 # 2; 3; 7 # 2]%Q)
              (qlist [1; 2; 3; 4]%Q) 1 eq_refl) as [_ [H _]].
  rewrite E in H. exact H.
Defined.

(** *** [findJumpByDerivative] *)

Lemma Qcltb_false_le x y : Qcltb x y = false -> y <= x.
Proof.
  unfold Qcltb, Qcle. intros H. apply negb_false_iff in H. apply Qle_bool_iff. exact H.
Qed.

Lemma fjd_argmax (l : list Qc) k : (k < length l)%nat ->
  let r := fold_left (fun '(mi, ms) i =>
                        if Qcltb (Qcabs ms) (Qcabs (nth i l 0))
                        then (i, nth i l 0) else (mi, ms))
                     (seq 1 k) (0%nat, nth 0 l 0) in
  (fst r <= k)%nat /\ snd r = nth (fst r) l 0 /\
  (forall j, (j <= k)%nat -> Qcabs (nth j l 0) <= Qcabs (snd r)) /\
  (forall j, (j < fst r)%nat -> Qcabs (nth j l 0) < Qcabs (snd r)).
Proof.
  induction k as [|k IH]; intros Hk; cbv zeta.
  - simpl. split; [lia|]. split; [reflexivity|]. split; [|intros; lia].
    intros j Hj. replace j with 0%nat by lia. apply Qcle_refl.
  - rewrite seq_S, fold_left_app. cbv zeta in IH.
    destruct (IH ltac:(lia)) as [H1 [H2 [H3 H4]]].
    destruct (fold_left _ (seq 1 k) (0%nat, nth 0 l 0)) as [mi ms]. cbn [fst snd] in *.
    cbn [fold_left]. replace (1 + k)%nat with (S k) by lia.
    destruct (Qcltb (Qcabs ms) (Qcabs (nth (S k) l 0))) eqn:E; cbn [fst snd].
    + apply Qcltb_true in E.
      split; [lia|]. split; [reflexivity|]. split.
      * intros j Hj. destruct (Nat.eq_dec j (S k)) as [->|Hne]; [apply Qcle_refl|].
        apply Qclt_le_weak. apply (Qcle_lt_trans _ (Qcabs ms)); [apply H3; lia|exact E].
      * intros j Hj. apply (Qcle_lt_trans _ (Qcabs ms)); [apply H3; lia|exact E].
    + apply Qcltb_false_le in E.
      split; [lia|]. split; [exact H2|]. split; [|exact H4].
      intros j Hj. destruct (Nat.eq_dec j (S k)) as [->|Hne]; [exact E|]. apply H3. lia.
Qed.

Lemma fjd_walk_spec (sl : list Qc) sg th m :
  let s := fjd_walk sl sg th m in
  (s <= m)%nat /\
  (forall j, (s <= j < m)%nat -> js_sign (nth j sl 0) = sg /\ th <= Qcabs (nth j sl 0)) /\
  (s = 0%nat \/ js_sign (nth (s - 1) sl 0) <> sg \/ Qcabs (nth (s - 1) sl 0) < th).
Proof.
  induction m as [|k IH]; cbv zeta; cbn [fjd_walk].
  - split; [lia|]. split; [intros; lia|left; reflexivity].
  - destruct (negb (Z.eqb (js_sign (nth k sl 0)) sg) || Qcltb (Qcabs (nth k sl 0)) th) eqn:E.
    + split; [lia|]. split; [intros; lia|right].
      replace (S k - 1)%nat with k by lia.
      apply orb_true_iff in E. destruct E as [E|E].
      * left. apply negb_true_iff, Z.eqb_neq in E. exact E.
      * right. apply Qcltb_true. exact E.
    + apply orb_false_iff in E. destruct E as [E1 E2].
      apply negb_false_iff, Z.eqb_eq in E1. apply Qcltb_false_le in E2.
      cbv zeta in IH. destruct IH as [H1 [H2 H3]].
      split; [lia|]. split; [|exact H3].
      intros j Hj. destruct (Nat.eq_dec j k) as [->|Hne]; [split; assumption|].
      apply H2. lia.
Qed.

(** [findJumpByDerivative] returns [null] exactly when there is no slope
    (fewer than two samples).  Otherwise its result [s] is found from the
    first slope [m] of largest absolute value (every earlier slope strictly
    smaller, no slope larger) by walking back while the previous slope has
    the sign of slope [m] ([+1] for a zero slope) and at least [0.35] of its
    absolute value; the walk stops at [0] or at the first slope that fails
    the test. *)
Theorem findJumpByDerivative_walks_back (t signal : list Qc) :
  (findJumpByDerivative t signal = None <-> (length signal <= 1)%nat) /\
  forall s, findJumpByDerivative t signal = Some s ->
  let sl := jump_slopes t signal in
  exists m, (s <= m < length sl)%nat /\
    (forall j, (j < length sl)%nat -> Qcabs (nth j sl 0) <= Qcabs (nth m sl 0)) /\
    (forall j, (j < m)%nat -> Qcabs (nth j sl 0) < Qcabs (nth m sl 0)) /\
    (forall j, (s <= j < m)%nat ->
       js_sign (nth j sl 0) = match js_sign (nth m sl 0) with 0%Z => 1%Z | z => z end /\
       Qcabs (nth m sl 0) * Q2Qc (35 # 100) <= Qcabs (nth j sl 0)) /\
    (s = 0%nat \/
     js_sign (nth (s - 1) sl 0) <> match js_sign (nth m sl 0) with 0%Z => 1%Z | z => z end \/
     Qcabs (nth (s - 1) sl 0) < Qcabs (nth m sl 0) * Q2Qc (35 # 100)).
Proof.
  assert (Hlen : length (jump_slopes t signal) = (length signal - 1)%nat)
    by (unfold jump_slopes; rewrite length_map, length_seq; reflexivity).
  unfold findJumpByDerivative. fold (jump_slopes t signal).
  destruct (jump_slopes t signal) as [|s0 rest] eqn:E.
  - simpl in Hlen. split; [split; [intros _; lia|reflexivity]|]. intros s H. discriminate H.
  - simpl in Hlen. split.
    + split; [|intros; lia].
      destruct (fold_left _ _ _) as [mi ms]. intros H. discriminate H.
    + intros s Hs. cbv zeta. revert Hs.
      pose proof (fjd_argmax (s0 :: rest) (length (s0 :: rest) - 1) ltac:(simpl; lia)) as HA.
      cbv zeta in HA. change (nth 0 (s0 :: rest) 0) with s0 in HA.
      destruct (fold_left _ (seq 1 (length (s0 :: rest) - 1)) (0%nat, s0))
        as [mi ms] eqn:F.
      cbn [fst snd] in HA. destruct HA as [H1 [H2 [H3 H4]]].
      intros Hs. injection Hs as Hs. subst ms.
      pose proof (fjd_walk_spec (s0 :: rest)
                    (match js_sign (nth mi (s0 :: rest) 0) with 0%Z => 1%Z | z => z end)
                    (Qcabs (nth mi (s0 :: rest) 0) * Q2Qc (35 # 100)) mi) as HW.
      cbv zeta in HW. rewrite Hs in HW. destruct HW as [W1 [W2 W3]].
      exists mi. split; [simpl in H1 |- *; lia|].
      split; [intros j Hj; apply H3; simpl in Hj |- *; lia|].
      split; [exact H4|]. split; [exact W2|exact W3].
Qed.

Lemma findJumpByDerivative_walks_back_witness :
  findJumpByDerivative (qlist [0; 1; 2; 3; 4]%Q) (qlist [0; 0; 1; 3; 3]%Q) = Some 1%nat /\
  exists m, (1 <= m < length (jump_slopes (qlist [0; 1; 2; 3; 4]%Q) (qlist [0; 0; 1; 3; 3]%Q)))%nat.
Proof.
  assert (E : findJumpByDerivative (qlist [0; 1; 2; 3; 4]%Q) (qlist [0; 0; 1; 3; 3]%Q)
              = Some 1%nat) by (vm_compute; reflexivity).
  split; [exact E|].
  destruct (proj2 (findJumpByDerivative_walks_back (qlist [0; 1; 2; 3; 4]%Q)
                     (qlist [0; 0; 1; 3; 3]%Q)) 1%nat E) as [m [Hm _]].
  exists m. exact Hm.
Defined.

(** *** [findLargestJumpStart] *)

Lemma sg_ok_length data ws po :
  exists out, savitzkyGolay data ws po = Ok out /\ length out = length data.
Proof.
  destruct (sg_cases ws po) as [H|[c [h H]]].
  - exists data. split; [apply H|reflexivity].
  - eexists. split; [apply H|]. apply length_convolve.
Qed.

Lemma first_at_or_below_range l th i k :
  first_at_or_below l th i = Some k -> (i <= k < i + length l)%nat.
Proof.
  revert i. induction l as [|v l IH]; intros i H; simpl in H; [discriminate H|].
  destruct (Qcleb v th).
  - injection H as <-. simpl. lia.
  - apply IH in H. simpl. lia.
Qed.

Lemma eps6_pos : 0 < eps6.
Proof. apply Qcltb_true. reflexivity. Qed.

(** [findLargestJumpStart] never throws.  When it finds a start, its [time]
    is one of the sample times [t[s]] and its [window] is positive (the
    time span around [s], or [1e-6] when that span is not positive). *)
Theorem findLargestJumpStart_sample_time (t signal : list Qc) :
  (exists r, findLargestJumpStart t signal = Ok r) /\
  forall time window, findLargestJumpStart t signal = Ok (Some (time, window)) ->
    0 < window /\ exists s, (s < length t)%nat /\ time = nth s t 0.
Proof.
  unfold findLargestJumpStart.
  destruct ((length t <? 3) || negb (Nat.eqb (length t) (length signal))) eqn:Hc.
  - split; [eexists; reflexivity|]. intros time window H. discriminate H.
  - apply orb_false_iff in Hc. destruct Hc as [H3 Heq].
    apply negb_false_iff, Nat.eqb_eq in Heq. apply Nat.ltb_ge in H3.
    destruct (sg_ok_length signal 11%Q 2%Q) as [sm [Hsm Hlsm]]. rewrite Hsm. cbn [bind].
    assert (Hs : forall s, match amplitude_start_index sm with
                           | Some i => Some i
                           | None => findJumpByDerivative t sm end = Some s ->
                           (s < length t)%nat).
    { intros s. destruct (amplitude_start_index sm) as [i|] eqn:A.
      - intros H. injection H as <-. unfold amplitude_start_index in A.
        destruct (Qcltb 0 _) in A; [|discriminate A].
        apply first_at_or_below_range in A. lia.
      - intros H. unfold findJumpByDerivative in H.
        fold (jump_slopes t sm) in H.
        assert (Hl : length (jump_slopes t sm) = (length sm - 1)%nat)
          by (unfold jump_slopes; rewrite length_map, length_seq; reflexivity).
        destruct (jump_slopes t sm) as [|s0 rest] eqn:E; [discriminate H|].
        destruct (fold_left _ _ _) as [mi ms] eqn:F.
        injection H as <-.
        pose proof (fjd_argmax (s0 :: rest) (length (s0 :: rest) - 1) ltac:(simpl; lia)) as HA.
        cbv zeta in HA. change (nth 0 (s0 :: rest) 0) with s0 in HA. rewrite F in HA.
        destruct HA as [H1 _].
        pose proof (fjd_walk_spec (s0 :: rest)
                      (match js_sign ms with 0%Z => 1%Z | z => z end)
                      (Qcabs ms * Q2Qc (35 # 100)) mi) as [W1 _].
        simpl in H1, Hl. lia. }
    destruct (match amplitude_start_index sm with
              | Some i => Some i
              | None => findJumpByDerivative t sm end) as [s|] eqn:Hsel.
    + split; [eexists; reflexivity|]. intros time window H.
      injection H as <- <-. split.
      * destruct (Qcltb 0 _) eqn:Ew; [apply Qcltb_true; exact Ew|exact eps6_pos].
      * exists s. split; [apply Hs; reflexivity|reflexivity].
    + split; [eexists; reflexivity|]. intros time window H. discriminate H.
Qed.

Lemma findLargestJumpStart_sample_time_witness :
  findLargestJumpStart (qlist [0; 1; 2; 3; 4]%Q) (qlist [0; 0; 0; -1; -1]%Q)
  = Ok (Some (Q2Qc 2, Q2Qc 4)) /\ 0 < Q2Qc 4.
Proof.
  assert (E : findLargestJumpStart (qlist [0; 1; 2; 3; 4]%Q) (qlist [0; 0; 0; -1; -1]%Q)
              = Ok (Some (Q2Qc 2, Q2Qc 4))) by (vm_compute; reflexivity).
  split; [exact E|].
  exact (proj1 (proj2 (findLargestJumpStart_sample_time (qlist [0; 1; 2; 3; 4]%Q)
                         (qlist [0; 0; 0; -1; -1]%Q)) _ _ E)).
Defined.

(** *** The row loop of [parseCSV] *)

Lemma Qc_of_nat_0 : Qc_of_nat 0 = 0.
Proof. apply Qc_decomp. reflexivity. Qed.

Lemma row_contribution_length line : (length (row_contribution line) <= 1)%nat.
Proof. unfold row_contribution. destruct (_ && _); simpl; lia. Qed.

Lemma parse_loop_preserves (a b : Qc) (P : pstate -> Prop) :
  (forall s raw s', P s ->
     (parse_step a b s raw = Continue s' \/ parse_step a b s raw = Break s') -> P s') ->
  forall ls s, P s -> P (parse_loop a b ls s).
Proof.
  intros Hstep ls. induction ls as [|raw ls IH]; intros s Hs; [exact Hs|].
  cbn [parse_loop]. destruct (parse_step a b s raw) as [s'|s'] eqn:E.
  - apply IH. apply (Hstep s raw s' Hs). left. exact E.
  - apply (Hstep s raw s' Hs). right. exact E.
Qed.

Lemma parse_step_cases a b s raw s' :
  (parse_step a b s raw = Continue s' \/ parse_step a b s raw = Break s') ->
  (ps_t s' = ps_t s /\ ps_tenz s' = ps_tenz s /\ ps_interf s' = ps_interf s /\
   (lineCount s <= lineCount s')%nat) \/
  (exists rc, (length rc <= 1)%nat /\ lineCount s' = S (lineCount s) /\
     a <= Qc_of_nat (lineCount s') /\ Qc_of_nat (lineCount s') <= b /\
     ps_t s' = ps_t s ++ map (fun r => fst (fst r)) rc /\
     ps_tenz s' = ps_tenz s ++ map (fun r => snd (fst r)) rc /\
     ps_interf s' = ps_interf s ++ map snd rc).
Proof.
  unfold parse_step.
  destruct (String.eqb (trim raw) "");
    [intros [H|H]; try discriminate H; injection H as <-; left; repeat split; lia|].
  destruct (String.prefix "TIME,CH1," (trim raw));
    [intros [H|H]; try discriminate H; injection H as <-; left; repeat split; simpl; lia|].
  destruct (negb (dataStarted s));
    [intros [H|H]; try discriminate H; injection H as <-; left; repeat split; lia|].
  cbn [lineCount].
  destruct (Qcltb (Qc_of_nat (S (lineCount s))) a) eqn:Ea;
    [intros [H|H]; try discriminate H; injection H as <-; left; repeat split; simpl; lia|].
  destruct (Qcltb b (Qc_of_nat (S (lineCount s)))) eqn:Eb;
    [intros [H|H]; try discriminate H; injection H as <-; left; repeat split; simpl; lia|].
  intros [H|H]; [|discriminate H]. injection H as <-.
  right. exists (row_contribution (trim raw)). rewrite push_fields_contribution.
  cbn [lineCount ps_t ps_tenz ps_interf].
  split; [apply row_contribution_length|]. split; [reflexivity|].
  split; [apply Qcltb_false_le; exact Ea|]. split; [apply Qcltb_false_le; exact Eb|].
  repeat split.
Qed.

Ltac qlra := qc_to_q; change (this 0) with 0%Q in *; change (this 1) with 1%Q in *; lra.

Lemma parse_loop_aligned_bounded (a b : Qc) ls s :
  length (ps_tenz s) = length (ps_t s) -> length (ps_interf s) = length (ps_t s) ->
  (ps_t s = [] \/
   (Qc_of_nat (length (ps_t s)) + a <= Qc_of_nat (lineCount s) + 1 /\
    Qc_of_nat (length (ps_t s)) + a <= b + 1)) ->
  let s' := parse_loop a b ls s in
  length (ps_tenz s') = length (ps_t s') /\ length (ps_interf s') = length (ps_t s') /\
  (ps_t s' = [] \/
   (Qc_of_nat (length (ps_t s')) + a <= Qc_of_nat (lineCount s') + 1 /\
    Qc_of_nat (length (ps_t s')) + a <= b + 1)).
Proof.
  intros H1 H2 H3. cbv zeta.
  apply (parse_loop_preserves a b (fun s =>
    length (ps_tenz s) = length (ps_t s) /\ length (ps_interf s) = length (ps_t s) /\
    (ps_t s = [] \/
     (Qc_of_nat (length (ps_t s)) + a <= Qc_of_nat (lineCount s) + 1 /\
      Qc_of_nat (length (ps_t s)) + a <= b + 1)))); [|split; [exact H1|split; assumption]].
  clear s H1 H2 H3. intros s raw s' [H1 [H2 H3]] Hst.
  destruct (parse_step_cases a b s raw s' Hst)
    as [[E1 [E2 [E3 Hlc]]]|[rc [Hrc [Hlc [Ha [Hb [E1 [E2 E3]]]]]]]].
  - rewrite E1, E2, E3. split; [exact H1|]. split; [exact H2|].
    destruct H3 as [H3|[H3 H4]]; [left; exact H3|right; split; [|exact H4]].
    apply Qc_of_nat_le in Hlc. qlra.
  - rewrite E1, E2, E3.
    destruct rc as [|r [|r' rc]]; [| |simpl in Hrc; lia].
    + cbn [map]. rewrite !app_nil_r. split; [exact H1|]. split; [exact H2|].
      destruct H3 as [H3|[H3 H4]]; [left; exact H3|right; split; [|exact H4]].
      rewrite Hlc, Qc_of_nat_S. qlra.
    + rewrite !length_app, !length_map, H1, H2.
      split; [reflexivity|]. split; [reflexivity|]. right. cbn [length map]. rewrite Nat.add_1_r, Qc_of_nat_S.
      rewrite Hlc, Qc_of_nat_S in Ha, Hb |- *.
      destruct H3 as [H3|[H3 H4]].
      * rewrite H3. cbn [length]. rewrite Qc_of_nat_0. split; qlra.
      * split; qlra.
Qed.

(** The three arrays [t], [tenz], [interf] that [parseCSV] collects have
    the same length, and at most [skipEnd - skipStart + 1] rows are kept
    (with [skipStart = options.skipStart || 6650] and
    [skipEnd = options.skipEnd || 27000]): only rows whose count lies in
    [skipStart .. skipEnd] are pushed, one sample each. *)
Theorem parseCSV_rows_aligned_bounded (csvText : string) (skipStartOpt skipEndOpt : option Qc) :
  let '(t, tenz, interf) := parseCSV_rows csvText skipStartOpt skipEndOpt in
  length tenz = length t /\ length interf = length t /\
  (t = [] \/
   Qc_of_nat (length t) <= js_or_num skipEndOpt (Q2Qc 27000)
                           - js_or_num skipStartOpt (Q2Qc 6650) + 1).
Proof.
  unfold parseCSV_rows.
  destruct (parse_loop_aligned_bounded (js_or_num skipStartOpt (Q2Qc 6650))
              (js_or_num skipEndOpt (Q2Qc 27000))
              (split_char (ascii_of_nat 10) csvText) (mkPstate false 0 [] [] []))
    as [H1 [H2 H3]]; [reflexivity|reflexivity|left; reflexivity|].
  split; [exact H1|]. split; [exact H2|].
  destruct H3 as [H3|[_ H3]]; [left; exact H3|right; qlra].
Qed.

(** Before the header line [TIME,CH1,...] the loop ignores every line: with
    no header among the lines, [parseCSV] collects no sample at all. *)
Theorem parseCSV_rows_needs_header (csvText : string) (skipStartOpt skipEndOpt : option Qc) :
  Forall (fun raw => String.prefix "TIME,CH1," (trim raw) = false)
         (split_char (ascii_of_nat 10) csvText) ->
  parseCSV_rows csvText skipStartOpt skipEndOpt = ([], [], []).
Proof.
  intros Hall. unfold parseCSV_rows.
  assert (Hloop : forall a b ls, Forall (fun raw => String.prefix "TIME,CH1," (trim raw) = false) ls ->
            parse_loop a b ls (mkPstate false 0 [] [] []) = mkPstate false 0 [] [] []).
  { intros a b ls. induction ls as [|raw ls IH]; intros H; [reflexivity|].
    inversion H as [|? ? Hr H']; subst. cbn [parse_loop]. unfold parse_step.
    rewrite Hr. destruct (String.eqb (trim raw) ""); cbn [negb dataStarted]; apply IH; exact H'. }
  rewrite Hloop by exact Hall. reflexivity.
Qed.

Lemma parseCSV_rows_needs_header_witness :
  Forall (fun raw => String.prefix "TIME,CH1," (trim raw) = false)
         (split_char (ascii_of_nat 10) (String.concat nl ["1,2,3,4,5"; "TIME,CH2,CH1"]%string)) /\
  parseCSV_rows (String.concat nl ["1,2,3,4,5"; "TIME,CH2,CH1"]%string) (Some 1) None = ([], [], []).
Proof.
  assert (H : Forall (fun raw => String.prefix "TIME,CH1," (trim raw) = false)
         (split_char (ascii_of_nat 10) (String.concat nl ["1,2,3,4,5"; "TIME,CH2,CH1"]%string)))
    by (vm_compute; repeat constructor).
  split; [exact H|]. exact (parseCSV_rows_needs_header _ (Some 1) None H).
Defined.

(** *** The local derivative of [parseCSV] *)

Lemma idxMap_filter (mask : list bool) (l acc : list nat) :
  fold_left (fun idxMap i => if nth i mask false then idxMap ++ [i] else idxMap) l acc
  = acc ++ filter (fun i => nth i mask false) l.
Proof.
  revert acc. induction l as [|i l IH]; intros acc; simpl; [rewrite app_nil_r; reflexivity|].
  destruct (nth i mask false); rewrite IH; [rewrite <- app_assoc|]; reflexivity.
Qed.

Lemma mask_pass (P : nat -> bool) (l : list nat) (m : list bool) :
  (forall j, In j l -> (j < length m)%nat) ->
  let r := fold_left (fun mask i => if P i then set_nth mask i true else mask) l m in
  length r = length m /\
  forall i, nth i r false = true <-> nth i m false = true \/ (In i l /\ P i = true).
Proof.
  revert m. induction l as [|j l IH]; intros m Hl; cbv zeta.
  - split; [reflexivity|]. intros i. simpl. tauto.
  - cbn [fold_left].
    assert (Hj : (j < length m)%nat) by (apply Hl; left; reflexivity).
    destruct (P j) eqn:Pj.
    + destruct (IH (set_nth m j true)) as [H1 H2].
      { intros k Hk. rewrite length_set_nth. apply Hl. right. exact Hk. }
      split; [rewrite H1; apply length_set_nth|]. intros i. rewrite H2.
      destruct (Nat.eq_dec i j) as [->|Hne].
      * rewrite nth_set_nth_eq by exact Hj. split; [intros _; right; split; [left|]; reflexivity + exact Pj|intros _; left; reflexivity].
      * rewrite nth_set_nth_neq by (intros E; apply Hne; symmetry; exact E).
        simpl. split.
        -- intros [H|[H H']]; [left; exact H|right; split; [right; exact H|exact H']].
        -- intros [H|[[H|H] H']]; [left; exact H|exfalso; apply Hne; symmetry; exact H|].
           right. split; assumption.
    + destruct (IH m) as [H1 H2].
      { intros k Hk. apply Hl. right. exact Hk. }
      split; [exact H1|]. intros i. rewrite H2. simpl.
      split.
      * intros [H|[H H']]; [left; exact H|right; split; [right; exact H|exact H']].
      * intros [H|[[H|H] H']]; [left; exact H| |right; split; assumption].
        subst. rewrite Pj in H'. discriminate H'.
Qed.

Lemma mask_outer (t f0 : list Qc) (w : Qc) (ks : list nat) (m : list bool) :
  length m = length t ->
  let r := fold_left
    (fun mask k =>
       let center := nth k f0 0 in
       fold_left
         (fun mask i =>
            if in_deriv_window w center (nth i t 0)
            then set_nth mask i true else mask)
         (seq 0 (length t)) mask) ks m in
  length r = length t /\
  forall i, nth i r false = true <->
    nth i m false = true \/
    ((i < length t)%nat /\ exists k, In k ks /\ in_deriv_window w (nth k f0 0) (nth i t 0) = true).
Proof.
  revert m. induction ks as [|k ks IH]; intros m Hm; cbv zeta.
  - split; [exact Hm|]. intros i. split; [tauto|]. intros [H|[_ [k [[] _]]]]. exact H.
  - cbn [fold_left].
    destruct (mask_pass (fun i => in_deriv_window w (nth k f0 0) (nth i t 0)) (seq 0 (length t)) m)
      as [P1 P2]; [intros j Hj; apply in_seq in Hj; lia|].
    cbv zeta in IH.
    destruct (IH _ (eq_trans P1 Hm)) as [I1 I2].
    split; [exact I1|]. intros i. rewrite I2, P2. rewrite in_seq.
    split.
    + intros [[H|[[_ Hi] H]]|[Hi [k' [Hk' H]]]].
      * left. exact H.
      * right. split; [lia|]. exists k. split; [left; reflexivity|exact H].
      * right. split; [exact Hi|]. exists k'. split; [right; exact Hk'|exact H].
    + intros [H|[Hi [k' [[<-|Hk'] H]]]].
      * left. left. exact H.
      * left. right. split; [lia|exact H].
      * right. split; [exact Hi|]. exists k'. split; assumption.
Qed.

(** The mask of [parseCSV]'s local derivative has one entry per sample,
    and sample [i] is marked exactly when [t[i]] lies in the window
    [[center - derivWindowSec, center + derivWindowSec]] of some kept
    root [center]. *)
Theorem deriv_mask_marks_windows (t filteredT0 : list Qc) (derivWindowSec : Qc) :
  length (deriv_mask t filteredT0 derivWindowSec) = length t /\
  forall i, nth i (deriv_mask t filteredT0 derivWindowSec) false = true <->
    (i < length t)%nat /\
    exists k, (k < length filteredT0)%nat /\
      nth k filteredT0 0 - derivWindowSec <= nth i t 0 /\
      nth i t 0 <= nth k filteredT0 0 + derivWindowSec.
Proof.
  unfold deriv_mask.
  destruct (mask_outer t filteredT0 derivWindowSec (seq 0 (length filteredT0))
              (repeat false (length t)) (repeat_length _ _)) as [H1 H2].
  split; [exact H1|]. intros i. rewrite H2.
  assert (Hf : nth i (repeat false (length t)) false = false).
  { destruct (Nat.lt_ge_cases i (length t)).
    - apply nth_repeat_lt. exact H.
    - apply nth_overflow. rewrite repeat_length. exact H. }
  rewrite Hf.
  split.
  - intros [H|[Hi [k [Hk H]]]]; [discriminate H|]. split; [exact Hi|].
    apply in_seq in Hk. exists k. split; [lia|].
    unfold in_deriv_window in H. apply andb_true_iff in H as [Ha Hb].
    split; apply Qcleb_true; assumption.
  - intros [Hi [k [Hk [Ha Hb]]]]. right. split; [exact Hi|]. exists k.
    split; [apply in_seq; lia|]. unfold in_deriv_window.
    apply andb_true_iff. split; apply Qcleb_true; assumption.
Qed.

Lemma scatter_spec (idx : list nat) (vals : list Qc) (init : list (option Qc)) m :
  NoDup idx -> (forall j, In j idx -> (j < length init)%nat) -> (m <= length idx)%nat ->
  let r := fold_left (fun dudt k => set_nth dudt (nth k idx 0%nat) (nth_error vals k))
                     (seq 0 m) init in
  length r = length init /\
  (forall i, ~ In i (firstn m idx) -> nth i r None = nth i init None) /\
  (forall k, (k < m)%nat -> nth (nth k idx 0%nat) r None = nth_error vals k).
Proof.
  intros Hnd Hlt. induction m as [|m IH]; intros Hm; cbv zeta.
  - simpl. split; [reflexivity|]. split; [reflexivity|intros; lia].
  - rewrite seq_S, fold_left_app. cbn [fold_left]. cbv zeta in IH.
    destruct (IH ltac:(lia)) as [H1 [H2 H3]].
    assert (Hj : (nth m idx 0%nat < length init)%nat) by (apply Hlt, nth_In; lia).
    split; [rewrite length_set_nth; exact H1|]. split.
    + intros i Hi. rewrite (firstn_S_nth idx m 0%nat) in Hi by lia.
      rewrite nth_set_nth_neq.
      * apply H2. intros Hin. apply Hi. apply in_or_app. left. exact Hin.
      * intros E. apply Hi. apply in_or_app. right. left. exact E.
    + intros k Hk. replace (0 + m)%nat with m by lia.
      destruct (Nat.eq_dec k m) as [->|Hne].
      * apply nth_set_nth_eq. rewrite H1. exact Hj.
      * rewrite nth_set_nth_neq; [apply H3; lia|].
        intros E. apply Hne. symmetry.
        apply (proj1 (NoDup_nth idx 0%nat) Hnd); [lia|lia|exact E].
Qed.

Lemma calculateDerivativeSG_length t signal ws po out :
  calculateDerivativeSG t signal ws po = Ok out -> length out = length signal.
Proof.
  unfold calculateDerivativeSG.
  destruct (length signal <? 3); [intros H; injection H as <-; apply repeat_length|].
  destruct (transpose _) as [AT|e]; cbn [bind]; [|discriminate].
  destruct (multiplyMatrices AT _) as [ATA|e]; cbn [bind]; [|discriminate].
  destruct (invertMatrix ATA) as [R|e]; [|intros H; injection H as <-; apply repeat_length].
  destruct (multiplyMatrices R AT) as [P|e]; cbn [bind]; [|discriminate].
  destruct (nth_error P 1) as [c|]; [|discriminate].
  intros H. injection H as <-. rewrite length_map. apply length_convolve.
Qed.

(** [dudt_interf] of [parseCSV] has one entry per sample: [0] at every
    unmasked sample, and at the masked samples (in index order) the values
    of [calculateDerivativeSG] over the masked samples when there are more
    than three of them, [undefined] at each when there are at most three. *)
Theorem local_derivative_scatter (t interfCorrected filteredT0 : list Qc) (derivWindowSec : Qc)
    (sgWindow sgPoly : Q) (dudt : list (option Qc)) :
  local_derivative t interfCorrected filteredT0 derivWindowSec sgWindow sgPoly = Ok dudt ->
  let mask := deriv_mask t filteredT0 derivWindowSec in
  let idx := filter (fun i => nth i mask false) (seq 0 (length t)) in
  length dudt = length t /\
  (forall i, (i < length t)%nat -> nth i mask false = false -> nth i dudt None = Some 0) /\
  ((length idx <= 3)%nat -> map (fun i => nth i dudt None) idx = repeat None (length idx)) /\
  ((3 < length idx)%nat ->
   exists dl, calculateDerivativeSG (map (fun i => nth i t 0) idx)
                (map (fun i => nth i interfCorrected 0) idx) sgWindow sgPoly = Ok dl /\
              map (fun i => nth i dudt None) idx = map Some dl).
Proof.
  unfold local_derivative. rewrite idxMap_filter. cbn [app]. cbv zeta.
  set (idx := filter _ (seq 0 (length t))).
  assert (Hnd : NoDup idx) by (apply NoDup_filter, seq_NoDup).
  assert (Hlt : forall j, In j idx -> (j < length (repeat (Some 0%Qc) (length t)))%nat).
  { intros j Hj. apply filter_In in Hj as [Hj _]. apply in_seq in Hj.
    rewrite repeat_length. lia. }
  assert (Hmap : forall (r : list (option Qc)) (vals : list Qc),
            (forall k, (k < length idx)%nat -> nth (nth k idx 0%nat) r None = nth_error vals k) ->
            map (fun i => nth i r None) idx = map (fun k => nth_error vals k) (seq 0 (length idx))).
  { intros r vals H. rewrite <- (map_nth_seq_self idx 0%nat) at 1. rewrite map_map.
    apply map_ext_in. intros k Hk. apply in_seq in Hk. apply H. lia. }
  rewrite length_map.
  destruct (3 <? length idx) eqn:E3.
  - destruct (calculateDerivativeSG _ _ sgWindow sgPoly) as [dl|e] eqn:Hc; cbn [bind];
      [|discriminate].
    intros H. injection H as <-.
    destruct (scatter_spec idx dl (repeat (Some 0) (length t)) (length idx) Hnd Hlt (le_n _))
      as [S1 [S2 S3]].
    split; [rewrite S1; apply repeat_length|]. split.
    + intros i Hi Hm. rewrite S2; [apply nth_repeat_lt; exact Hi|].
      rewrite firstn_all. intros Hin. apply filter_In in Hin as [_ Hin].
      rewrite Hin in Hm. discriminate Hm.
    + apply Nat.ltb_lt in E3. split; [lia|]. intros _. exists dl. split; [reflexivity|].
      rewrite (Hmap _ dl S3).
      apply calculateDerivativeSG_length in Hc. rewrite !length_map in Hc.
      rewrite <- Hc. symmetry. rewrite <- (map_nth_seq_self dl 0) at 1. rewrite map_map.
      apply map_ext_in. intros k Hk. apply in_seq in Hk.
      symmetry. apply nth_error_nth'. lia.
  - cbn [bind]. intros H. injection H as <-.
    destruct (scatter_spec idx [] (repeat (Some 0) (length t)) (length idx) Hnd Hlt (le_n _))
      as [S1 [S2 S3]].
    split; [rewrite S1; apply repeat_length|]. split.
    + intros i Hi Hm. rewrite S2; [apply nth_repeat_lt; exact Hi|].
      rewrite firstn_all. intros Hin. apply filter_In in Hin as [_ Hin].
      rewrite Hin in Hm. discriminate Hm.
    + apply Nat.ltb_ge in E3. split; [|intros; lia]. intros _.
      rewrite (Hmap _ [] S3). rewrite <- (length_seq (length idx) 0) at 2.
      generalize (seq 0 (length idx)). intros l. induction l as [|k l IH]; [reflexivity|].
      simpl. rewrite nth_error_nil, IH. reflexivity.
Qed.

Lemma local_derivative_scatter_witness :
  local_derivative (qlist [0; 1; 2; 3; 4; 5]%Q) (qlist [0; 1; 4; 9; 16; 25]%Q) [Q2Qc (5 # 2)] 1
    5%Q 2%Q = Ok [Some 0; Some 0; None; None; Some 0; Some 0] /\
  length [Some 0; Some 0; None; None; Some 0; Some 0] = length (qlist [0; 1; 2; 3; 4; 5]%Q).
Proof.
  assert (E : local_derivative (qlist [0; 1; 2; 3; 4; 5]%Q) (qlist [0; 1; 4; 9; 16; 25]%Q)
                [Q2Qc (5 # 2)] 1 5%Q 2%Q = Ok [Some 0; Some 0; None; None; Some 0; Some 0])
    by (vm_compute; reflexivity).
  split; [exact E|]. exact (proj1 (local_derivative_scatter _ _ _ _ _ _ _ E)).
Defined.

(** *** Downsampling and velocity in [generateChartData] *)

Lemma stride_from_spec fuel i step len :
  (1 <= step)%nat -> (len - i <= fuel)%nat ->
  exists c, stride_from fuel i step len = map (fun j => i + j * step)%nat (seq 0 c) /\
            (c = 0 \/ i + (c - 1) * step < len)%nat /\ (len <= i + c * step)%nat.
Proof.
  intros Hs. revert i. induction fuel as [|f IH]; intros i Hf.
  - exists 0%nat. split; [reflexivity|]. split; [left; reflexivity|lia].
  - cbn [stride_from]. destruct (i <? len) eqn:E.
    + apply Nat.ltb_lt in E. destruct (IH (i + step)%nat ltac:(lia)) as [c [H1 [H2 H3]]].
      exists (S c). rewrite H1. split.
      * cbn [seq map]. rewrite <- seq_shift, map_map. f_equal; [lia|].
        apply map_ext. intros j. cbn [Nat.mul]. lia.
      * split; [right; destruct H2 as [->|H2]; [lia|]; replace (S c - 1)%nat with c by lia|].
        -- destruct c as [|c]; [lia|]. replace (S c - 1)%nat with c in H2 by lia.
           cbn [Nat.mul] in *. lia.
        -- cbn [Nat.mul]. lia.
    + apply Nat.ltb_ge in E. exists 0%nat. split; [reflexivity|]. split; [left; reflexivity|lia].
Qed.

(** The plotted series of [generateChartData] sample every [step]-th index,
    [step = Math.max(1, Math.floor(t.length / maxPoints))], from [0] to the
    end; there are at least [min(t.length, maxPoints)] of them and at most
    [2 * maxPoints - 1], so a series can hold almost twice [maxPoints]
    points. *)
Theorem chart_indices_count (len : nat) (maxPointsOpt : option nat) :
  let M := chart_maxPoints maxPointsOpt in
  let step := Nat.max 1 (len / M) in
  exists c, chart_indices len maxPointsOpt = map (fun j => j * step)%nat (seq 0 c) /\
            (Nat.min len M <= c <= 2 * M - 1)%nat.
Proof.
  cbv zeta. unfold chart_indices.
  assert (HM : (1 <= chart_maxPoints maxPointsOpt)%nat)
    by (unfold chart_maxPoints; destruct maxPointsOpt as [[|k]|]; lia).
  set (M := chart_maxPoints maxPointsOpt) in *.
  destruct (stride_from_spec len 0 (Nat.max 1 (len / M)) len ltac:(lia) ltac:(lia))
    as [c [H1 [H2 H3]]].
  exists c. split; [exact H1|].
  pose proof (Nat.div_mod len M ltac:(lia)) as Hdm.
  pose proof (Nat.mod_upper_bound len M ltac:(lia)) as Hmb.
  set (q := (len / M)%nat) in *. set (r := (len mod M)%nat) in *.
  destruct (Nat.eq_dec q 0) as [Hq|Hq].
  - rewrite Hq in *. cbn [Nat.max] in *. split; [lia|].
    destruct H2 as [->|H2]; lia.
  - replace (Nat.max 1 q) with q in * by lia. split.
    + destruct (Nat.le_gt_cases M c); [lia|]. exfalso.
      assert (c * q < M * q)%nat by (apply Nat.mul_lt_mono_pos_r; lia). lia.
    + destruct H2 as [->|H2]; [lia|].
      destruct (Nat.le_gt_cases c (2 * M - 1)); [lia|]. exfalso.
      assert ((2 * M - 1) * q <= (c - 1) * q)%nat by (apply Nat.mul_le_mono_r; lia).
      assert ((2 * M - 1) * q = M * q + (M - 1) * q)%nat by nia.
      assert (M - 1 <= (M - 1) * q)%nat by nia.
      lia.
Qed.

Lemma trapezoid_from_snoc prev acc l tm v :
  trapezoid_from prev acc (l ++ [(tm, v)]) =
  trapezoid_from prev acc l ++
  [(tm, snd (last ((fst prev, acc) :: trapezoid_from prev acc l) (0, 0))
        + Q2Qc (1 # 2) * (v + snd (last (prev :: l) (0, 0)))
          * (tm - fst (last (prev :: l) (0, 0))))].
Proof.
  revert prev acc. induction l as [|[tm' v'] l IH]; intros prev acc.
  - reflexivity.
  - cbn [app trapezoid_from]. rewrite IH. reflexivity.
Qed.

Lemma trapezoid_snoc V tm v : V <> [] ->
  trapezoid (V ++ [(tm, v)]) =
  trapezoid V ++
  [(tm, snd (last (trapezoid V) (0, 0))
        + Q2Qc (1 # 2) * (v + snd (last V (0, 0))) * (tm - fst (last V (0, 0))))].
Proof.
  intros Hne. destruct V as [|[tm0 v0] l]; [contradiction|].
  cbn [app trapezoid]. rewrite trapezoid_from_snoc. reflexivity.
Qed.

Lemma fold_left_invariant {A B} (f : A -> B -> A) (P : A -> Prop) l a :
  (forall acc x, In x l -> P acc -> P (f acc x)) -> P a -> P (fold_left f l a).
Proof.
  revert a. induction l as [|x l IH]; intros a Hf Ha; [exact Ha|].
  simpl. apply IH; [intros acc y Hy; apply Hf; right; exact Hy|]. apply Hf; [left; reflexivity|exact Ha].
Qed.

(** [displacementSeries] of [generateChartData] is the cumulative
    trapezoid integral of [velocitySeries], starting from [0] at the first
    intersection point: [disp += 0.5 * (v + lastVel) * (ptTime - lastTime)]
    between consecutive points, with one entry per intersection point. *)
Theorem displacement_is_trapezoid (t : list Qc) (dudt : list (option Qc)) (pts : list (Qc * Qc)) :
  snd (velocity_displacement t dudt pts) = trapezoid (fst (velocity_displacement t dudt pts)) /\
  map fst (fst (velocity_displacement t dudt pts)) = map fst pts.
Proof.
  unfold velocity_displacement. destruct pts as [|p0 rest] eqn:Hp; [split; reflexivity|].
  rewrite <- Hp. cbn [length] in *.
  replace (length pts) with (S (length rest)) by (rewrite Hp; reflexivity).
  cbn [seq fold_left]. rewrite <- seq_shift.
  set (s1 := velocity_step t dudt pts (mkVstate 0 (fst p0) 0 0 [] []) 0).
  set (P := fun (n : nat) (s : vstate) =>
    vs_velocity s <> [] /\ vs_displacement s = trapezoid (vs_velocity s) /\
    vs_lastTime s = fst (last (vs_velocity s) (0, 0)) /\
    vs_lastVel s = snd (last (vs_velocity s) (0, 0)) /\
    vs_disp s = snd (last (vs_displacement s) (0, 0)) /\
    map fst (vs_velocity s) = map (fun k => fst (nth k pts (0, 0))) (seq 0 n)).
  assert (Hgen : forall m, (m <= length rest)%nat ->
            P (S m) (fold_left (velocity_step t dudt pts) (map S (seq 0 m)) s1)).
  { induction m as [|m IH]; intros Hm.
    - cbn [seq map fold_left]. unfold P, s1, velocity_step. cbn [vs_velocity vs_displacement
        vs_lastTime vs_lastVel vs_disp Nat.ltb Nat.leb app].
      split; [discriminate|]. split; [reflexivity|]. split; [reflexivity|].
      split; [reflexivity|]. split; reflexivity.
    - rewrite seq_S, map_app, fold_left_app. cbn [map fold_left].
      destruct (IH ltac:(lia)) as [H1 [H2 [H3 [H4 [H5 H6]]]]].
      set (s := fold_left (velocity_step t dudt pts) (map S (seq 0 m)) s1) in *.
      unfold P, velocity_step. cbn [vs_velocity vs_displacement vs_lastTime vs_lastVel vs_disp].
      replace (0 <? S (0 + m))%nat with true by (symmetry; apply Nat.ltb_lt; lia).
      split; [intros E; apply app_eq_nil in E as [_ E]; discriminate E|].
      split; [rewrite H2, trapezoid_snoc by exact H1; rewrite <- H3, <- H4, <- H2, <- H5;
              reflexivity|].
      split; [rewrite last_last; reflexivity|]. split; [rewrite last_last; reflexivity|].
      split; [rewrite last_last; reflexivity|].
      rewrite map_app, H6, (seq_S (S m)), map_app. reflexivity. }
  destruct (Hgen (length rest) (le_n _)) as [_ [H2 [_ [_ [_ H6]]]]].
  split; [exact H2|]. cbn [fst]. rewrite H6.
  replace (S (length rest)) with (length pts) by (rewrite Hp; reflexivity).
  symmetry. rewrite <- (map_nth_seq_self pts (0, 0)) at 1. rewrite map_map. reflexivity.
Qed.

Lemma Qcleb_lt_false x y : x < y -> Qcleb y x = false.
Proof.
  intros H. destruct (Qcleb y x) eqn:E; [|reflexivity].
  apply Qcleb_true in E. exfalso. exact (Qclt_not_le _ _ H E).
Qed.

Lemma find_seq_first (f : nat -> bool) s n k :
  (s <= k < s + n)%nat -> (forall j, (s <= j < k)%nat -> f j = false) -> f k = true ->
  find f (seq s n) = Some k.
Proof.
  revert s. induction n as [|n IH]; intros s Hk Hb Hf; [lia|].
  cbn [seq find]. destruct (Nat.eq_dec s k) as [->|Hne]; [rewrite Hf; reflexivity|].
  rewrite Hb by lia. apply IH; [lia| |exact Hf]. intros j Hj. apply Hb. lia.
Qed.

Lemma find_seq_none (f : nat -> bool) s n :
  (forall j, (s <= j < s + n)%nat -> f j = false) -> find f (seq s n) = None.
Proof.
  revert s. induction n as [|n IH]; intros s Hb; [reflexivity|].
  cbn [seq find]. rewrite Hb by lia. apply IH. intros j Hj. apply Hb. lia.
Qed.

Lemma find_seq_before (f : nat -> bool) s n i :
  find f (seq s n) = Some i -> (s <= i < s + n)%nat /\ forall j, (s <= j < i)%nat -> f j = false.
Proof.
  revert s. induction n as [|n IH]; intros s H; [discriminate H|].
  cbn [seq find] in H. destruct (f s) eqn:E.
  - injection H as <-. split; [lia|]. intros; lia.
  - destruct (IH (S s) H) as [H1 H2]. split; [lia|].
    intros j Hj. destruct (Nat.eq_dec j s) as [->|Hne]; [exact E|]. apply H2. lia.
Qed.

Lemma sample_at_or_after_char t tm idx :
  (idx <= length t - 1)%nat -> (forall j, (j < idx)%nat -> nth j t 0 < tm) ->
  ((idx = length t - 1)%nat \/ tm <= nth idx t 0) ->
  sample_at_or_after t tm = idx.
Proof.
  intros Hle Hb Hc. unfold sample_at_or_after.
  destruct (Nat.eq_dec idx (length t - 1)) as [Heq|Hne].
  - rewrite find_seq_none; [symmetry; exact Heq|].
    intros j Hj. apply Qcleb_lt_false. apply Hb. lia.
  - destruct Hc as [Hc|Hc]; [contradiction|].
    rewrite (find_seq_first _ 0 (length t - 1) idx); [reflexivity|lia| |].
    + intros j Hj. apply Qcleb_lt_false. apply Hb. lia.
    + apply Qcleb_true. exact Hc.
Qed.

Lemma sample_at_or_after_bounds t tm :
  (sample_at_or_after t tm <= length t - 1)%nat /\
  forall j, (j < sample_at_or_after t tm)%nat -> nth j t 0 < tm.
Proof.
  unfold sample_at_or_after.
  destruct (find _ (seq 0 (length t - 1))) as [i|] eqn:E.
  - apply find_seq_before in E as [H1 H2]. split; [lia|].
    intros j Hj. apply Qcleb_false. apply H2. lia.
  - split; [lia|]. intros j Hj. apply Qcleb_false.
    destruct (Qcleb tm (nth j t 0)) eqn:F; [|reflexivity].
    assert (Hin : In j (seq 0 (length t - 1))) by (apply in_seq; lia).
    destruct (find_none _ _ E j Hin) as []. rewrite F in *. reflexivity.
Qed.

Lemma advance_idx_first fuel t tm idx :
  (length t - 1 - idx <= fuel)%nat -> (idx <= length t - 1)%nat ->
  (forall j, (j < idx)%nat -> nth j t 0 < tm) ->
  advance_idx fuel t tm idx = sample_at_or_after t tm.
Proof.
  revert idx. induction fuel as [|f IH]; intros idx Hf Hle Hb.
  - cbn [advance_idx]. symmetry. apply sample_at_or_after_char; [exact Hle|exact Hb|left; lia].
  - cbn [advance_idx].
    destruct ((idx <? length t - 1) && Qcltb (nth idx t 0) tm) eqn:E.
    + apply andb_true_iff in E as [E1 E2]. apply Nat.ltb_lt in E1. apply Qcltb_true in E2.
      apply IH; [lia|lia|]. intros j Hj. destruct (Nat.eq_dec j idx) as [->|Hne]; [exact E2|].
      apply Hb. lia.
    + symmetry. apply sample_at_or_after_char; [exact Hle|exact Hb|].
      apply andb_false_iff in E as [E|E].
      * left. apply Nat.ltb_ge in E. lia.
      * right. apply Qcltb_false_le. exact E.
Qed.

Lemma chain_le (f : nat -> Qc) len :
  (forall k, (S k < len)%nat -> f k <= f (S k)) ->
  forall n m, (n <= m < len)%nat -> f n <= f m.
Proof.
  intros H n m. induction m as [|m IH]; intros Hm.
  - replace n with 0%nat by lia. apply Qcle_refl.
  - destruct (Nat.eq_dec n (S m)) as [->|Hne]; [apply Qcle_refl|].
    apply (Qcle_trans _ (f m)); [apply IH; lia|apply H; lia].
Qed.

(** When the intersection times are in non-decreasing order, the velocity
    that [generateChartData] reports at an intersection time [ptTime] is
    [dudt_interf] (with [undefined] read as [0]) at the first sample
    [i < t.length - 1] with [ptTime <= t[i]], or at the last sample when
    there is none: the search index is never moved back, and this is where
    the scan from the previous point stops. *)
Theorem velocity_reads_first_sample_at_or_after (t : list Qc) (dudt : list (option Qc))
    (pts : list (Qc * Qc)) :
  (forall k, (S k < length pts)%nat -> fst (nth k pts (0, 0)) <= fst (nth (S k) pts (0, 0))) ->
  fst (velocity_displacement t dudt pts) =
  map (fun p => (fst p, read_dudt dudt (sample_at_or_after t (fst p)))) pts.
Proof.
  intros Hmono.
  pose proof (chain_le (fun k => fst (nth k pts (0, 0))) (length pts) Hmono) as Hch.
  cbv beta in Hch.
  set (F := fun p : Qc * Qc => (fst p, read_dudt dudt (sample_at_or_after t (fst p)))).
  unfold velocity_displacement. destruct pts as [|p0 rest] eqn:Hp; [reflexivity|].
  rewrite <- Hp in *.
  set (init := mkVstate 0 (fst p0) 0 0 [] []).
  assert (Hgen : forall n, (n <= length pts)%nat ->
    let s := fold_left (velocity_step t dudt pts) (seq 0 n) init in
    vs_velocity s = map F (firstn n pts) /\ (vs_idx s <= length t - 1)%nat /\
    forall j m, (j < vs_idx s)%nat -> (n <= m < length pts)%nat -> nth j t 0 < fst (nth m pts (0, 0))).
  { induction n as [|n IH]; intros Hn; cbv zeta.
    - simpl. split; [reflexivity|]. split; [lia|]. intros; lia.
    - rewrite seq_S, fold_left_app. cbn [fold_left]. cbv zeta in IH.
      destruct (IH ltac:(lia)) as [H1 [H2 H3]].
      set (s := fold_left (velocity_step t dudt pts) (seq 0 n) init) in *.
      unfold velocity_step. cbn [vs_velocity vs_idx]. replace (0 + n)%nat with n by lia.
      rewrite (advance_idx_first (length t) t (fst (nth n pts (0, 0))) (vs_idx s));
        [|lia|exact H2|intros j Hj; apply H3; [exact Hj|lia]].
      destruct (sample_at_or_after_bounds t (fst (nth n pts (0, 0)))) as [B1 B2].
      split; [|split; [exact B1|]].
      + rewrite H1, (firstn_S_nth pts n (0, 0)) by lia. rewrite map_app. reflexivity.
      + intros j m Hj Hm. apply (Qclt_le_trans _ (fst (nth n pts (0, 0)))); [apply B2; exact Hj|].
        apply Hch. lia. }
  destruct (Hgen (length pts) (le_n _)) as [H1 _]. cbn [fst]. rewrite H1, firstn_all.
  reflexivity.
Qed.

Lemma velocity_reads_first_sample_at_or_after_witness :
  fst (velocity_displacement (qlist [0; 1; 2; 3]%Q) [Some (Q2Qc 1); None; Some (Q2Qc 3); Some (Q2Qc 4)]
         [(Q2Qc (1 # 2), 0); (Q2Qc 2, 0); (Q2Qc 5, 0)])
  = [(Q2Qc (1 # 2), 0); (Q2Qc 2, Q2Qc 3); (Q2Qc 5, Q2Qc 4)].
Proof.
  rewrite (velocity_reads_first_sample_at_or_after (qlist [0; 1; 2; 3]%Q)
             [Some (Q2Qc 1); None; Some (Q2Qc 3); Some (Q2Qc 4)] [(Q2Qc (1 # 2), 0); (Q2Qc 2, 0); (Q2Qc 5, 0)]).
  - vm_compute. reflexivity.
  - intros k Hk. destruct k as [|[|k]]; simpl in Hk; try lia; apply Qcleb_true; reflexivity.
Defined.

(** *** [findSignalIntersectionsAtZero] *)

Lemma sign_change_ratio dPrev dCurr :
  sign_change dPrev dCurr = true ->
  0 <= - dPrev / (dCurr - dPrev) /\ - dPrev / (dCurr - dPrev) < 1.
Proof.
  intros H. pose proof (sign_change_delta _ _ H) as Hd.
  unfold sign_change in H.
  apply orb_true_iff in H as [H|H]; apply andb_true_iff in H as [H1 H2];
    apply Qcleb_true in H1; apply Qcltb_true in H2.
  - destruct (ratio_in (- dPrev) (dCurr - dPrev)) as [R1 [R2 _]]; [qlra|qlra|].
    split; assumption.
  - replace (- dPrev / (dCurr - dPrev)) with (dPrev / (dPrev - dCurr)).
    + destruct (ratio_in dPrev (dPrev - dCurr)) as [R1 [R2 _]]; [exact H1|qlra|].
      split; assumption.
    + field. split; [exact Hd|]. intros E. apply Hd.
      transitivity (- (dPrev - dCurr)); [ring|rewrite E; ring].
Qed.

(** On strictly increasing sample times, the points reported by
    [findSignalIntersectionsAtZero] have strictly increasing times; each
    has [|value| <= yThreshold] and lies in a sample interval
    [[t[i - 1], t[i])] where [tenz - interf] changes sign. *)
Theorem findSignalIntersectionsAtZero_ordered (t tenz interf : list Qc) (yThreshold : Qc) :
  (forall k, (S k < length t)%nat -> nth k t 0 < nth (S k) t 0) ->
  increasing (map fst (findSignalIntersectionsAtZero t tenz interf yThreshold)) /\
  Forall (fun p => Qcabs (snd p) <= yThreshold /\
            exists i, (0 < i < length t)%nat /\
              sign_change (nth (i - 1) tenz 0 - nth (i - 1) interf 0)
                          (nth i tenz 0 - nth i interf 0) = true /\
              nth (i - 1) t 0 <= fst p /\ fst p < nth i t 0)
         (findSignalIntersectionsAtZero t tenz interf yThreshold).
Proof.
  intros Hmono. unfold findSignalIntersectionsAtZero.
  match goal with |- context [fold_left ?F (seq 1 ?k) ?a] => set (f := F) end.
  set (Br := fun p : Qc * Qc => Qcabs (snd p) <= yThreshold /\
            exists i, (0 < i < length t)%nat /\
              sign_change (nth (i - 1) tenz 0 - nth (i - 1) interf 0)
                          (nth i tenz 0 - nth i interf 0) = true /\
              nth (i - 1) t 0 <= fst p /\ fst p < nth i t 0).
  assert (Hinv : forall m, (m <= length t - 1)%nat ->
    let acc := fold_left f (seq 1 m) [] in
    increasing (map fst acc) /\ Forall Br acc /\ Forall (fun p => fst p < nth m t 0) acc).
  { induction m as [|m IH]; intros Hm.
    - simpl. split; [exact I|]. split; constructor.
    - cbv zeta in *. rewrite seq_S, fold_left_app.
      destruct (IH ltac:(lia)) as [Hinc [Hbr Hlt]].
      set (acc := fold_left f (seq 1 m) []) in *.
      cbn [fold_left]. unfold f. replace (1 + m - 1)%nat with m by lia.
      replace (1 + m)%nat with (S m) by lia.
      assert (Hstep : nth m t 0 < nth (S m) t 0) by (apply Hmono; lia).
      assert (Hlt' : Forall (fun p => fst p < nth (S m) t 0) acc).
      { eapply Forall_impl; [|exact Hlt]. intros p Hp. exact (Qclt_trans _ _ _ Hp Hstep). }
      destruct (sign_change (nth m tenz 0 - nth m interf 0) (nth (S m) tenz 0 - nth (S m) interf 0))
        eqn:Hsc; [|split; [exact Hinc|split; [exact Hbr|exact Hlt']]].
      destruct (sign_change_ratio _ _ Hsc) as [R0 R1].
      destruct (lerp_between (nth m t 0) (nth (S m) t 0)
                  (- (nth m tenz 0 - nth m interf 0) /
                   (nth (S m) tenz 0 - nth (S m) interf 0 - (nth m tenz 0 - nth m interf 0)))
                  Hstep R0 R1) as [L1 [L2 _]].
      match goal with |- context [if Qcleb (Qcabs ?v) yThreshold then _ else _] =>
        destruct (Qcleb (Qcabs v) yThreshold) eqn:Hy end;
        [|split; [exact Hinc|split; [exact Hbr|exact Hlt']]].
      rewrite map_app. split; [|split].
      + apply increasing_snoc; [exact Hinc|]. apply Forall_map.
        eapply Forall_impl; [|exact Hlt]. intros p Hp. cbn [fst].
        exact (Qclt_le_trans _ _ _ Hp L1).
      + apply Forall_app. split; [exact Hbr|]. constructor; [|constructor].
        split; [apply Qcleb_true; exact Hy|]. exists (S m).
        replace (S m - 1)%nat with m by lia. split; [lia|]. split; [exact Hsc|].
        split; [exact L1|exact L2].
      + apply Forall_app. split; [exact Hlt'|]. constructor; [exact L2|constructor]. }
  destruct (Hinv (length t - 1)%nat ltac:(lia)) as [Hinc [Hbr _]].
  split; [exact Hinc|exact Hbr].
Qed.

Lemma findSignalIntersectionsAtZero_ordered_witness :
  map fst (findSignalIntersectionsAtZero (qlist [0; 1; 2; 3]%Q) (qlist [0; 2; 0; 2]%Q)
             (qlist [1; 1; 1; 1]%Q) (Q2Qc 2)) = qlist [1 # 2; 3 # 2; 5 # 2]%Q /\
  increasing (map fst (findSignalIntersectionsAtZero (qlist [0; 1; 2; 3]%Q) (qlist [0; 2; 0; 2]%Q)
                         (qlist [1; 1; 1; 1]%Q) (Q2Qc 2))).
Proof.
  split; [apply map_this_inj; vm_compute; reflexivity|].
  apply (findSignalIntersectionsAtZero_ordered (qlist [0; 1; 2; 3]%Q) (qlist [0; 2; 0; 2]%Q)
           (qlist [1; 1; 1; 1]%Q) (Q2Qc 2)).
  intros k Hk. destruct k as [|[|[|k]]]; simpl in Hk; try lia; apply Qcltb_true; reflexivity.
Defined.

(** *** Matrix products *)

Lemma matrix_eta r c M : shaped r c M ->
  M = map (fun i => map (fun j => getM M i j) (seq 0 c)) (seq 0 r).
Proof.
  intros [Hl Hr]. apply (nth_ext _ _ [] []); [rewrite length_map, length_seq; exact Hl|].
  intros i Hi. rewrite Hl in Hi. rewrite nth_map_seq by exact Hi.
  apply (nth_ext _ _ 0 0); [rewrite length_map, length_seq; apply Hr; exact Hi|].
  intros j Hj. rewrite Hr in Hj by exact Hi. rewrite nth_map_seq by exact Hj. reflexivity.
Qed.

Lemma product_shaped (A B : list (list Qc)) ra ca cb :
  shaped ra cb (map (fun i => map (fun j => sum ca (fun k => getM A i k * getM B k j)) (seq 0 cb))
                    (seq 0 ra)).
Proof. exact (length_product A B ra ca cb). Qed.

Lemma multiplyMatrices_shaped A B r p q :
  (0 < r)%nat -> (0 < p)%nat -> shaped r p A -> shaped p q B ->
  multiplyMatrices A B =
  Ok (map (fun i => map (fun j => sum p (fun k => getM A i k * getM B k j)) (seq 0 q)) (seq 0 r)).
Proof.
  intros Hr Hp [HA1 HA2] [HB1 HB2].
  apply multiplyMatrices_ok; [exact HA1|exact Hr|apply HA2; exact Hr|exact HB1|exact Hp|apply HB2; exact Hp].
Qed.

(** [multiplyMatrices] is associative on matrices of matching shapes
    [r x p], [p x q] and [q x s] (no dimension zero): both ways of
    multiplying three matrices succeed and give the same matrix. *)
Theorem multiplyMatrices_assoc (A B C : list (list Qc)) r p q s :
  (0 < r)%nat -> (0 < p)%nat -> (0 < q)%nat -> (0 < s)%nat ->
  shaped r p A -> shaped p q B -> shaped q s C ->
  exists AB BC ABC, multiplyMatrices A B = Ok AB /\ multiplyMatrices B C = Ok BC /\
    multiplyMatrices AB C = Ok ABC /\ multiplyMatrices A BC = Ok ABC.
Proof.
  intros Hr Hp Hq Hs HA HB HC.
  do 3 eexists. split; [apply (multiplyMatrices_shaped A B r p q Hr Hp HA HB)|].
  split; [apply (multiplyMatrices_shaped B C p q s Hp Hq HB HC)|].
  split; [apply (multiplyMatrices_shaped _ C r q s Hr Hq (product_shaped A B r p q) HC)|].
  rewrite (multiplyMatrices_shaped A _ r p s Hr Hp HA (product_shaped B C p q s)).
  f_equal. symmetry. apply map_ext_in. intros i Hi. apply in_seq in Hi.
  apply map_ext_in. intros j Hj. apply in_seq in Hj.
  transitivity (sum q (fun k => sum p (fun l => getM A i l * getM B l k) * getM C k j)).
  { apply sum_ext. intros k Hk. rewrite (getM_product A B r p q) by lia. reflexivity. }
  transitivity (sum p (fun l => getM A i l * sum q (fun k => getM B l k * getM C k j))).
  2: { apply sum_ext. intros l Hl. rewrite (getM_product B C p q s) by lia. reflexivity. }
  transitivity (sum q (fun k => sum p (fun l => getM A i l * getM B l k * getM C k j))).
  { apply sum_ext. intros k _. rewrite Qcmult_comm, <- sum_scale.
    apply sum_ext. intros l _. ring. }
  rewrite sum_swap. apply sum_ext. intros l _. rewrite <- sum_scale.
  apply sum_ext. intros k _. ring.
Qed.

Lemma getM_identity n i k : (i < n)%nat -> (k < n)%nat ->
  getM (identity n) i k = if Nat.eqb i k then 1 else 0.
Proof.
  intros Hi Hk. unfold getM, identity. rewrite nth_map_seq by exact Hi. unfold unit_row.
  rewrite nth_map_seq by exact Hk. reflexivity.
Qed.

Lemma identity_shaped n : shaped n n (identity n).
Proof.
  unfold identity. split; [rewrite length_map, length_seq; reflexivity|].
  intros i Hi. rewrite nth_map_seq by exact Hi. unfold unit_row.
  rewrite length_map, length_seq. reflexivity.
Qed.

(** The identity matrix that [invertMatrix] aims at is neutral for
    [multiplyMatrices] on both sides of an [r x c] matrix. *)
Theorem multiplyMatrices_identity (M : list (list Qc)) r c :
  (0 < r)%nat -> (0 < c)%nat -> shaped r c M ->
  multiplyMatrices (identity r) M = Ok M /\ multiplyMatrices M (identity c) = Ok M.
Proof.
  intros Hr Hc HM. split.
  - rewrite (multiplyMatrices_shaped _ M r r c Hr Hr (identity_shaped r) HM).
    f_equal. etransitivity; [|symmetry; exact (matrix_eta r c M HM)].
    apply map_ext_in. intros i Hi. apply in_seq in Hi.
    apply map_ext_in. intros j Hj. apply in_seq in Hj.
    rewrite <- (sum_unit r i (fun k => getM M k j)) by lia.
    apply sum_ext. intros k Hk. rewrite getM_identity by lia. reflexivity.
  - rewrite (multiplyMatrices_shaped M _ r c c Hr Hc HM (identity_shaped c)).
    f_equal. etransitivity; [|symmetry; exact (matrix_eta r c M HM)].
    apply map_ext_in. intros i Hi. apply in_seq in Hi.
    apply map_ext_in. intros j Hj. apply in_seq in Hj.
    rewrite <- (sum_unit c j (fun k => getM M i k)) by lia.
    apply sum_ext. intros k Hk. rewrite getM_identity by lia.
    rewrite Nat.eqb_sym. apply Qcmult_comm.
Qed.

Lemma multiplyMatrices_assoc_witness :
  exists AB BC ABC,
    multiplyMatrices ([qlist [1; 2]%Q]%list) (map qlist [[1; 0; 2]; [3; 1; 0]]%Q) = Ok AB /\
    multiplyMatrices (map qlist [[1; 0; 2]; [3; 1; 0]]%Q) ([qlist [1%Q]; qlist [2%Q]; qlist [1%Q]]%list) = Ok BC /\
    multiplyMatrices AB ([qlist [1%Q]; qlist [2%Q]; qlist [1%Q]]%list) = Ok ABC /\
    multiplyMatrices ([qlist [1; 2]%Q]%list) BC = Ok ABC.
Proof.
  apply (multiplyMatrices_assoc _ _ _ 1 2 3 1); try lia;
    (split; [reflexivity|]); intros i Hi;
    repeat (destruct i as [|i]; [reflexivity|]); simpl in Hi; lia.
Defined.

Lemma multiplyMatrices_identity_witness :
  multiplyMatrices (identity 2) (map qlist [[1; 2; 3]; [4; 5; 6]]%Q)
    = Ok (map qlist [[1; 2; 3]; [4; 5; 6]]%Q) /\
  multiplyMatrices (map qlist [[1; 2; 3]; [4; 5; 6]]%Q) (identity 3)
    = Ok (map qlist [[1; 2; 3]; [4; 5; 6]]%Q).
Proof.
  apply (multiplyMatrices_identity _ 2 3); try lia.
  split; [reflexivity|]. intros i Hi.
  repeat (destruct i as [|i]; [reflexivity|]); simpl in Hi; lia.
Defined.
